(** * The topic path finder of the dynamic knowledge base

    A shallow embedding of the class [TopicPathFinder] (the module
    algorithms/ShortestPathAlgorithm, whose text is found in
    src/routes/topicRoutes.ts) and the verification of its documented
    properties.

    Modelling conventions.
    - A JS [Map<string, V>] is an association list in insertion order
      ([Map.set] on an existing key replaces the value in place, a new key is
      appended); a JS [Set<string>] is a duplicate-free list in insertion
      order.  Iteration order is therefore the one of the source.
    - A JS [number] is [number]: a rational, one of the two infinities, or
      NaN.  Rational arithmetic is exact; the rounding of IEEE doubles is not
      modelled.  The theorems about distances are kept to what rounded sums
      satisfy as well: they speak of the sum along one path taken from its
      start, bound a sum by the number of hops (every weight lies between 1
      and 1.5), or compare a returned distance with the sum along another
      path.  None rests on a sum meeting a bound exactly, or on two sums
      taken in different orders being equal.
    - Strings are sequences of code units in U+0000..U+00FF.
    - A [while] loop or a recursion of the source takes a fuel argument; the
      outcome [OutOfFuel] stands for a computation that has not returned
      within the given number of iterations.  A property access on
      [undefined] is the outcome [TypeError]. *)

From Stdlib Require Import String Ascii List Bool Arith ZArith QArith Lia Lqa.
From Stdlib Require Import Permutation Sorted.
Import ListNotations.

Local Open Scope string_scope.
Local Open Scope list_scope.

(** ** Outcomes of a computation *)

Inductive result (A : Type) : Type :=
| Ok (v : A)
| TypeError
| OutOfFuel.

Arguments Ok {A} v.
Arguments TypeError {A}.
Arguments OutOfFuel {A}.

Definition bind {A B : Type} (r : result A) (k : A -> result B) : result B :=
  match r with
  | Ok v => k v
  | TypeError => TypeError
  | OutOfFuel => OutOfFuel
  end.

Notation "x <- r ;; k" := (bind r (fun x => k))
  (at level 61, r at next level, right associativity).

(** ** JS numbers *)

Inductive number : Type :=
| Finite (q : Q)
| Infinity
| NegInfinity
| NaN.

Definition Qltb (a b : Q) : bool := negb (Qle_bool b a).

(** [a < b] *)
Definition num_ltb (a b : number) : bool :=
  match a, b with
  | Finite x, Finite y => Qltb x y
  | Finite _, Infinity => true
  | NegInfinity, Finite _ => true
  | NegInfinity, Infinity => true
  | _, _ => false
  end.

(** [a <= b] *)
Definition num_leb (a b : number) : bool :=
  match a, b with
  | Finite x, Finite y => Qle_bool x y
  | Finite _, Infinity => true
  | NegInfinity, Finite _ => true
  | NegInfinity, Infinity => true
  | Infinity, Infinity => true
  | NegInfinity, NegInfinity => true
  | _, _ => false
  end.

(** [a + b] *)
Definition num_add (a b : number) : number :=
  match a, b with
  | Finite x, Finite y => Finite (x + y)
  | NaN, _ | _, NaN => NaN
  | Infinity, NegInfinity | NegInfinity, Infinity => NaN
  | Infinity, _ | _, Infinity => Infinity
  | NegInfinity, _ | _, NegInfinity => NegInfinity
  end.

(** [a - b] *)
Definition num_sub (a b : number) : number :=
  match a, b with
  | Finite x, Finite y => Finite (x - y)
  | NaN, _ | _, NaN => NaN
  | Infinity, Infinity | NegInfinity, NegInfinity => NaN
  | Infinity, _ | _, NegInfinity => Infinity
  | NegInfinity, _ | _, Infinity => NegInfinity
  end.

(** [Math.max(...l)]: negative infinity for no argument. *)
Definition num_max2 (a b : number) : number :=
  match a, b with
  | NaN, _ | _, NaN => NaN
  | _, _ => if num_ltb a b then b else a
  end.

Definition Math_max (l : list number) : number :=
  fold_left num_max2 l NegInfinity.

Definition num_of_nat (n : nat) : number := Finite (inject_Z (Z.of_nat n)).

(** ** Maps and sets in insertion order *)

Definition Map (V : Type) : Type := list (string * V).
Definition StrSet : Type := list string.

Fixpoint map_get {V : Type} (k : string) (m : Map V) : option V :=
  match m with
  | [] => None
  | (k', v) :: m' => if String.eqb k k' then Some v else map_get k m'
  end.

Definition map_has {V : Type} (k : string) (m : Map V) : bool :=
  match map_get k m with Some _ => true | None => false end.

Fixpoint map_set {V : Type} (k : string) (v : V) (m : Map V) : Map V :=
  match m with
  | [] => [(k, v)]
  | (k', v') :: m' =>
      if String.eqb k k' then (k, v) :: m' else (k', v') :: map_set k v m'
  end.

Definition map_keys {V : Type} (m : Map V) : list string := map fst m.
Definition map_values {V : Type} (m : Map V) : list V := map snd m.
Definition map_size {V : Type} (m : Map V) : nat := length m.

Definition set_has (k : string) (s : StrSet) : bool :=
  existsb (String.eqb k) s.

Definition set_add (k : string) (s : StrSet) : StrSet :=
  if set_has k s then s else s ++ [k].

Definition set_delete (k : string) (s : StrSet) : StrSet :=
  filter (fun x => negb (String.eqb k x)) s.

Definition set_size (s : StrSet) : nat := length s.

(** [new Set(l)] *)
Definition set_of_list (l : list string) : StrSet :=
  fold_left (fun s k => set_add k s) l [].

(** ** Topic records (src/types/index.ts, [ITopicData]) *)

Record ITopicData : Type := mkTopic {
  id : string;
  name : string;
  content : string;
  parentTopicId : option string
}.

(** Truthiness of an optional string: [undefined] and the empty string are
    falsy. *)
Definition truthy (s : option string) : bool :=
  match s with
  | Some x => negb (String.eqb x "")
  | None => false
  end.

(** [a === b] on optional strings. *)
Definition opt_eqb (a b : option string) : bool :=
  match a, b with
  | Some x, Some y => String.eqb x y
  | None, None => true
  | _, _ => false
  end.

(** ** The graph: the two private fields of [TopicPathFinder] *)

Record Graph : Type := mkGraph {
  topics : Map ITopicData;
  adjacencyList : Map StrSet
}.

Definition empty_graph : Graph := mkGraph [] [].

(** [this.adjacencyList.get(k)?.add(x)] *)
Definition adj_add (k x : string) (adj : Map StrSet) : Map StrSet :=
  match map_get k adj with
  | Some s => map_set k (set_add x s) adj
  | None => adj
  end.

Definition buildGraph_init (g : Graph) (topic : ITopicData) : Graph :=
  mkGraph (map_set (id topic) topic (topics g))
          (map_set (id topic) [] (adjacencyList g)).

Definition buildGraph_link (g : Graph) (topic : ITopicData) : Graph :=
  match parentTopicId topic with
  | Some p =>
      if truthy (Some p) && map_has p (topics g)
      then mkGraph (topics g)
                   (adj_add (id topic) p (adj_add p (id topic) (adjacencyList g)))
      else g
  | None => g
  end.

(** [buildGraph], run by the constructor on the two empty maps. *)
Definition buildGraph (ts : list ITopicData) : Graph :=
  fold_left buildGraph_link ts (fold_left buildGraph_init ts empty_graph).

(** [this.adjacencyList.get(id) || new Set()] *)
Definition neighbors (g : Graph) (k : string) : StrSet :=
  match map_get k (adjacencyList g) with
  | Some s => s
  | None => []
  end.

(** ** Content similarity and edge weights *)

Definition stopWords : StrSet :=
  ["the"; "a"; "an"; "and"; "or"; "but"; "in"; "on"; "at"; "to"; "for"; "of";
   "with"; "by"; "is"; "are"; "was"; "were"; "be"; "been"; "being"; "have";
   "has"; "had"; "do"; "does"; "did"; "will"; "would"; "could"; "should"].

Definition in_range (lo hi n : nat) : bool := (lo <=? n)%nat && (n <=? hi)%nat.

(** [toLowerCase] on one code unit of U+0000..U+00FF. *)
Definition lower_char (c : ascii) : ascii :=
  let n := nat_of_ascii c in
  if in_range 65 90 n || (in_range 192 222 n && negb (n =? 215)%nat)
  then ascii_of_nat (n + 32) else c.

(** The class [\w]: letters, digits and the underscore. *)
Definition is_word_char (c : ascii) : bool :=
  let n := nat_of_ascii c in
  in_range 48 57 n || in_range 65 90 n || in_range 97 122 n || (n =? 95)%nat.

(** The class [\s] within U+0000..U+00FF. *)
Definition is_space_char (c : ascii) : bool :=
  let n := nat_of_ascii c in
  in_range 9 13 n || (n =? 32)%nat || (n =? 160)%nat.

Fixpoint string_map (f : ascii -> ascii) (s : string) : string :=
  match s with
  | EmptyString => EmptyString
  | String c s' => String (f c) (string_map f s')
  end.

Definition toLowerCase (s : string) : string := string_map lower_char s.

(** [replace(/[^\w\s]/g, ' ')] *)
Definition replace_non_word (s : string) : string :=
  string_map (fun c => if is_word_char c || is_space_char c then c else " "%char) s.

(** [split(/\s+/)]: [cur] is the piece being read, [in_sep] tells that the
    previous code unit belonged to a separator. *)
Fixpoint split_ws (in_sep : bool) (cur : string) (s : string) : list string :=
  match s with
  | EmptyString => [cur]
  | String c s' =>
      if is_space_char c
      then if in_sep then split_ws true cur s'
           else cur :: split_ws true EmptyString s'
      else split_ws false (cur ++ String c EmptyString) s'
  end.

Definition split_whitespace (s : string) : list string :=
  split_ws false EmptyString s.

Definition extractWords (text : string) : StrSet :=
  set_of_list
    (filter (fun word => (2 <? String.length word)%nat && negb (set_has word stopWords))
            (split_whitespace (replace_non_word (toLowerCase text)))).

Definition topic_text (t : ITopicData) : string :=
  name t ++ " " ++ content t.

Definition calculateContentSimilarity (topic1 topic2 : ITopicData) : Q :=
  let words1 := extractWords (topic_text topic1) in
  let words2 := extractWords (topic_text topic2) in
  if (set_size words1 =? 0)%nat || (set_size words2 =? 0)%nat then 0
  else
    let intersection := set_of_list (filter (fun word => set_has word words2) words1) in
    let union := set_of_list (words1 ++ words2) in
    inject_Z (Z.of_nat (set_size intersection)) / inject_Z (Z.of_nat (set_size union)).

(** The weight computed from the two records, once both are found. *)
Definition edge_weight (fromId toId : string) (fromTopic toTopic : ITopicData) : Q :=
  let weight := 1 in
  let weight :=
    if opt_eqb (parentTopicId fromTopic) (Some toId)
       || opt_eqb (parentTopicId toTopic) (Some fromId)
    then 1 else weight in
  let contentSimilarity := calculateContentSimilarity fromTopic toTopic in
  weight + (1 - contentSimilarity) * (1 # 2).

Definition getEdgeWeight (g : Graph) (fromId toId : string) : result Q :=
  match map_get fromId (topics g), map_get toId (topics g) with
  | Some fromTopic, Some toTopic => Ok (edge_weight fromId toId fromTopic toTopic)
  | _, _ => TypeError
  end.

(** [calculatePathDistance]: the sum, from the left, of the weights of the
    consecutive pairs. *)
Fixpoint sum_edges (g : Graph) (path : list string) (totalDistance : Q) : result Q :=
  match path with
  | a :: ((b :: _) as rest) =>
      w <- getEdgeWeight g a b ;; sum_edges g rest (totalDistance + w)
  | _ => Ok totalDistance
  end.

Definition calculatePathDistance (g : Graph) (path : list string) : result Q :=
  sum_edges g path 0.

(** ** Results (src/types/index.ts, [ShortestPath] and [PathNode]) *)

Record ShortestPath : Type := mkShortestPath {
  path : list string;
  distance : number;
  path_topics : list (option ITopicData)
}.

(** The distances of the neighbourhood search are [0] and sums of edge
    weights, hence rationals. *)
Record PathNode : Type := mkPathNode {
  topicId : string;
  node_distance : Q;
  parent : option string
}.

(** [path.map(id => this.topics.get(id)!)] *)
Definition hydrate (g : Graph) (p : list string) : list (option ITopicData) :=
  map (fun k => map_get k (topics g)) p.

(** [Array.prototype.sort] with a comparator: the sort is stable, and [le a b]
    tells that the comparator is not positive on [(a, b)]. *)
Fixpoint insert_sorted {A : Type} (le : A -> A -> bool) (x : A) (l : list A) : list A :=
  match l with
  | [] => [x]
  | y :: l' => if le x y then x :: l else y :: insert_sorted le x l'
  end.

Definition stable_sort {A : Type} (le : A -> A -> bool) (l : list A) : list A :=
  fold_right (insert_sorted le) [] l.

(** ** Shortest path *)

Record DijkstraState : Type := mkDijkstra {
  distances : Map number;
  previous : Map (option string);
  visited : StrSet;
  unvisited : StrSet
}.

(** [distances.get(k)!]; a missing entry behaves as NaN in every comparison
    and sum. *)
Definition get_distance (m : Map number) (k : string) : number :=
  match map_get k m with
  | Some n => n
  | None => NaN
  end.

Definition dijkstra_init_step (startId : string) (st : DijkstraState) (k : string)
  : DijkstraState :=
  mkDijkstra (map_set k (if String.eqb k startId then Finite 0 else Infinity) (distances st))
             (map_set k None (previous st))
             (visited st)
             (set_add k (unvisited st)).

Definition dijkstra_init (g : Graph) (startId : string) : DijkstraState :=
  fold_left (dijkstra_init_step startId) (map_keys (topics g)) (mkDijkstra [] [] [] []).

(** The scan for the unvisited node of minimum distance. *)
Definition select_step (dist : Map number) (acc : option string * number) (nodeId : string)
  : option string * number :=
  let d := get_distance dist nodeId in
  if num_ltb d (snd acc) then (Some nodeId, d) else acc.

Definition select_min (st : DijkstraState) : option string * number :=
  fold_left (select_step (distances st)) (unvisited st) (None, Infinity).

Definition is_infinity (n : number) : bool :=
  match n with Infinity => true | _ => false end.

(** The update of the distances of the neighbours of [currentNode]. *)
Fixpoint relax (g : Graph) (currentNode : string) (ns : list string) (st : DijkstraState)
  : result DijkstraState :=
  match ns with
  | [] => Ok st
  | neighborId :: ns' =>
      if set_has neighborId (visited st) then relax g currentNode ns' st
      else
        let currentDistance := get_distance (distances st) currentNode in
        edgeWeight <- getEdgeWeight g currentNode neighborId ;;
        let newDistance := num_add currentDistance (Finite edgeWeight) in
        if num_ltb newDistance (get_distance (distances st) neighborId)
        then relax g currentNode ns'
               (mkDijkstra (map_set neighborId newDistance (distances st))
                           (map_set neighborId (Some currentNode) (previous st))
                           (visited st) (unvisited st))
        else relax g currentNode ns' st
  end.

Fixpoint dijkstra_loop (fuel : nat) (g : Graph) (endId : string) (st : DijkstraState)
  : result DijkstraState :=
  match fuel with
  | O => OutOfFuel
  | S fuel' =>
      if (0 <? set_size (unvisited st))%nat then
        match select_min st with
        | (None, _) => Ok st
        | (Some currentNode, minDistance) =>
            if is_infinity minDistance then Ok st
            else
              let st1 := mkDijkstra (distances st) (previous st)
                                    (set_add currentNode (visited st))
                                    (set_delete currentNode (unvisited st)) in
              if String.eqb currentNode endId then Ok st1
              else
                st2 <- relax g currentNode (neighbors g currentNode) st1 ;;
                dijkstra_loop fuel' g endId st2
        end
      else Ok st
  end.

(** [previous.get(k) || null] *)
Definition get_previous (prev : Map (option string)) (k : string) : option string :=
  match map_get k prev with
  | Some (Some p) => if truthy (Some p) then Some p else None
  | _ => None
  end.

Fixpoint reconstruct_loop (fuel : nat) (prev : Map (option string)) (startId : string)
  (currentId : option string) (acc : list string) : result (list string) :=
  match fuel with
  | O => OutOfFuel
  | S fuel' =>
      match currentId with
      | None => Ok acc
      | Some c =>
          if String.eqb c startId then Ok (c :: acc)
          else reconstruct_loop fuel' prev startId (get_previous prev c) (c :: acc)
      end
  end.

Definition reconstructPath (fuel : nat) (prev : Map (option string)) (startId endId : string)
  : result (list string) :=
  p <- reconstruct_loop fuel prev startId (Some endId) [] ;;
  match p with
  | [] => Ok []
  | first :: _ => if String.eqb first startId then Ok p else Ok []
  end.

Definition findShortestPath (fuel : nat) (g : Graph) (startId endId : string)
  : result (option ShortestPath) :=
  if negb (map_has startId (topics g)) || negb (map_has endId (topics g)) then Ok None
  else if String.eqb startId endId
  then Ok (Some (mkShortestPath [startId] (Finite 0) [map_get startId (topics g)]))
  else
    st <- dijkstra_loop fuel g endId (dijkstra_init g startId) ;;
    p <- reconstructPath fuel (previous st) startId endId ;;
    match p with
    | [] => Ok None
    | _ => Ok (Some (mkShortestPath p (get_distance (distances st) endId) (hydrate g p)))
    end.

(** ** All paths *)

Record DfsState : Type := mkDfs {
  currentPath : list string;
  dfs_visited : StrSet;
  allPaths : list (list string)
}.

(** The loop over the neighbours: [visit] is the recursive call. *)
Fixpoint for_each_unvisited (visit : string -> DfsState -> result DfsState)
  (ns : list string) (st : DfsState) : result DfsState :=
  match ns with
  | [] => Ok st
  | neighborId :: ns' =>
      st' <- (if negb (set_has neighborId (dfs_visited st)) then visit neighborId st
              else Ok st) ;;
      for_each_unvisited visit ns' st'
  end.

(** [maxDepth] is an integer. *)
Fixpoint dfsAllPaths (fuel : nat) (g : Graph) (currentId endId : string) (maxDepth : Z)
  (st : DfsState) : result DfsState :=
  match fuel with
  | O => OutOfFuel
  | S fuel' =>
      if (maxDepth <? Z.of_nat (length (currentPath st)))%Z then Ok st
      else
        let pushed := currentPath st ++ [currentId] in
        let st1 := mkDfs pushed (set_add currentId (dfs_visited st)) (allPaths st) in
        st2 <-
          (if String.eqb currentId endId
           then Ok (mkDfs pushed (dfs_visited st1) (allPaths st1 ++ [pushed]))
           else for_each_unvisited
                  (fun neighborId s => dfsAllPaths fuel' g neighborId endId maxDepth s)
                  (neighbors g currentId) st1) ;;
        Ok (mkDfs (removelast (currentPath st2))
                  (set_delete currentId (dfs_visited st2))
                  (allPaths st2))
  end.

Fixpoint map_result {A B : Type} (f : A -> result B) (l : list A) : result (list B) :=
  match l with
  | [] => Ok []
  | x :: l' => y <- f x ;; ys <- map_result f l' ;; Ok (y :: ys)
  end.

(** The comparator [(a, b) => a.distance - b.distance] is not positive. *)
Definition path_le (a b : ShortestPath) : bool :=
  num_leb (num_sub (distance a) (distance b)) (Finite 0).

Definition findAllPaths (fuel : nat) (g : Graph) (startId endId : string) (maxDepth : Z)
  : result (list ShortestPath) :=
  if negb (map_has startId (topics g)) || negb (map_has endId (topics g)) then Ok []
  else
    st <- dfsAllPaths fuel g startId endId maxDepth (mkDfs [] [] []) ;;
    rs <- map_result
            (fun p => d <- calculatePathDistance g p ;;
                      Ok (mkShortestPath p (Finite d) (hydrate g p)))
            (allPaths st) ;;
    Ok (stable_sort path_le rs).

(** ** Ancestors and depth *)

(** [topic?.parentTopicId] *)
Definition parent_of (g : Graph) (k : string) : option string :=
  match map_get k (topics g) with
  | Some topic => parentTopicId topic
  | None => None
  end.

Fixpoint ancestors_loop (fuel : nat) (g : Graph) (currentId : option string)
  (ancestors : list string) : result (list string) :=
  match fuel with
  | O => OutOfFuel
  | S fuel' =>
      match currentId with
      | Some c =>
          if truthy currentId
          then ancestors_loop fuel' g (parent_of g c) (ancestors ++ [c])
          else Ok ancestors
      | None => Ok ancestors
      end
  end.

Definition getAncestors (fuel : nat) (g : Graph) (k : string) : result (list string) :=
  ancestors_loop fuel g (Some k) [].

Fixpoint depth_loop (fuel : nat) (g : Graph) (currentId : option string) (depth : nat)
  : result nat :=
  match fuel with
  | O => OutOfFuel
  | S fuel' =>
      match currentId with
      | Some c =>
          if truthy currentId
          then if negb (truthy (parent_of g c)) then Ok depth
               else depth_loop fuel' g (parent_of g c) (S depth)
          else Ok depth
      | None => Ok depth
      end
  end.

Definition getTopicDepth (fuel : nat) (g : Graph) (k : string) : result nat :=
  depth_loop fuel g (Some k) 0.

(** The scan of the common ancestors for one of maximum depth. *)
Fixpoint closest_loop (fuel : nat) (g : Graph) (common : list string)
  (closestAncestor : string) (maxDepth : nat) : result string :=
  match common with
  | [] => Ok closestAncestor
  | ancestor :: rest =>
      depth <- getTopicDepth fuel g ancestor ;;
      if (maxDepth <? depth)%nat
      then closest_loop fuel g rest ancestor depth
      else closest_loop fuel g rest closestAncestor maxDepth
  end.

Definition findClosestCommonAncestor (fuel : nat) (g : Graph) (topicId1 topicId2 : string)
  : result (option string) :=
  if negb (map_has topicId1 (topics g)) || negb (map_has topicId2 (topics g)) then Ok None
  else
    ancestors1 <- getAncestors fuel g topicId1 ;;
    ancestors2 <- getAncestors fuel g topicId2 ;;
    let commonAncestors := filter (fun ancestor => set_has ancestor ancestors2) ancestors1 in
    match commonAncestors with
    | [] => Ok None
    | first :: _ =>
        maxDepth <- getTopicDepth fuel g first ;;
        closest <- closest_loop fuel g commonAncestors first maxDepth ;;
        Ok (Some closest)
    end.

(** ** Topics within a distance *)

Record BfsState : Type := mkBfs {
  bfs_distances : Map Q;
  queue : list PathNode;
  bfs_visited : StrSet
}.

(** The scan of the neighbours of the dequeued node [current]. *)
Fixpoint expand (g : Graph) (current : PathNode) (maxDistance : Q) (ns : list string)
  (st : BfsState) : result BfsState :=
  match ns with
  | [] => Ok st
  | neighborId :: ns' =>
      if negb (set_has neighborId (bfs_visited st)) then
        w <- getEdgeWeight g (topicId current) neighborId ;;
        let newDistance := node_distance current + w in
        if Qle_bool newDistance maxDistance
           && match map_get neighborId (bfs_distances st) with
              | None => true
              | Some old => Qltb newDistance old
              end
        then expand g current maxDistance ns'
               (mkBfs (map_set neighborId newDistance (bfs_distances st))
                      (queue st ++ [mkPathNode neighborId newDistance (Some (topicId current))])
                      (bfs_visited st))
        else expand g current maxDistance ns' st
      else expand g current maxDistance ns' st
  end.

Fixpoint bfs_loop (fuel : nat) (g : Graph) (maxDistance : Q) (st : BfsState)
  : result BfsState :=
  match fuel with
  | O => OutOfFuel
  | S fuel' =>
      match queue st with
      | [] => Ok st
      | current :: rest =>
          if set_has (topicId current) (bfs_visited st)
          then bfs_loop fuel' g maxDistance (mkBfs (bfs_distances st) rest (bfs_visited st))
          else
            let st1 := mkBfs (bfs_distances st) rest
                             (set_add (topicId current) (bfs_visited st)) in
            if Qle_bool maxDistance (node_distance current)
            then bfs_loop fuel' g maxDistance st1
            else
              st2 <- expand g current maxDistance (neighbors g (topicId current)) st1 ;;
              bfs_loop fuel' g maxDistance st2
      end
  end.

(** The comparator [(a, b) => a.distance - b.distance] is not positive. *)
Definition node_le (a b : PathNode) : bool :=
  Qle_bool (node_distance a - node_distance b) 0.

Definition findTopicsWithinDistance (fuel : nat) (g : Graph) (k : string) (maxDistance : Q)
  : result (list PathNode) :=
  if negb (map_has k (topics g)) then Ok []
  else
    st <- bfs_loop fuel g maxDistance
            (mkBfs (map_set k 0 []) [mkPathNode k 0 None] []) ;;
    Ok (stable_sort node_le
          (filter (fun node => Qle_bool (node_distance node) maxDistance)
                  (map (fun e => mkPathNode (fst e) (snd e) None) (bfs_distances st)))).

(** ** Statistics *)

Record GraphStats : Type := mkStats {
  nodeCount : nat;
  edgeCount : Q;
  maxDepth : number;
  rootNodes : list string
}.

Definition getGraphStats (fuel : nat) (g : Graph) : result GraphStats :=
  let edgeCount :=
    inject_Z (Z.of_nat (fold_left (fun sum ns => (sum + set_size ns)%nat)
                                  (map_values (adjacencyList g)) 0%nat)) / 2 in
  let rootNodes :=
    map id (filter (fun topic => negb (truthy (parentTopicId topic)))
                   (map_values (topics g))) in
  depths <- map_result (getTopicDepth fuel g) (map_keys (topics g)) ;;
  Ok (mkStats (map_size (topics g)) edgeCount (Math_max (map num_of_nat depths)) rootNodes).


(** * The topic service *)

(** The topics table of [JsonDatabase] is a map from id to record, and
    [findById(id)] is [this.data.get(id) || null]. *)
Definition findById (db : Map ITopicData) (k : string) : option ITopicData :=
  map_get k db.

(** [parent?.parentTopicId], for the record [parent] found under [k]. *)
Definition found_parent (db : Map ITopicData) (k : string) : option string :=
  match findById db k with
  | Some parent => parentTopicId parent
  | None => None
  end.

(** The loop of [TopicService.wouldCreateCircularReference]. *)
Fixpoint circular_loop (fuel : nat) (db : Map ITopicData) (topicId : string)
  (currentId : option string) (visited : StrSet) : result bool :=
  match fuel with
  | O => OutOfFuel
  | S fuel' =>
      match currentId with
      | Some c =>
          if truthy currentId then
            if String.eqb c topicId then Ok true
            else if set_has c visited then Ok false
            else circular_loop fuel' db topicId (found_parent db c) (set_add c visited)
          else Ok false
      | None => Ok false
      end
  end.

Definition wouldCreateCircularReference (fuel : nat) (db : Map ITopicData)
  (topicId newParentId : string) : result bool :=
  circular_loop fuel db topicId (Some newParentId) [].

(** The loop of [TopicService.calculateTopicDepth]. *)
Fixpoint table_depth_loop (fuel : nat) (db : Map ITopicData) (currentId : option string)
  (depth : nat) : result nat :=
  match fuel with
  | O => OutOfFuel
  | S fuel' =>
      match currentId with
      | Some c =>
          if truthy currentId
          then if negb (truthy (found_parent db c)) then Ok depth
               else table_depth_loop fuel' db (found_parent db c) (S depth)
          else Ok depth
      | None => Ok depth
      end
  end.

Definition calculateTopicDepth (fuel : nat) (db : Map ITopicData) (topicId : string)
  : result nat :=
  table_depth_loop fuel db (Some topicId) 0.

(** * Specification vocabulary and sample inputs *)

(** The significant words of a record, and the two counts of the Jaccard
    similarity. *)
Definition significant_words (t : ITopicData) : StrSet := extractWords (topic_text t).

Definition common_count (t1 t2 : ITopicData) : nat :=
  set_size (set_of_list (filter (fun word => set_has word (significant_words t2))
                                (significant_words t1))).

Definition union_count (t1 t2 : ITopicData) : nat :=
  set_size (set_of_list (significant_words t1 ++ significant_words t2)).

(** The hierarchy of the unit tests: a root, its two children and a
    grandchild under each. *)
Definition sampleTopics : list ITopicData :=
  [ mkTopic "root" "Root Topic" "Root content" None;
    mkTopic "child1" "Child 1" "Child 1 content" (Some "root");
    mkTopic "child2" "Child 2" "Child 2 content" (Some "root");
    mkTopic "grandchild1" "Grandchild 1" "Grandchild 1 content" (Some "child1");
    mkTopic "grandchild2" "Grandchild 2" "Grandchild 2 content" (Some "child2") ].

(** Two records with the same content and different names, and two records
    with the same name and word-disjoint contents. *)
Definition alphaTopic : ITopicData := mkTopic "a" "alpha" "shared words" None.
Definition betaTopic : ITopicData := mkTopic "b" "beta" "shared words" (Some "a").
Definition fooTopic : ITopicData := mkTopic "c" "alpha" "foo" (Some "a").
Definition barTopic : ITopicData := mkTopic "d" "alpha" "bar" (Some "c").
Definition namedTopics : list ITopicData := [alphaTopic; betaTopic; fooTopic; barTopic].

(** Two records with the same significant words, and a third one sharing no
    word with them. *)
Definition graphTopic : ITopicData := mkTopic "g1" "Graph" "The theory of a graph" None.
Definition theoryTopic : ITopicData := mkTopic "g2" "Theory" "graph, GRAPH; theory!" (Some "g1").
Definition cookingTopic : ITopicData := mkTopic "g3" "Cooking" "Recipes for soup" (Some "g1").
Definition vocabularyTopics : list ITopicData := [graphTopic; theoryTopic; cookingTopic].

(** The two topics of the unit test on circular references: each is the
    parent of the other. *)
Definition circularTopics : list ITopicData :=
  [ mkTopic "topic1" "Topic 1" "Content 1" (Some "topic2");
    mkTopic "topic2" "Topic 2" "Content 2" (Some "topic1") ].

(** A topic whose parent is not in the list. *)
Definition danglingTopics : list ITopicData :=
  [ mkTopic "a" "Orphan" "Some text" (Some "ghost") ].

(** A path follows the adjacency sets: each node is a neighbour of the one
    before it. *)
Fixpoint is_path (g : Graph) (p : list string) : Prop :=
  match p with
  | a :: ((b :: _) as rest) => In b (neighbors g a) /\ is_path g rest
  | _ => True
  end.

(** [p] is a path of the graph from [a] to [b]. *)
Definition path_from_to (g : Graph) (a b : string) (p : list string) : Prop :=
  hd_error p = Some a /\ last p a = b /\ is_path g p.

Definition reachable (g : Graph) (a b : string) : Prop :=
  exists p, path_from_to g a b p.

(** The number of edges of a path. *)
Definition hops (p : list string) : nat := (length p - 1)%nat.

(** The weight of an edge between two topics of the graph, and the weight of a
    path: the sum, from the left, of the weights of its edges. *)
Definition weight (g : Graph) (a b : string) : Q :=
  match getEdgeWeight g a b with
  | Ok w => w
  | _ => 0
  end.

Fixpoint path_weight_from (g : Graph) (p : list string) (acc : Q) : Q :=
  match p with
  | a :: ((b :: _) as rest) => path_weight_from g rest (acc + weight g a b)
  | _ => acc
  end.

Definition path_weight (g : Graph) (p : list string) : Q := path_weight_from g p 0.

(** Ascending order of the distances of two results. *)
Definition distance_le (a b : ShortestPath) : Prop :=
  num_leb (distance a) (distance b) = true.

(** [chain prev s v p]: walking the predecessors from [v] leads to [s] along
    [p], read from [s] to [v]. *)
Inductive chain (prev : Map (option string)) (s : string) : string -> list string -> Prop :=
| chain_start : chain prev s s [s]
| chain_step (v u : string) (p : list string) :
    v <> s -> get_previous prev v = Some u -> chain prev s u p ->
    chain prev s v (p ++ [v]).

(** A distance that is a rational or positive infinity. *)
Definition tame (n : number) : Prop := n = Infinity \/ exists q, n = Finite q.

(** What [findShortestPath] promises of a result for the pair of topics
    [(a, b)]: the path leads from [a] to [b] along adjacency edges, the
    distance is the sum of the weights of its edges, as [calculatePathDistance]
    computes it, and no path from [a] to [b] weighs less. *)
Definition shortest_path_result (g : Graph) (a b : string) (sp : ShortestPath) : Prop :=
  path_from_to g a b (path sp) /\
  calculatePathDistance g (path sp) = Ok (path_weight g (path sp)) /\
  distance sp = Finite (path_weight g (path sp)) /\
  (forall q, path_from_to g a b q -> path_weight g (path sp) <= path_weight g q) /\
  path_topics sp = hydrate g (path sp).

(** A topic with the empty string as id, child of the topic [r]. *)
Definition emptyIdTopics : list ITopicData :=
  [ mkTopic "" "Nameless" "first text" (Some "r");
    mkTopic "r" "Root" "second text" None ].

(** Between [k] and any topic there is at most one path without a repeated
    node: no cycle of the graph can be reached from [k]. *)
Definition unique_simple_paths (g : Graph) (k : string) : Prop :=
  forall v p q,
    path_from_to g k v p -> NoDup p ->
    path_from_to g k v q -> NoDup q -> p = q.



(** The work left to the neighbourhood search: the entries of the queue and
    the neighbours of the nodes that are not visited yet. *)
Definition degree_sum (g : Graph) (visitedNodes : StrSet) : nat :=
  list_sum (map (fun v => length (neighbors g v))
                (filter (fun v => negb (set_has v visitedNodes))
                        (map_keys (adjacencyList g)))).

Definition bfs_work (g : Graph) (st : BfsState) : nat :=
  (length (queue st) + degree_sum g (bfs_visited st))%nat.

(** What [findAllPaths] promises of each result. *)
Definition simple_bounded (g : Graph) (startId endId : string) (depthBound : Z)
  (r : ShortestPath) : Prop :=
  NoDup (path r) /\
  (Z.of_nat (hops (path r)) <= depthBound)%Z /\
  path_from_to g startId endId (path r) /\
  calculatePathDistance g (path r) = Ok (path_weight g (path r)) /\
  distance r = Finite (path_weight g (path r)).




(** * Vocabulary of the further properties *)

(** The code units of a string. *)
Definition chars (s : string) : list ascii := list_ascii_of_string s.

(** A lower-case letter, a digit or the underscore. *)
Definition is_lower_word_char (c : ascii) : bool :=
  let n := nat_of_ascii c in
  in_range 48 57 n || in_range 97 122 n || (n =? 95)%nat.

(** The record with its name and its content in lower case. *)
Definition lowercased (t : ITopicData) : ITopicData :=
  mkTopic (id t) (toLowerCase (name t)) (toLowerCase (content t)) (parentTopicId t).

(** Each node of the list is the predecessor of the next one. *)
Fixpoint prev_linked (prev : Map (option string)) (l : list string) : Prop :=
  match l with
  | u :: ((v :: _) as rest) => get_previous prev v = Some u /\ prev_linked prev rest
  | _ => True
  end.

(** The weight of every edge lies between 1 and 1.5, hence the weight of a
    path between its number of hops and one and a half times that number. *)
Definition within_hop_bounds (p : list string) (d : Q) : Prop :=
  inject_Z (Z.of_nat (hops p)) <= d /\ d <= (3 # 2) * inject_Z (Z.of_nat (hops p)).

(** [lineage par cur l]: the walk that starts at [cur] and goes from each id
    to its parent id [par] ends, and [l] lists the ids it passes, [cur] first.
    The walk ends at an absent or empty id. *)
Inductive lineage (par : string -> option string) : option string -> list string -> Prop :=
| lineage_end (cur : option string) :
    truthy cur = false -> lineage par cur []
| lineage_step (c : string) (l : list string) :
    truthy (Some c) = true -> lineage par (par c) l -> lineage par (Some c) (c :: l).

(** Each id of the list is followed by the parent id of its record. *)
Fixpoint parent_linked (g : Graph) (l : list string) : Prop :=
  match l with
  | a :: ((b :: _) as rest) => parent_of g a = Some b /\ parent_linked g rest
  | _ => True
  end.

(** The adjacency set of [u] in an adjacency map, empty when [u] is no key. *)
Definition adjacent (adj : Map StrSet) (u : string) : StrSet :=
  match map_get u adj with
  | Some s => s
  | None => []
  end.

(** A record with a parent that is a topic adds one edge, seen from both
    ends. *)
Definition links (ts : list ITopicData) (known : string -> bool) (u v : string) : Prop :=
  exists t p,
    In t ts /\ parentTopicId t = Some p /\ p <> "" /\ known p = true /\
    ((u = p /\ v = id t) \/ (u = id t /\ v = p)).

(** The answers of the two searches between [a] and [b] mirror each other:
    both are null, or both are paths; each path read backwards is a path of
    the graph the other way, and the distance found the other way is at most
    the sum of the weights along that reversed path, taken from its own
    start. *)
Definition mirrored (g : Graph) (a b : string) (r1 r2 : option ShortestPath) : Prop :=
  match r1, r2 with
  | None, None => True
  | Some s1, Some s2 =>
      path_from_to g b a (rev (path s1)) /\
      path_from_to g a b (rev (path s2)) /\
      exists d1 d2,
        distance s1 = Finite d1 /\ distance s2 = Finite d2 /\
        d2 <= path_weight g (rev (path s1)) /\
        d1 <= path_weight g (rev (path s2))
  | _, _ => False
  end.

(** [above par a t]: the walk from [a] up the parent ids [par] passes [t];
    it passes non-empty ids only. *)
Inductive above (par : string -> option string) : string -> string -> Prop :=
| above_self (a : string) : a <> "" -> above par a a
| above_parent (a p t : string) :
    a <> "" -> par a = Some p -> above par p t -> above par a t.

(** [climbs par t a]: the walk from [a] up the parent ids arrives at [t],
    for the first time. *)
Inductive climbs (par : string -> option string) (t : string) : string -> Prop :=
| climbs_top : t <> "" -> climbs par t t
| climbs_up (a p : string) :
    a <> "" -> a <> t -> par a = Some p -> climbs par t p -> climbs par t a.

(** The table of the sample hierarchy. *)
Definition sampleTable : Map ITopicData := map (fun t => (id t, t)) sampleTopics.

(** The sum of the sizes of the adjacency sets. *)
Definition degree_total (adj : Map StrSet) : nat :=
  list_sum (map set_size (map_values adj)).

(** The record has no parent id (absent or empty). *)
Definition parentless (t : ITopicData) : bool := negb (truthy (parentTopicId t)).

(** The record names a parent id that is the id of a topic. *)
Definition resolved (g : Graph) (t : ITopicData) : bool :=
  match parentTopicId t with
  | Some p => truthy (Some p) && map_has p (topics g)
  | None => false
  end.

(** The record names a parent id that is the id of no topic. *)
Definition unresolved (g : Graph) (t : ITopicData) : bool :=
  match parentTopicId t with
  | Some p => truthy (Some p) && negb (map_has p (topics g))
  | None => false
  end.

(** The greatest weight of a path of [l] hops: every edge weighs at most
    1.5. *)
Definition reach_of (l : nat) : Q := (3 # 2) * inject_Z (Z.of_nat l).

(** No topic is its own ancestor: the walk up the parent ids from the parent
    of a topic never comes back to the topic. *)
Definition no_parent_cycle (g : Graph) : Prop :=
  forall k p, parent_of g k = Some p -> ~ above (parent_of g) p k.
(** * Verification *)

(** ** Maps and sets *)

Lemma set_has_In (k : string) (s : StrSet) : set_has k s = true <-> In k s.
Proof.
  unfold set_has. rewrite existsb_exists. split.
  - intros [x [Hin Heq]]. apply String.eqb_eq in Heq. now subst.
  - intros Hin. exists k. split; [assumption | apply String.eqb_refl].
Qed.

Lemma set_has_false (k : string) (s : StrSet) : set_has k s = false <-> ~ In k s.
Proof.
  rewrite <- set_has_In. destruct (set_has k s); split; congruence.
Qed.

Lemma set_add_In (k x : string) (s : StrSet) : In k (set_add x s) <-> k = x \/ In k s.
Proof.
  unfold set_add. destruct (set_has x s) eqn:E.
  - apply set_has_In in E. split; [now right | intros [-> | H]; assumption].
  - rewrite in_app_iff. simpl. intuition.
Qed.

Lemma set_has_add (k x : string) (s : StrSet) :
  set_has k (set_add x s) = String.eqb k x || set_has k s.
Proof.
  apply eq_true_iff_eq. rewrite orb_true_iff, !set_has_In, set_add_In, String.eqb_eq.
  reflexivity.
Qed.

Lemma set_add_NoDup (x : string) (s : StrSet) : NoDup s -> NoDup (set_add x s).
Proof.
  intros H. unfold set_add. destruct (set_has x s) eqn:E; [assumption |].
  apply set_has_false in E. apply NoDup_app; [assumption | repeat constructor; intros [] |].
  intros y Hy [<- | []]. contradiction.
Qed.

Lemma set_delete_In (k x : string) (s : StrSet) : In k (set_delete x s) <-> In k s /\ k <> x.
Proof.
  unfold set_delete. rewrite filter_In, negb_true_iff, String.eqb_neq. intuition.
Qed.

Lemma set_has_delete (k x : string) (s : StrSet) :
  set_has k (set_delete x s) = set_has k s && negb (String.eqb k x).
Proof.
  apply eq_true_iff_eq.
  rewrite andb_true_iff, negb_true_iff, !set_has_In, set_delete_In, String.eqb_neq.
  reflexivity.
Qed.

Lemma set_delete_add_fresh (x : string) (s : StrSet) :
  ~ In x s -> set_delete x (set_add x s) = s.
Proof.
  intros H. unfold set_add. rewrite (proj2 (set_has_false x s) H).
  unfold set_delete. rewrite filter_app. simpl. rewrite String.eqb_refl. simpl.
  rewrite app_nil_r. apply forallb_filter_id. apply forallb_forall.
  intros y Hy. apply negb_true_iff, String.eqb_neq. intros <-. contradiction.
Qed.

Lemma set_of_list_acc_In (l : list string) (acc : StrSet) (k : string) :
  In k (fold_left (fun s x => set_add x s) l acc) <-> In k acc \/ In k l.
Proof.
  revert acc. induction l as [| x l IH]; intros acc; simpl.
  - intuition.
  - rewrite IH, set_add_In. intuition.
Qed.

Lemma set_of_list_In (l : list string) (k : string) : In k (set_of_list l) <-> In k l.
Proof.
  unfold set_of_list. rewrite set_of_list_acc_In. simpl. intuition.
Qed.

Lemma set_of_list_NoDup (l : list string) : NoDup (set_of_list l).
Proof.
  unfold set_of_list. generalize (NoDup_nil string). generalize (@nil string).
  induction l as [| x l IH]; intros acc Hacc; simpl; [assumption |].
  apply IH, set_add_NoDup, Hacc.
Qed.

Lemma NoDup_same_length (l1 l2 : list string) :
  NoDup l1 -> NoDup l2 -> (forall x, In x l1 <-> In x l2) -> length l1 = length l2.
Proof.
  intros H1 H2 H. apply Nat.le_antisymm; apply NoDup_incl_length; try assumption;
    intros x Hx; apply H; assumption.
Qed.

Lemma map_get_set_eq {V : Type} (k : string) (v : V) (m : Map V) :
  map_get k (map_set k v m) = Some v.
Proof.
  induction m as [| [k' v'] m IH]; simpl.
  - now rewrite String.eqb_refl.
  - destruct (String.eqb k k') eqn:E; simpl; rewrite ?String.eqb_refl, ?E; auto.
Qed.

Lemma map_get_set_neq {V : Type} (k k' : string) (v : V) (m : Map V) :
  k <> k' -> map_get k (map_set k' v m) = map_get k m.
Proof.
  intros Hne. apply String.eqb_neq in Hne.
  induction m as [| [k0 v0] m IH]; simpl.
  - now rewrite Hne.
  - destruct (String.eqb k' k0) eqn:E; simpl.
    + apply String.eqb_eq in E. subst k0. now rewrite Hne.
    + destruct (String.eqb k k0); auto.
Qed.

Lemma map_get_set {V : Type} (k k' : string) (v : V) (m : Map V) :
  map_get k (map_set k' v m) = if String.eqb k k' then Some v else map_get k m.
Proof.
  destruct (String.eqb k k') eqn:E.
  - apply String.eqb_eq in E. subst. apply map_get_set_eq.
  - apply String.eqb_neq in E. now apply map_get_set_neq.
Qed.

Lemma map_has_set {V : Type} (k k' : string) (v : V) (m : Map V) :
  map_has k (map_set k' v m) = String.eqb k k' || map_has k m.
Proof.
  unfold map_has. rewrite map_get_set. destruct (String.eqb k k'); reflexivity.
Qed.

Lemma map_has_In {V : Type} (k : string) (m : Map V) :
  map_has k m = true <-> In k (map_keys m).
Proof.
  unfold map_has, map_keys. induction m as [| [k' v] m IH]; simpl.
  - split; [discriminate | intros []].
  - destruct (String.eqb k k') eqn:E.
    + apply String.eqb_eq in E. subst. intuition.
    + apply String.eqb_neq in E. rewrite IH. intuition congruence.
Qed.

Lemma map_get_In {V : Type} (k : string) (v : V) (m : Map V) :
  map_get k m = Some v -> In (k, v) m.
Proof.
  induction m as [| [k' v'] m IH]; simpl; [discriminate |].
  destruct (String.eqb k k') eqn:E.
  - apply String.eqb_eq in E. intros [= <-]. subst. now left.
  - intros H. right. auto.
Qed.

Lemma map_keys_set {V : Type} (k : string) (v : V) (m : Map V) :
  map_keys (map_set k v m) = if map_has k m then map_keys m else map_keys m ++ [k].
Proof.
  unfold map_keys, map_has. induction m as [| [k' v'] m IH]; simpl; [reflexivity |].
  destruct (String.eqb k k') eqn:E; simpl.
  - apply String.eqb_eq in E. now subst.
  - rewrite IH. destruct (map_get k m); reflexivity.
Qed.

Lemma map_keys_set_NoDup {V : Type} (k : string) (v : V) (m : Map V) :
  NoDup (map_keys m) -> NoDup (map_keys (map_set k v m)).
Proof.
  intros H. rewrite map_keys_set. destruct (map_has k m) eqn:E; [assumption |].
  assert (Hk : ~ In k (map_keys m)).
  { rewrite <- map_has_In. congruence. }
  apply NoDup_app; [assumption | repeat constructor; intros [] |].
  intros y Hy [<- | []]. contradiction.
Qed.

Lemma map_get_NoDup_In {V : Type} (k : string) (v : V) (m : Map V) :
  NoDup (map_keys m) -> In (k, v) m -> map_get k m = Some v.
Proof.
  unfold map_keys. induction m as [| [k' v'] m IH]; simpl; [intros _ [] |].
  intros Hnd [Heq | Hin].
  - injection Heq as -> ->. now rewrite String.eqb_refl.
  - inversion Hnd as [| ? ? Hnot Hnd']; subst.
    destruct (String.eqb k k') eqn:E.
    + apply String.eqb_eq in E. subst. exfalso. apply Hnot.
      apply in_map_iff. exists (k', v). auto.
    + auto.
Qed.

(** ** Edge weights *)

Lemma similarity_unfold (t1 t2 : ITopicData) :
  calculateContentSimilarity t1 t2 =
  if (set_size (significant_words t1) =? 0)%nat || (set_size (significant_words t2) =? 0)%nat
  then 0
  else inject_Z (Z.of_nat (common_count t1 t2)) / inject_Z (Z.of_nat (union_count t1 t2)).
Proof. reflexivity. Qed.

Lemma common_count_sym (t1 t2 : ITopicData) : common_count t1 t2 = common_count t2 t1.
Proof.
  unfold common_count, set_size.
  apply NoDup_same_length; try apply set_of_list_NoDup.
  intros x. rewrite !set_of_list_In, !filter_In, !set_has_In. tauto.
Qed.

Lemma union_count_sym (t1 t2 : ITopicData) : union_count t1 t2 = union_count t2 t1.
Proof.
  unfold union_count, set_size.
  apply NoDup_same_length; try apply set_of_list_NoDup.
  intros x. rewrite !set_of_list_In, !in_app_iff. tauto.
Qed.

Lemma common_le_union (t1 t2 : ITopicData) : (common_count t1 t2 <= union_count t1 t2)%nat.
Proof.
  unfold common_count, union_count, set_size.
  apply NoDup_incl_length; [apply set_of_list_NoDup |].
  intros x. rewrite !set_of_list_In, filter_In, in_app_iff. tauto.
Qed.

Lemma extractWords_NoDup (text : string) : NoDup (extractWords text).
Proof. apply set_of_list_NoDup. Qed.

Lemma union_count_ge (t1 t2 : ITopicData) :
  (set_size (significant_words t1) <= union_count t1 t2)%nat.
Proof.
  unfold union_count, set_size.
  apply NoDup_incl_length; [apply extractWords_NoDup |].
  intros x Hx. rewrite set_of_list_In, in_app_iff. now left.
Qed.

Lemma similarity_sym (t1 t2 : ITopicData) :
  calculateContentSimilarity t1 t2 = calculateContentSimilarity t2 t1.
Proof.
  rewrite !similarity_unfold, orb_comm.
  now rewrite (common_count_sym t1 t2), (union_count_sym t1 t2).
Qed.

Lemma ratio_range (i u : nat) :
  (i <= u)%nat -> (0 < u)%nat ->
  0 <= inject_Z (Z.of_nat i) / inject_Z (Z.of_nat u) <= 1.
Proof.
  intros Hiu Hu.
  assert (Hu' : 0 < inject_Z (Z.of_nat u)).
  { replace 0 with (inject_Z 0) by reflexivity. rewrite <- Zlt_Qlt. lia. }
  split.
  - apply Qle_shift_div_l; [assumption |]. rewrite Qmult_0_l.
    replace 0 with (inject_Z 0) by reflexivity. rewrite <- Zle_Qle. lia.
  - apply Qle_shift_div_r; [assumption |]. rewrite Qmult_1_l.
    rewrite <- Zle_Qle. lia.
Qed.

Lemma similarity_range (t1 t2 : ITopicData) :
  0 <= calculateContentSimilarity t1 t2 <= 1.
Proof.
  rewrite similarity_unfold.
  destruct (set_size (significant_words t1) =? 0)%nat eqn:E1; simpl.
  { split; [apply Qle_refl | discriminate]. }
  destruct (set_size (significant_words t2) =? 0)%nat eqn:E2; simpl.
  { split; [apply Qle_refl | discriminate]. }
  apply Nat.eqb_neq in E1.
  apply ratio_range; [apply common_le_union |].
  pose proof (union_count_ge t1 t2). lia.
Qed.

Lemma edge_weight_unfold (a b : string) (ta tb : ITopicData) :
  edge_weight a b ta tb = 1 + (1 - calculateContentSimilarity ta tb) * (1 # 2).
Proof.
  unfold edge_weight.
  destruct (opt_eqb (parentTopicId ta) (Some b) || opt_eqb (parentTopicId tb) (Some a));
    reflexivity.
Qed.

Lemma edge_weight_sym (a b : string) (ta tb : ITopicData) :
  edge_weight a b ta tb = edge_weight b a tb ta.
Proof. rewrite !edge_weight_unfold. now rewrite similarity_sym. Qed.

Lemma edge_weight_range (a b : string) (ta tb : ITopicData) :
  1 <= edge_weight a b ta tb <= 3 # 2.
Proof.
  rewrite edge_weight_unfold.
  pose proof (similarity_range ta tb) as [H0 H1].
  split; lra.
Qed.

(** C5. For two topics [a] and [b] of the graph, [getEdgeWeight] returns the
    same weight for [(a, b)] and for [(b, a)], and that weight lies between
    1.0 and 1.5. *)
Theorem getEdgeWeight_range_symmetric (g : Graph) (a b : string) (ta tb : ITopicData) :
  map_get a (topics g) = Some ta ->
  map_get b (topics g) = Some tb ->
  exists w : Q,
    getEdgeWeight g a b = Ok w /\ getEdgeWeight g b a = Ok w /\ 1 <= w /\ w <= 3 # 2.
Proof.
  intros Ha Hb. exists (edge_weight a b ta tb).
  unfold getEdgeWeight. rewrite Ha, Hb.
  repeat split.
  - now rewrite edge_weight_sym.
  - apply edge_weight_range.
  - apply edge_weight_range.
Qed.

Lemma getEdgeWeight_range_symmetric_witness :
  exists w : Q,
    getEdgeWeight (buildGraph sampleTopics) "root" "child1" = Ok w /\
    getEdgeWeight (buildGraph sampleTopics) "child1" "root" = Ok w /\
    1 <= w /\ w <= 3 # 2.
Proof.
  apply (getEdgeWeight_range_symmetric (buildGraph sampleTopics) "root" "child1"
           (mkTopic "root" "Root Topic" "Root content" None)
           (mkTopic "child1" "Child 1" "Child 1 content" (Some "root")));
    reflexivity.
Defined.


Lemma ratio_same (n : nat) :
  (0 < n)%nat -> inject_Z (Z.of_nat n) / inject_Z (Z.of_nat n) == 1.
Proof.
  intros Hn. apply Qmult_inv_r.
  replace 0 with (inject_Z 0) by reflexivity. rewrite inject_Z_injective. lia.
Qed.

Lemma similarity_same_words (t1 t2 : ITopicData) :
  significant_words t1 <> [] ->
  (forall w, In w (significant_words t1) <-> In w (significant_words t2)) ->
  calculateContentSimilarity t1 t2 == 1.
Proof.
  intros Hne Hsame. rewrite similarity_unfold.
  assert (H12 : set_size (significant_words t1) = set_size (significant_words t2)).
  { apply NoDup_same_length; try apply extractWords_NoDup. assumption. }
  assert (H1 : set_size (significant_words t1) <> 0%nat).
  { unfold set_size. destruct (significant_words t1); [congruence | discriminate]. }
  rewrite <- H12. rewrite (proj2 (Nat.eqb_neq _ _) H1). simpl.
  assert (Hcu : common_count t1 t2 = union_count t1 t2).
  { unfold common_count, union_count, set_size.
    apply NoDup_same_length; try apply set_of_list_NoDup.
    intros x. rewrite !set_of_list_In, filter_In, in_app_iff, set_has_In.
    specialize (Hsame x). tauto. }
  rewrite Hcu. apply ratio_same.
  pose proof (union_count_ge t1 t2). lia.
Qed.

Lemma similarity_disjoint_words (t1 t2 : ITopicData) :
  (forall w, In w (significant_words t1) -> ~ In w (significant_words t2)) ->
  calculateContentSimilarity t1 t2 == 0.
Proof.
  intros Hdis. rewrite similarity_unfold.
  destruct (_ || _); [reflexivity |].
  assert (Hc : common_count t1 t2 = 0%nat).
  { unfold common_count, set_size.
    destruct (set_of_list _) as [| x l] eqn:E; [reflexivity |].
    assert (Hx : In x (x :: l)) by now left.
    rewrite <- E, set_of_list_In, filter_In, set_has_In in Hx.
    destruct Hx as [Hx1 Hx2]. now apply Hdis in Hx1. }
  rewrite Hc. reflexivity.
Qed.

(** C6, as the code has it.  The significant words are those of the name
    followed by the content.  When the two records have the same, non-empty,
    set of significant words the weight is 1.0; when they have no significant
    word in common the weight is 1.5. *)
Theorem getEdgeWeight_extremes (g : Graph) (a b : string) (ta tb : ITopicData) :
  map_get a (topics g) = Some ta ->
  map_get b (topics g) = Some tb ->
  exists w : Q,
    getEdgeWeight g a b = Ok w /\
    (significant_words ta <> [] ->
     (forall x, In x (significant_words ta) <-> In x (significant_words tb)) ->
     w == 1) /\
    ((forall x, In x (significant_words ta) -> ~ In x (significant_words tb)) ->
     w == 3 # 2).
Proof.
  intros Ha Hb. exists (edge_weight a b ta tb).
  unfold getEdgeWeight. rewrite Ha, Hb. split; [reflexivity |].
  rewrite edge_weight_unfold. split.
  - intros Hne Hsame. rewrite (similarity_same_words ta tb Hne Hsame). reflexivity.
  - intros Hdis. rewrite (similarity_disjoint_words ta tb Hdis). reflexivity.
Qed.

Lemma getEdgeWeight_extremes_witness :
  (exists w, getEdgeWeight (buildGraph vocabularyTopics) "g1" "g2" = Ok w /\ w == 1) /\
  (exists w, getEdgeWeight (buildGraph vocabularyTopics) "g1" "g3" = Ok w /\ w == 3 # 2).
Proof.
  split.
  - destruct (getEdgeWeight_extremes (buildGraph vocabularyTopics) "g1" "g2"
                graphTopic theoryTopic eq_refl eq_refl) as [w [Hw [Hsame _]]].
    exists w. split; [exact Hw |].
    apply Hsame; [vm_compute; discriminate |].
    intros x. vm_compute. tauto.
  - destruct (getEdgeWeight_extremes (buildGraph vocabularyTopics) "g1" "g3"
                graphTopic cookingTopic eq_refl eq_refl) as [w [Hw [_ Hdis]]].
    exists w. split; [exact Hw |].
    apply Hdis. intros x. vm_compute.
    intros [<- | [<- | []]] [H | [H | [H | []]]]; discriminate H.
Defined.

(** C6 as stated fails: two records whose contents have the same significant
    words get the weight 1.25 when their names differ, and two records whose
    contents have no significant word in common get a weight below 1.5 when
    their names agree. *)
Lemma getEdgeWeight_content_only_counterexample :
  (extractWords (content alphaTopic) = extractWords (content betaTopic) /\
   extractWords (content alphaTopic) <> [] /\
   getEdgeWeight (buildGraph namedTopics) "a" "b" = Ok (10 # 8) /\
   ~ (10 # 8 == 1)) /\
  ((forall x, In x (extractWords (content fooTopic)) ->
              ~ In x (extractWords (content barTopic))) /\
   getEdgeWeight (buildGraph namedTopics) "c" "d" = Ok (8 # 6) /\
   ~ (8 # 6 == 3 # 2)).
Proof.
  split.
  - repeat split; try reflexivity; vm_compute; discriminate.
  - repeat split; try reflexivity.
    + intros x. vm_compute. intros [<- | []] [H | []]. discriminate H.
    + vm_compute. discriminate.
Qed.

(** ** Unknown ids *)

(** C7. When one of the ids given to a query is not a key of the graph,
    [findShortestPath] and [findClosestCommonAncestor] return null and
    [findAllPaths] and [findTopicsWithinDistance] return the empty list,
    whatever the other id is; no query throws. *)
Theorem unknown_id_yields_nothing (fuel : nat) (g : Graph) (unknown other : string)
  (depthBound : Z) (maxDistance : Q) :
  map_has unknown (topics g) = false ->
  findShortestPath fuel g unknown other = Ok None /\
  findShortestPath fuel g other unknown = Ok None /\
  findAllPaths fuel g unknown other depthBound = Ok [] /\
  findAllPaths fuel g other unknown depthBound = Ok [] /\
  findClosestCommonAncestor fuel g unknown other = Ok None /\
  findClosestCommonAncestor fuel g other unknown = Ok None /\
  findTopicsWithinDistance fuel g unknown maxDistance = Ok [].
Proof.
  intros H.
  unfold findShortestPath, findAllPaths, findClosestCommonAncestor,
    findTopicsWithinDistance.
  rewrite H. simpl. rewrite !orb_true_r. repeat split; reflexivity.
Qed.

Lemma unknown_id_yields_nothing_witness :
  findShortestPath 0 (buildGraph sampleTopics) "non-existent" "root" = Ok None /\
  findShortestPath 0 (buildGraph sampleTopics) "root" "non-existent" = Ok None /\
  findAllPaths 0 (buildGraph sampleTopics) "non-existent" "root" 10 = Ok [] /\
  findAllPaths 0 (buildGraph sampleTopics) "root" "non-existent" 10 = Ok [] /\
  findClosestCommonAncestor 0 (buildGraph sampleTopics) "non-existent" "root" = Ok None /\
  findClosestCommonAncestor 0 (buildGraph sampleTopics) "root" "non-existent" = Ok None /\
  findTopicsWithinDistance 0 (buildGraph sampleTopics) "non-existent" 1 = Ok [].
Proof.
  apply (unknown_id_yields_nothing 0 (buildGraph sampleTopics) "non-existent" "root" 10 1).
  reflexivity.
Defined.

(** ** The trivial path *)

(** C9. For a topic [x] of the graph and a depth bound that is not negative,
    [findAllPaths] from [x] to [x] returns exactly one result, the path [[x]]
    of distance 0. *)
Theorem findAllPaths_same_topic (fuel : nat) (g : Graph) (x : string) (depthBound : Z) :
  map_has x (topics g) = true ->
  (0 <= depthBound)%Z ->
  findAllPaths (S fuel) g x x depthBound =
  Ok [mkShortestPath [x] (Finite 0) [map_get x (topics g)]].
Proof.
  intros Hx Hd. unfold findAllPaths. rewrite Hx. simpl.
  destruct (depthBound <? 0)%Z eqn:E; [apply Z.ltb_lt in E; lia |].
  rewrite String.eqb_refl. reflexivity.
Qed.

Lemma findAllPaths_same_topic_witness :
  findAllPaths 1 (buildGraph sampleTopics) "root" "root" 0 =
  Ok [mkShortestPath ["root"] (Finite 0)
        [Some (mkTopic "root" "Root Topic" "Root content" None)]].
Proof.
  apply (findAllPaths_same_topic 0 (buildGraph sampleTopics) "root" 0).
  - reflexivity.
  - lia.
Defined.

(** ** Statistics *)

(** C10. On the graph of the empty topic list [getGraphStats] returns no
    node, no edge and no root, and its maximum depth is negative infinity,
    not 0. *)
Theorem getGraphStats_empty (fuel : nat) :
  exists stats : GraphStats,
    getGraphStats fuel (buildGraph []) = Ok stats /\
    nodeCount stats = 0%nat /\
    edgeCount stats == 0 /\
    rootNodes stats = [] /\
    maxDepth stats = NegInfinity /\
    maxDepth stats <> Finite 0.
Proof.
  eexists. split; [reflexivity |]. simpl.
  repeat split; try reflexivity. discriminate.
Qed.

(** ** The graph built from a topic list *)

Lemma fold_left_invariant {A B : Type} (f : A -> B -> A) (P : A -> Prop) (l : list B) :
  forall init : A,
    P init ->
    (forall acc x, In x l -> P acc -> P (f acc x)) ->
    P (fold_left f l init).
Proof.
  induction l as [| x l IH]; intros init Hinit Hstep; simpl; [assumption |].
  apply IH.
  - apply Hstep; [now left | assumption].
  - intros acc y Hy. apply Hstep. now right.
Qed.

(** What the first loop of [buildGraph] establishes. *)
Record init_ok (g : Graph) : Prop := {
  init_nodup : NoDup (map_keys (topics g));
  init_keys : map_keys (adjacencyList g) = map_keys (topics g);
  init_ids : forall k t, map_get k (topics g) = Some t -> id t = k;
  init_empty : forall k, neighbors g k = []
}.

Lemma buildGraph_init_ok (ts : list ITopicData) :
  init_ok (fold_left buildGraph_init ts empty_graph).
Proof.
  apply fold_left_invariant.
  - split; simpl; try reflexivity; try constructor. discriminate.
  - intros g t _ [Hnd Hk Hid Hem]. split; simpl.
    + now apply map_keys_set_NoDup.
    + rewrite !map_keys_set, Hk.
      replace (map_has (id t) (adjacencyList g)) with (map_has (id t) (topics g));
        [reflexivity |].
      apply eq_true_iff_eq. now rewrite !map_has_In, Hk.
    + intros k t'. rewrite map_get_set. destruct (String.eqb k (id t)) eqn:E.
      * apply String.eqb_eq in E. now intros [= <-].
      * apply Hid.
    + intros k. unfold neighbors. simpl. rewrite map_get_set.
      destruct (String.eqb k (id t)); [reflexivity | apply Hem].
Qed.

Lemma buildGraph_init_has (ts : list ITopicData) (g : Graph) (k : string) :
  map_has k (topics (fold_left buildGraph_init ts g)) =
  map_has k (topics g) || existsb (fun t => String.eqb k (id t)) ts.
Proof.
  revert g. induction ts as [| t ts IH]; intros g; simpl.
  - now rewrite orb_false_r.
  - rewrite IH. simpl. rewrite map_has_set.
    destruct (map_has k (topics g)), (String.eqb k (id t)); reflexivity.
Qed.

Lemma adj_add_keys (k x : string) (adj : Map StrSet) :
  map_keys (adj_add k x adj) = map_keys adj.
Proof.
  unfold adj_add. destruct (map_get k adj) eqn:E; [| reflexivity].
  rewrite map_keys_set. unfold map_has. now rewrite E.
Qed.

Lemma adj_add_get (k x u : string) (adj : Map StrSet) :
  map_get u (adj_add k x adj) =
  match map_get u adj with
  | Some s => Some (if String.eqb u k then set_add x s else s)
  | None => None
  end.
Proof.
  unfold adj_add. destruct (map_get k adj) as [s |] eqn:E.
  - rewrite map_get_set. destruct (String.eqb u k) eqn:Euk.
    + apply String.eqb_eq in Euk. subst. now rewrite E.
    + destruct (map_get u adj); reflexivity.
  - destruct (String.eqb u k) eqn:Euk.
    + apply String.eqb_eq in Euk. subst. now rewrite E.
    + destruct (map_get u adj); reflexivity.
Qed.

Lemma buildGraph_link_topics (g : Graph) (t : ITopicData) :
  topics (buildGraph_link g t) = topics g.
Proof.
  unfold buildGraph_link. destruct (parentTopicId t); [| reflexivity].
  destruct (_ && _); reflexivity.
Qed.

Lemma buildGraph_link_keys (g : Graph) (t : ITopicData) :
  map_keys (adjacencyList (buildGraph_link g t)) = map_keys (adjacencyList g).
Proof.
  unfold buildGraph_link. destruct (parentTopicId t); [| reflexivity].
  destruct (_ && _); [| reflexivity]. simpl. now rewrite !adj_add_keys.
Qed.

(** The neighbours of [u] after the record [t] has been linked. *)
Lemma buildGraph_link_neighbors (g : Graph) (t : ITopicData) (u v : string) :
  In v (neighbors (buildGraph_link g t) u) ->
  In v (neighbors g u) \/
  (exists p, parentTopicId t = Some p /\ p <> "" /\ map_has p (topics g) = true /\
             ((u = p /\ v = id t) \/ (u = id t /\ v = p))).
Proof.
  unfold buildGraph_link. destruct (parentTopicId t) as [p |] eqn:Ep; [| now left].
  destruct (truthy (Some p) && map_has p (topics g)) eqn:Ec; [| now left].
  apply andb_true_iff in Ec. destruct Ec as [Ht Hp].
  simpl in Ht. apply negb_true_iff, String.eqb_neq in Ht.
  unfold neighbors. simpl. rewrite !adj_add_get.
  destruct (map_get u (adjacencyList g)) as [s |]; [| intros []].
  destruct (String.eqb u p) eqn:E1, (String.eqb u (id t)) eqn:E2;
    rewrite ?set_add_In; try apply String.eqb_eq in E1; try apply String.eqb_eq in E2;
    intros H; intuition eauto 10.
Qed.

(** The facts on a built graph that the queries rely on. *)
Record well_formed (g : Graph) : Prop := {
  wf_nodup : NoDup (map_keys (topics g));
  wf_keys : map_keys (adjacencyList g) = map_keys (topics g);
  wf_ids : forall k t, map_get k (topics g) = Some t -> id t = k;
  wf_neighbors : forall u v, In v (neighbors g u) ->
                             map_has u (topics g) = true /\ map_has v (topics g) = true
}.

Lemma buildGraph_topics (ts : list ITopicData) :
  topics (buildGraph ts) = topics (fold_left buildGraph_init ts empty_graph).
Proof.
  unfold buildGraph. apply fold_left_invariant; [reflexivity |].
  intros g t _ <-. apply buildGraph_link_topics.
Qed.

Lemma buildGraph_has (ts : list ITopicData) (k : string) :
  map_has k (topics (buildGraph ts)) = true <-> exists t, In t ts /\ id t = k.
Proof.
  rewrite buildGraph_topics, buildGraph_init_has. simpl. rewrite existsb_exists.
  split; intros [t [Hin Ht]]; exists t; split; try assumption.
  - apply String.eqb_eq in Ht. now symmetry.
  - subst. apply String.eqb_refl.
Qed.

Theorem buildGraph_well_formed (ts : list ITopicData) : well_formed (buildGraph ts).
Proof.
  pose proof (buildGraph_init_ok ts) as [Hnd Hk Hid Hem].
  pose proof (buildGraph_topics ts) as Htop.
  split.
  - now rewrite Htop.
  - rewrite Htop, <- Hk. unfold buildGraph. apply fold_left_invariant; [reflexivity |].
    intros g t _ <-. apply buildGraph_link_keys.
  - now rewrite Htop.
  - rewrite Htop.
    set (g0 := fold_left buildGraph_init ts empty_graph) in *.
    unfold buildGraph. fold g0.
    apply (fold_left_invariant buildGraph_link
             (fun g => topics g = topics g0 /\
                       forall u v, In v (neighbors g u) ->
                                   map_has u (topics g0) = true /\
                                   map_has v (topics g0) = true)).
    + split; [reflexivity |]. intros u v. now rewrite Hem.
    + intros g t Hin [Hg Hn]. split; [now rewrite buildGraph_link_topics |].
      intros u v Huv. apply buildGraph_link_neighbors in Huv.
      destruct Huv as [Huv | [p [Hp [Hne [Hhas Hcase]]]]]; [now apply Hn |].
      rewrite Hg in Hhas.
      assert (Ht : map_has (id t) (topics g0) = true).
      { unfold g0. rewrite buildGraph_init_has. simpl. apply existsb_exists.
        exists t. split; [assumption | apply String.eqb_refl]. }
      destruct Hcase as [[-> ->] | [-> ->]]; split; assumption.
Qed.

(** ** Roots *)

Lemma getGraphStats_rootNodes (fuel : nat) (g : Graph) (stats : GraphStats) :
  getGraphStats fuel g = Ok stats ->
  rootNodes stats =
  map id (filter (fun topic => negb (truthy (parentTopicId topic))) (map_values (topics g))).
Proof.
  unfold getGraphStats.
  destruct (map_result (getTopicDepth fuel g) (map_keys (topics g))); simpl;
    try discriminate.
  now intros [= <-].
Qed.

Lemma root_filter_In (m : Map ITopicData) (k : string) :
  NoDup (map_keys m) ->
  (forall k' t, map_get k' m = Some t -> id t = k') ->
  In k (map id (filter (fun topic => negb (truthy (parentTopicId topic))) (map_values m))) <->
  exists t, map_get k m = Some t /\ truthy (parentTopicId t) = false.
Proof.
  intros Hnd Hid. rewrite in_map_iff. split.
  - intros [t [Hk Hin]]. apply filter_In in Hin. destruct Hin as [Hin Hroot].
    apply negb_true_iff in Hroot. unfold map_values in Hin. apply in_map_iff in Hin.
    destruct Hin as [[k' t'] [Heq Hin]]. simpl in Heq. subst t'.
    apply (map_get_NoDup_In _ _ _ Hnd) in Hin.
    exists t. split; [| assumption]. rewrite <- Hk. now rewrite (Hid _ _ Hin).
  - intros [t [Hget Hroot]]. exists t. split; [now apply Hid in Hget |].
    apply filter_In. split; [| now rewrite Hroot].
    unfold map_values. apply in_map_iff. exists (k, t). split; [reflexivity |].
    now apply map_get_In.
Qed.

Lemma root_filter_NoDup (m : Map ITopicData) :
  NoDup (map_keys m) ->
  (forall k t, map_get k m = Some t -> id t = k) ->
  NoDup (map id (filter (fun topic => negb (truthy (parentTopicId topic))) (map_values m))).
Proof.
  intros Hnd Hid.
  assert (Hall : forall k t, In (k, t) m -> id t = k).
  { intros k t Hin. apply Hid. now apply map_get_NoDup_In. }
  clear Hid. unfold map_keys, map_values in *.
  induction m as [| [k t] m IH]; simpl; [constructor |].
  inversion Hnd as [| ? ? Hnot Hnd']; subst.
  assert (Hrest : forall k' t', In (k', t') m -> id t' = k').
  { intros k' t' Hin. apply Hall. now right. }
  destruct (negb (truthy (parentTopicId t))); simpl; [| now apply IH].
  constructor; [| now apply IH].
  intros Hin. apply Hnot. apply in_map_iff in Hin. destruct Hin as [t' [Heq Hin]].
  apply filter_In in Hin. destruct Hin as [Hin _]. apply in_map_iff in Hin.
  destruct Hin as [[k' t''] [Heq' Hin]]. simpl in Heq'. subst t''.
  apply in_map_iff. exists (k', t'). split; [| assumption]. simpl.
  rewrite <- (Hrest _ _ Hin), Heq. apply Hall. now left.
Qed.

(** C3 as stated fails: the parent of topic [a] is in no record of the list,
    and [a] is not among the roots. *)
Lemma getGraphStats_dangling_parent_counterexample :
  exists t stats,
    map_get "a" (topics (buildGraph danglingTopics)) = Some t /\
    parentTopicId t = Some "ghost" /\
    map_has "ghost" (topics (buildGraph danglingTopics)) = false /\
    getGraphStats 2 (buildGraph danglingTopics) = Ok stats /\
    ~ In "a" (rootNodes stats).
Proof.
  eexists. eexists. repeat split; try reflexivity. simpl. tauto.
Qed.

(** ** Parent cycles *)

Lemma circular_ancestors (fuel : nat) :
  forall acc,
    ancestors_loop fuel (buildGraph circularTopics) (Some "topic1") acc = OutOfFuel /\
    ancestors_loop fuel (buildGraph circularTopics) (Some "topic2") acc = OutOfFuel.
Proof.
  induction fuel as [| fuel IH]; intros acc; [split; reflexivity |].
  split.
  - change (ancestors_loop fuel (buildGraph circularTopics) (Some "topic2")
              (acc ++ ["topic1"]) = OutOfFuel). apply IH.
  - change (ancestors_loop fuel (buildGraph circularTopics) (Some "topic1")
              (acc ++ ["topic2"]) = OutOfFuel). apply IH.
Qed.

Lemma circular_depth (fuel : nat) :
  forall depth,
    depth_loop fuel (buildGraph circularTopics) (Some "topic1") depth = OutOfFuel /\
    depth_loop fuel (buildGraph circularTopics) (Some "topic2") depth = OutOfFuel.
Proof.
  induction fuel as [| fuel IH]; intros depth; [split; reflexivity |].
  split.
  - change (depth_loop fuel (buildGraph circularTopics) (Some "topic2") (S depth)
            = OutOfFuel). apply IH.
  - change (depth_loop fuel (buildGraph circularTopics) (Some "topic1") (S depth)
            = OutOfFuel). apply IH.
Qed.

(** C2 fails on the code.  On the two topics that are each other's parent,
    the ancestor walk and the depth walk go round the cycle without end:
    whatever number of iterations is allowed, [getAncestors], [getTopicDepth],
    [findClosestCommonAncestor] and [getGraphStats] have not returned. *)
Theorem parent_cycle_never_returns (fuel : nat) :
  getAncestors fuel (buildGraph circularTopics) "topic1" = OutOfFuel /\
  getTopicDepth fuel (buildGraph circularTopics) "topic1" = OutOfFuel /\
  findClosestCommonAncestor fuel (buildGraph circularTopics) "topic1" "topic2" = OutOfFuel /\
  getGraphStats fuel (buildGraph circularTopics) = OutOfFuel.
Proof.
  pose proof (proj1 (circular_ancestors fuel [])) as Ha.
  pose proof (proj1 (circular_depth fuel 0%nat)) as Hd.
  repeat split; try assumption.
  - unfold findClosestCommonAncestor.
    change (map_has "topic1" (topics (buildGraph circularTopics))) with true.
    change (map_has "topic2" (topics (buildGraph circularTopics))) with true.
    simpl negb. simpl orb. cbv iota. unfold getAncestors in *. rewrite Ha. reflexivity.
  - unfold getGraphStats.
    change (map_keys (topics (buildGraph circularTopics))) with ["topic1"; "topic2"].
    unfold map_result at 1. unfold getTopicDepth in *. rewrite Hd. reflexivity.
Qed.

(** ** Sorting *)

Section StableSort.
Context {A : Type}.
Variable le : A -> A -> bool.
Variable R : A -> A -> Prop.
Variable P : A -> Prop.
Hypothesis le_sound : forall a b, P a -> P b -> le a b = true -> R a b.
Hypothesis le_total : forall a b, P a -> P b -> le a b = false -> R b a.
Hypothesis R_trans : forall a b c, R a b -> R b c -> R a c.

Lemma insert_sorted_In (x y : A) (l : list A) :
  In y (insert_sorted le x l) <-> y = x \/ In y l.
Proof.
  induction l as [| z l IH]; simpl; [intuition |].
  destruct (le x z); simpl; rewrite ?IH; intuition.
Qed.

Lemma stable_sort_In (y : A) (l : list A) : In y (stable_sort le l) <-> In y l.
Proof.
  induction l as [| x l IH]; simpl; [reflexivity |].
  rewrite insert_sorted_In, IH. intuition.
Qed.

Lemma stable_sort_Forall (Q0 : A -> Prop) (l : list A) :
  Forall Q0 l -> Forall Q0 (stable_sort le l).
Proof.
  rewrite !Forall_forall. intros H y Hy. apply H. now apply stable_sort_In.
Qed.

Lemma stable_sort_length (l : list A) : length (stable_sort le l) = length l.
Proof.
  induction l as [| x l IH]; simpl; [reflexivity |].
  rewrite <- IH. generalize (stable_sort le l). intros s.
  induction s as [| z s IHs]; simpl; [reflexivity |].
  destruct (le x z); simpl; [reflexivity | now rewrite IHs].
Qed.

Lemma insert_sorted_Permutation (x : A) (l : list A) :
  Permutation (insert_sorted le x l) (x :: l).
Proof.
  induction l as [| y l IH]; simpl; [reflexivity |].
  destruct (le x y); [reflexivity |].
  rewrite IH. apply perm_swap.
Qed.

Lemma stable_sort_Permutation (l : list A) : Permutation (stable_sort le l) l.
Proof.
  induction l as [| x l IH]; simpl; [reflexivity |].
  rewrite insert_sorted_Permutation. now constructor.
Qed.

Lemma insert_sorted_Sorted (x : A) (l : list A) :
  P x -> Forall P l -> Sorted R l -> Sorted R (insert_sorted le x l).
Proof.
  intros Hx Hl Hs. induction l as [| y l IH]; simpl.
  - repeat constructor.
  - inversion Hl as [| ? ? Hy Hl']; subst.
    inversion Hs as [| ? ? Hs' Hhd]; subst.
    destruct (le x y) eqn:E.
    + constructor; [assumption |]. constructor. now apply le_sound.
    + constructor; [now apply IH |].
      destruct l as [| z l]; simpl.
      * constructor. now apply le_total.
      * destruct (le x z); constructor.
        -- now apply le_total.
        -- now inversion Hhd.
Qed.

Lemma stable_sort_Sorted (l : list A) :
  Forall P l -> StronglySorted R (stable_sort le l).
Proof.
  intros Hl. apply Sorted_StronglySorted; [exact R_trans |].
  induction l as [| x l IH]; simpl; [constructor |].
  inversion Hl; subst.
  apply insert_sorted_Sorted; auto.
  now apply stable_sort_Forall.
Qed.
End StableSort.

(** ** All paths *)

Lemma removelast_snoc {A : Type} (l : list A) (x : A) : removelast (l ++ [x]) = l.
Proof. apply removelast_last. Qed.

Lemma last_default {A : Type} (x : A) (l : list A) (d d' : A) :
  last (x :: l) d = last (x :: l) d'.
Proof.
  revert x. induction l as [| y l IH]; intros x; [reflexivity |].
  change (last (y :: l) d = last (y :: l) d'). apply IH.
Qed.

(** A path recorded while [c] is visited below the current path [cp]. *)
Definition found_below (g : Graph) (endId : string) (depthBound : Z)
  (cp : list string) (c : string) (p : list string) : Prop :=
  exists tail,
    p = cp ++ c :: tail /\
    is_path g (c :: tail) /\
    last (c :: tail) c = endId /\
    NoDup p /\
    (Z.of_nat (length p) <= depthBound + 1)%Z.

Definition dfs_returns (R : list string -> Prop) (st : DfsState) (r : result DfsState)
  : Prop :=
  exists st', r = Ok st' /\
    currentPath st' = currentPath st /\
    dfs_visited st' = dfs_visited st /\
    exists new, allPaths st' = allPaths st ++ new /\ Forall R new.

Lemma for_each_unvisited_spec (visit : string -> DfsState -> result DfsState)
  (R : string -> list string -> Prop) (cp : list string) (vis : StrSet) (ns0 : list string) :
  (forall n s, In n ns0 -> currentPath s = cp -> dfs_visited s = vis -> ~ In n vis ->
               dfs_returns (R n) s (visit n s)) ->
  forall ns s,
    incl ns ns0 -> currentPath s = cp -> dfs_visited s = vis ->
    dfs_returns (fun p => exists n, In n ns0 /\ R n p) s (for_each_unvisited visit ns s).
Proof.
  intros Hvisit. induction ns as [| n ns IH]; intros s Hincl Hcp Hvis; simpl.
  - exists s. repeat split; try reflexivity. exists []. now rewrite app_nil_r.
  - assert (Hn : In n ns0) by (apply Hincl; now left).
    assert (Hns : incl ns ns0) by (intros x Hx; apply Hincl; now right).
    destruct (set_has n (dfs_visited s)) eqn:E; simpl.
    + now apply IH.
    + apply set_has_false in E. rewrite Hvis in E.
      destruct (Hvisit n s Hn Hcp Hvis E) as [s1 [-> [Hcp1 [Hvis1 [new1 [Hall1 Hnew1]]]]]].
      simpl.
      destruct (IH s1 Hns (eq_trans Hcp1 Hcp) (eq_trans Hvis1 Hvis))
        as [s2 [-> [Hcp2 [Hvis2 [new2 [Hall2 Hnew2]]]]]].
      exists s2. split; [reflexivity |]. split; [congruence |]. split; [congruence |].
      exists (new1 ++ new2). split; [now rewrite Hall2, Hall1, app_assoc |].
      apply Forall_app. split; [| assumption].
      eapply Forall_impl; [| exact Hnew1]. intros p Hp. now exists n.
Qed.

Lemma dfsAllPaths_spec (g : Graph) (endId : string) (depthBound : Z) (fuel : nat) :
  forall (c : string) (st : DfsState),
    (forall x, In x (dfs_visited st) <-> In x (currentPath st)) ->
    NoDup (currentPath st) ->
    ~ In c (currentPath st) ->
    (Z.to_nat (depthBound + 1 - Z.of_nat (length (currentPath st))) < fuel)%nat ->
    dfs_returns (found_below g endId depthBound (currentPath st) c) st
                (dfsAllPaths fuel g c endId depthBound st).
Proof.
  induction fuel as [| fuel IH]; intros c st Hvis Hnd Hc Hfuel; [lia |].
  simpl. destruct (depthBound <? Z.of_nat (length (currentPath st)))%Z eqn:Edepth.
  { exists st. repeat split; try reflexivity. exists []. now rewrite app_nil_r. }
  apply Z.ltb_ge in Edepth.
  set (pushed := currentPath st ++ [c]).
  assert (Hc' : ~ In c (dfs_visited st)) by now rewrite Hvis.
  assert (Hadd : set_add c (dfs_visited st) = dfs_visited st ++ [c]).
  { unfold set_add. now rewrite (proj2 (set_has_false _ _) Hc'). }
  assert (Hndp : NoDup pushed).
  { unfold pushed. apply NoDup_app; [assumption | repeat constructor; intros [] |].
    intros y Hy [<- | []]. contradiction. }
  assert (Hlen : length pushed = S (length (currentPath st))).
  { unfold pushed. rewrite length_app. simpl. lia. }
  destruct (String.eqb c endId) eqn:Eend.
  - apply String.eqb_eq in Eend. simpl.
    eexists. split; [reflexivity |]. simpl.
    split; [apply removelast_snoc |]. split; [now apply set_delete_add_fresh |].
    exists [pushed]. split; [reflexivity |]. repeat constructor.
    exists []. repeat split; auto. rewrite Hlen. lia.
  - pose proof (for_each_unvisited_spec
                  (fun n s => dfsAllPaths fuel g n endId depthBound s)
                  (fun n p => found_below g endId depthBound pushed n p)
                  pushed (set_add c (dfs_visited st)) (neighbors g c)) as Hloop.
    destruct (Hloop) with (ns := neighbors g c)
      (s := mkDfs pushed (set_add c (dfs_visited st)) (allPaths st))
      as [s2 [Hs2 [Hcp2 [Hvis2 [new [Hall Hnew]]]]]];
      try reflexivity; try apply incl_refl.
    { intros n s Hn Hcp Hv Hnot. rewrite <- Hcp. apply IH.
      - intros x. rewrite Hv, Hcp, set_add_In. unfold pushed. rewrite in_app_iff.
        simpl. rewrite Hvis. intuition.
      - now rewrite Hcp.
      - rewrite Hcp. intros Hin. apply Hnot. rewrite set_add_In. unfold pushed in Hin.
        apply in_app_iff in Hin. simpl in Hin. rewrite Hvis. intuition.
      - rewrite Hcp, Hlen. lia. }
    rewrite Hs2. simpl. simpl in Hcp2, Hvis2, Hall.
    eexists. split; [reflexivity |]. simpl.
    split; [rewrite Hcp2; apply removelast_snoc |].
    split; [rewrite Hvis2; now apply set_delete_add_fresh |].
    exists new. split; [assumption |].
    eapply Forall_impl; [| exact Hnew].
    intros p [n [Hn [tail [Hp [Hpath [Hlast [Hpnd Hplen]]]]]]].
    exists (n :: tail). unfold pushed in Hp. rewrite <- app_assoc in Hp.
    repeat split; auto.
    change (last (n :: tail) c = endId). now rewrite (last_default n tail c n).
Qed.

Lemma Qle_bool_false (a b : Q) : Qle_bool a b = false <-> b < a.
Proof.
  split; intros H.
  - apply Qnot_le_lt. intros Hle. apply Qle_bool_iff in Hle. congruence.
  - destruct (Qle_bool a b) eqn:E; [| reflexivity].
    apply Qle_bool_iff in E. apply Qle_not_lt in E. contradiction.
Qed.

Lemma Qltb_true (a b : Q) : Qltb a b = true <-> a < b.
Proof. unfold Qltb. rewrite negb_true_iff. apply Qle_bool_false. Qed.

Lemma Qltb_false (a b : Q) : Qltb a b = false <-> b <= a.
Proof. unfold Qltb. rewrite negb_false_iff. apply Qle_bool_iff. Qed.

Lemma num_leb_trans (a b c : number) :
  num_leb a b = true -> num_leb b c = true -> num_leb a c = true.
Proof.
  destruct a, b, c; simpl; try congruence.
  rewrite !Qle_bool_iff. apply Qle_trans.
Qed.

Lemma getEdgeWeight_ok (g : Graph) (a b : string) :
  map_has a (topics g) = true -> map_has b (topics g) = true ->
  getEdgeWeight g a b = Ok (weight g a b).
Proof.
  unfold weight, getEdgeWeight, map_has.
  destruct (map_get a (topics g)); [| discriminate].
  destruct (map_get b (topics g)); [reflexivity | discriminate].
Qed.

Lemma weight_range (g : Graph) (a b : string) :
  map_has a (topics g) = true -> map_has b (topics g) = true ->
  1 <= weight g a b <= 3 # 2.
Proof.
  unfold weight, getEdgeWeight, map_has.
  destruct (map_get a (topics g)); [| discriminate].
  destruct (map_get b (topics g)); [| discriminate].
  intros _ _. apply edge_weight_range.
Qed.

Lemma sum_edges_path (g : Graph) (p : list string) :
  well_formed g -> is_path g p ->
  forall acc, sum_edges g p acc = Ok (path_weight_from g p acc).
Proof.
  intros Hwf. induction p as [| a p IH]; intros Hp acc; [reflexivity |].
  destruct p as [| b p]; [reflexivity |].
  destruct Hp as [Hab Hp]. apply (wf_neighbors g Hwf) in Hab. destruct Hab as [Ha Hb].
  change (bind (getEdgeWeight g a b) (fun w => sum_edges g (b :: p) (acc + w)) =
          Ok (path_weight_from g (b :: p) (acc + weight g a b))).
  rewrite (getEdgeWeight_ok g a b Ha Hb). simpl bind. now apply IH.
Qed.

Lemma calculatePathDistance_path (g : Graph) (p : list string) :
  well_formed g -> is_path g p -> calculatePathDistance g p = Ok (path_weight g p).
Proof. intros Hwf Hp. now apply sum_edges_path. Qed.

Lemma map_result_Forall {A B : Type} (f : A -> result B) (Q0 : B -> Prop) (l : list A) :
  Forall (fun x => exists y, f x = Ok y /\ Q0 y) l ->
  exists ys, map_result f l = Ok ys /\ Forall Q0 ys.
Proof.
  induction 1 as [| x l [y [Hy HQ]] _ [ys [Hys HQs]]]; simpl.
  - exists []. split; [reflexivity | constructor].
  - rewrite Hy, Hys. simpl. exists (y :: ys). split; [reflexivity | now constructor].
Qed.

(** C8. For two topics of a built graph and a depth bound, [findAllPaths]
    returns, given enough fuel, a list in which no path repeats a node, no
    path has more hops than the bound, every path leads from the start to the
    end along adjacency edges and carries as distance the sum of the weights
    of its own edges, and the list is in ascending order of distance. *)
Theorem findAllPaths_simple_bounded_sorted (ts : list ITopicData) (startId endId : string)
  (depthBound : Z) (fuel : nat) :
  map_has startId (topics (buildGraph ts)) = true ->
  map_has endId (topics (buildGraph ts)) = true ->
  (Z.to_nat (depthBound + 1) < fuel)%nat ->
  exists results,
    findAllPaths fuel (buildGraph ts) startId endId depthBound = Ok results /\
    Forall (simple_bounded (buildGraph ts) startId endId depthBound) results /\
    StronglySorted distance_le results.
Proof.
  intros Hs He Hfuel. pose proof (buildGraph_well_formed ts) as Hwf.
  set (g := buildGraph ts) in *.
  unfold findAllPaths. rewrite Hs, He. simpl.
  destruct (dfsAllPaths_spec g endId depthBound fuel startId (mkDfs [] [] []))
    as [st [Hst [_ [_ [new [Hall Hnew]]]]]]; simpl; try tauto; try constructor.
  { rewrite Z.sub_0_r. exact Hfuel. }
  rewrite Hst. simpl in *. subst new.
  destruct (map_result_Forall
              (fun p => d <- calculatePathDistance g p ;;
                        Ok (mkShortestPath p (Finite d) (hydrate g p)))
              (simple_bounded g startId endId depthBound) (allPaths st))
    as [rs [Hrs Hgood]].
  { eapply Forall_impl; [| exact Hnew].
    intros p [tail [Hp [Hpath [Hlast [Hnd Hlen]]]]]. simpl in Hp. subst p.
    rewrite (calculatePathDistance_path g _ Hwf Hpath). simpl.
    eexists. split; [reflexivity |]. unfold simple_bounded, hops. simpl.
    repeat split; auto.
    - simpl in Hlen. lia.
    - now apply calculatePathDistance_path. }
  rewrite Hrs. simpl. eexists. split; [reflexivity |]. split.
  - now apply stable_sort_Forall.
  - apply stable_sort_Sorted with (P := fun r => exists d, distance r = Finite d).
    + intros a b [da Ha] [db Hb]. unfold path_le, distance_le. rewrite Ha, Hb. simpl.
      rewrite !Qle_bool_iff. lra.
    + intros a b [da Ha] [db Hb]. unfold path_le, distance_le. rewrite Ha, Hb. simpl.
      rewrite Qle_bool_false, Qle_bool_iff. lra.
    + intros a b c. apply num_leb_trans.
    + eapply Forall_impl; [| exact Hgood].
      intros r [_ [_ [_ [_ Hd]]]]. eauto.
Qed.

Lemma findAllPaths_simple_bounded_sorted_witness :
  exists results,
    findAllPaths 12 (buildGraph sampleTopics) "grandchild1" "grandchild2" 10 = Ok results /\
    Forall (simple_bounded (buildGraph sampleTopics) "grandchild1" "grandchild2" 10) results /\
    StronglySorted distance_le results.
Proof.
  apply (findAllPaths_simple_bounded_sorted sampleTopics "grandchild1" "grandchild2" 10 12).
  - reflexivity.
  - reflexivity.
  - vm_compute. lia.
Defined.

(** ** Paths and their weights *)

Lemma weight_nonneg (g : Graph) (a b : string) : 0 <= weight g a b.
Proof.
  unfold weight, getEdgeWeight.
  destruct (map_get a (topics g)); [| apply Qle_refl].
  destruct (map_get b (topics g)); [| apply Qle_refl].
  pose proof (edge_weight_range a b i i0) as [H _]. lra.
Qed.

Lemma is_path_snoc (g : Graph) (p : list string) (u x : string) :
  is_path g (p ++ [u]) -> In x (neighbors g u) -> is_path g ((p ++ [u]) ++ [x]).
Proof.
  intros Hp Hx. induction p as [| a p IH]; simpl.
  - auto.
  - destruct p as [| b p]; simpl in *.
    + destruct Hp as [Hau _]. auto.
    + destruct Hp as [Hab Hp]. split; [assumption |]. now apply IH.
Qed.

Lemma is_path_snoc_inv (g : Graph) (p : list string) (u x : string) :
  is_path g ((p ++ [u]) ++ [x]) -> is_path g (p ++ [u]) /\ In x (neighbors g u).
Proof.
  induction p as [| a p IH]; simpl.
  - tauto.
  - destruct p as [| b p]; simpl in *.
    + intros [Hau [Hux _]]. tauto.
    + intros [Hab Hp]. apply IH in Hp. tauto.
Qed.

Lemma path_weight_from_snoc (g : Graph) (p : list string) (u x : string) :
  forall acc,
    path_weight_from g ((p ++ [u]) ++ [x]) acc =
    path_weight_from g (p ++ [u]) acc + weight g u x.
Proof.
  induction p as [| a p IH]; intros acc; simpl.
  - reflexivity.
  - destruct p as [| b p]; simpl in *.
    + reflexivity.
    + apply IH.
Qed.

Lemma path_weight_snoc (g : Graph) (p : list string) (u x : string) :
  path_weight g ((p ++ [u]) ++ [x]) = path_weight g (p ++ [u]) + weight g u x.
Proof. apply path_weight_from_snoc. Qed.

Lemma hd_error_snoc {A : Type} (p : list A) (u x : A) :
  hd_error ((p ++ [u]) ++ [x]) = hd_error (p ++ [u]).
Proof. destruct p; reflexivity. Qed.

Lemma path_from_to_single (g : Graph) (a : string) : path_from_to g a a [a].
Proof. repeat split. Qed.

Lemma path_from_to_snoc (g : Graph) (a u x : string) (p : list string) :
  path_from_to g a u p -> In x (neighbors g u) -> path_from_to g a x (p ++ [x]).
Proof.
  intros [Hhd [Hlast Hp]] Hx.
  destruct (exists_last (l := p)) as [p' [u' ->]].
  { intros ->. discriminate. }
  rewrite last_last in Hlast. subst u'.
  repeat split.
  - now rewrite hd_error_snoc.
  - apply last_last.
  - now apply is_path_snoc.
Qed.

(** A path is a single node or a shorter path followed by one edge. *)
Lemma path_from_to_cases (g : Graph) (a b : string) (p : list string) :
  path_from_to g a b p ->
  (p = [a] /\ b = a) \/
  (exists p' u, p = p' ++ [b] /\ path_from_to g a u p' /\ In b (neighbors g u)).
Proof.
  intros [Hhd [Hlast Hp]].
  destruct (exists_last (l := p)) as [p1 [x ->]].
  { intros ->. discriminate. }
  rewrite last_last in Hlast. subst x.
  destruct p1 as [| y p1] using rev_ind.
  - simpl in Hhd. injection Hhd as ->. now left.
  - clear IHp1. right. exists (p1 ++ [y]), y.
    apply is_path_snoc_inv in Hp. destruct Hp as [Hp Hb].
    rewrite hd_error_snoc in Hhd.
    repeat split; auto. apply last_last.
Qed.

Lemma path_from_to_ind' (g : Graph) (a : string) (P : string -> list string -> Prop) :
  P a [a] ->
  (forall p u x, path_from_to g a u p -> P u p -> In x (neighbors g u) -> P x (p ++ [x])) ->
  forall b p, path_from_to g a b p -> P b p.
Proof.
  intros Hbase Hstep b p. revert b.
  induction p as [| x p IH] using rev_ind; intros b Hp.
  - destruct Hp as [Hhd _]. discriminate.
  - destruct (path_from_to_cases g a b _ Hp) as [[Heq ->] | [p' [u [Heq [Hp' Hb]]]]].
    + rewrite Heq. exact Hbase.
    + apply app_inj_tail in Heq. destruct Heq as [-> ->].
      apply Hstep with (u := u); auto.
Qed.

Lemma path_weight_step (g : Graph) (a u x : string) (p : list string) :
  path_from_to g a u p -> path_weight g (p ++ [x]) = path_weight g p + weight g u x.
Proof.
  intros [Hhd [Hlast Hp]].
  destruct (exists_last (l := p)) as [p' [u' ->]].
  { intros ->. discriminate. }
  rewrite last_last in Hlast. subst u'. apply path_weight_snoc.
Qed.

Lemma path_weight_nonneg (g : Graph) (a b : string) (p : list string) :
  path_from_to g a b p -> 0 <= path_weight g p.
Proof.
  revert b p. apply path_from_to_ind'.
  - apply Qle_refl.
  - intros p u x Hp IH Hx. rewrite (path_weight_step g a u x p Hp).
    pose proof (weight_nonneg g u x). lra.
Qed.

Lemma path_nodes_known (g : Graph) (a b : string) (p : list string) :
  well_formed g -> map_has a (topics g) = true ->
  path_from_to g a b p -> forall x, In x p -> map_has x (topics g) = true.
Proof.
  intros Hwf Ha. revert b p.
  apply (path_from_to_ind' g a (fun _ p => forall x, In x p -> map_has x (topics g) = true)).
  - intros x [<- | []]. assumption.
  - intros p u x Hp IH Hx y Hy. apply in_app_iff in Hy. destruct Hy as [Hy | [<- | []]].
    + now apply IH.
    + now apply (wf_neighbors g Hwf) in Hx.
Qed.

Lemma path_from_to_last (g : Graph) (a b : string) (p : list string) :
  path_from_to g a b p -> In b p.
Proof.
  intros Hp. destruct (path_from_to_cases g a b p Hp) as [[-> ->] | [p' [u [-> _]]]].
  - now left.
  - apply in_app_iff. right. now left.
Qed.

(** ** Shortest paths: the selection of the minimum *)

Lemma select_min_fold (dist : Map number) (U : list string) :
  (forall u, In u U -> tame (get_distance dist u)) ->
  forall acc0,
    (acc0 = (None, Infinity) \/ exists c d, acc0 = (Some c, Finite d)) ->
    (fold_left (select_step dist) U acc0 = (None, Infinity) /\
     acc0 = (None, Infinity) /\
     forall u, In u U -> get_distance dist u = Infinity) \/
    (exists c d,
        fold_left (select_step dist) U acc0 = (Some c, Finite d) /\
        (acc0 = (Some c, Finite d) \/ (In c U /\ get_distance dist c = Finite d)) /\
        (forall u du, In u U -> get_distance dist u = Finite du -> d <= du) /\
        (forall c0 d0, acc0 = (Some c0, Finite d0) -> d <= d0)).
Proof.
  induction U as [| x U IH]; intros Htame acc0 Hacc; simpl.
  - destruct Hacc as [-> | [c [d ->]]].
    + left. repeat split. intros u [].
    + right. exists c, d. repeat split; auto.
      * intros u du [].
      * intros c0 d0 [= _ <-]. apply Qle_refl.
  - assert (Hx : tame (get_distance dist x)) by (apply Htame; now left).
    assert (HU : forall u, In u U -> tame (get_distance dist u)).
    { intros u Hu. apply Htame. now right. }
    remember (select_step dist acc0 x) as acc1 eqn:Eacc1. unfold select_step in Eacc1.
    destruct Hacc as [-> | [c0 [d0 ->]]];
      destruct Hx as [Hx | [dx Hx]]; rewrite Hx in Eacc1; simpl in Eacc1;
      try subst acc1.
    + destruct (IH HU (None, Infinity)) as [[Hr [_ Hall]] | [c [d [Hr [Hc [Hmin Hacc]]]]]];
        [now left | |].
      * left. split; [assumption |]. split; [reflexivity |].
        intros u [<- | Hu]; auto.
      * right. exists c, d. split; [assumption |].
        destruct Hc as [Hc | [Hc Hd]]; [discriminate |].
        split; [right; split; [now right | assumption] |]. split.
        -- intros u du [<- | Hu] Hdu; [congruence | eauto].
        -- discriminate.
    + destruct (IH HU (Some x, Finite dx)) as [[Hr [Ha _]] | [c [d [Hr [Hc [Hmin Hacc]]]]]];
        [right; eauto | discriminate |].
      right. exists c, d. split; [assumption |]. split; [| split].
      * right. destruct Hc as [[= <- <-] | [Hc Hd]]; [split; [now left | assumption] |].
        split; [now right | assumption].
      * intros u du [<- | Hu] Hdu; [| eauto].
        rewrite Hx in Hdu. injection Hdu as <-. eauto.
      * discriminate.
    + destruct (IH HU (Some c0, Finite d0)) as [[Hr [Ha _]] | [c [d [Hr [Hc [Hmin Hacc]]]]]];
        [right; eauto | discriminate |].
      right. exists c, d. split; [assumption |]. split; [| split].
      * destruct Hc as [Hc | [Hc Hd]]; [now left |]. right. split; [now right | assumption].
      * intros u du [<- | Hu] Hdu; [congruence | eauto].
      * assumption.
    + destruct (Qltb dx d0) eqn:E.
      * apply Qltb_true in E.
        destruct (IH HU (Some x, Finite dx))
          as [[Hr [Ha _]] | [c [d [Hr [Hc [Hmin Hacc]]]]]];
          [right; eauto | discriminate |].
        right. exists c, d. split; [assumption |].
        assert (Hdx : d <= dx) by eauto.
        split; [| split].
        -- right. destruct Hc as [[= <- <-] | [Hc Hd]]; [split; [now left | assumption] |].
           split; [now right | assumption].
        -- intros u du [<- | Hu] Hdu; [| eauto].
           rewrite Hx in Hdu. injection Hdu as <-. assumption.
        -- intros c1 d1 [= _ <-]. lra.
      * apply Qltb_false in E.
        destruct (IH HU (Some c0, Finite d0))
          as [[Hr [Ha _]] | [c [d [Hr [Hc [Hmin Hacc]]]]]];
          [right; eauto | discriminate |].
        right. exists c, d. split; [assumption |].
        assert (Hd0 : d <= d0) by eauto.
        split; [| split].
        -- destruct Hc as [Hc | [Hc Hd]]; [now left |].
           right. split; [now right | assumption].
        -- intros u du [<- | Hu] Hdu; [| eauto].
           rewrite Hx in Hdu. injection Hdu as <-. lra.
        -- assumption.
Qed.

Lemma select_min_spec (st : DijkstraState) :
  (forall u, In u (unvisited st) -> tame (get_distance (distances st) u)) ->
  (select_min st = (None, Infinity) /\
   forall u, In u (unvisited st) -> get_distance (distances st) u = Infinity) \/
  (exists c d,
      select_min st = (Some c, Finite d) /\
      In c (unvisited st) /\
      get_distance (distances st) c = Finite d /\
      forall u du, In u (unvisited st) -> get_distance (distances st) u = Finite du ->
                   d <= du).
Proof.
  intros Htame. unfold select_min.
  destruct (select_min_fold (distances st) (unvisited st) Htame (None, Infinity))
    as [[Hr [_ Hall]] | [c [d [Hr [Hc [Hmin _]]]]]]; [now left | now left |].
  right. exists c, d. destruct Hc as [Hc | [Hc Hd]]; [discriminate |]. auto.
Qed.

(** ** Shortest paths: the initial state *)

Lemma get_distance_set (m : Map number) (k v : string) (x : number) :
  get_distance (map_set k x m) v = if String.eqb v k then x else get_distance m v.
Proof. unfold get_distance. rewrite map_get_set. now destruct (String.eqb v k). Qed.

Lemma get_previous_set (m : Map (option string)) (k v : string) (x : option string) :
  v <> k -> get_previous (map_set k x m) v = get_previous m v.
Proof. intros H. unfold get_previous. now rewrite map_get_set_neq. Qed.

Lemma dijkstra_init_fold (s : string) (l : list string) :
  forall st,
    let st' := fold_left (dijkstra_init_step s) l st in
    visited st' = visited st /\
    (forall v, In v (unvisited st') <-> In v (unvisited st) \/ In v l) /\
    (forall v, In v l ->
               get_distance (distances st') v
               = (if String.eqb v s then Finite 0 else Infinity) /\
               map_get v (previous st') = Some None) /\
    (forall v, ~ In v l ->
               map_get v (distances st') = map_get v (distances st) /\
               map_get v (previous st') = map_get v (previous st)).
Proof.
  induction l as [| x l IH]; intros st; simpl.
  - repeat split; tauto.
  - destruct (IH (dijkstra_init_step s st x)) as [Hvis [Hunv [Hin Hout]]].
    simpl in Hvis. split; [assumption |]. split; [| split].
    + intros v. rewrite Hunv. simpl. rewrite set_add_In. intuition.
    + intros v Hv. destruct (in_dec string_dec v l) as [Hl | Hl]; [now apply Hin |].
      destruct Hv as [<- | Hv]; [| contradiction].
      destruct (Hout x Hl) as [Hd Hp]. simpl in Hd, Hp.
      unfold get_distance. rewrite Hd, Hp, !map_get_set_eq. tauto.
    + intros v Hv. destruct (Hout v) as [Hd Hp]; [tauto |].
      simpl in Hd, Hp. rewrite Hd, Hp.
      rewrite !map_get_set_neq; [tauto | |]; intros ->; tauto.
Qed.

(** ** Shortest paths: the invariant of the main loop *)

Lemma chain_set (prev : Map (option string)) (s v n : string) (x : option string)
  (p : list string) :
  chain prev s v p -> ~ In n p -> chain (map_set n x prev) s v p.
Proof.
  induction 1 as [| v u p Hvs Hprev Hch IH]; intros Hn.
  - constructor.
  - rewrite in_app_iff in Hn. simpl in Hn.
    apply chain_step with (u := u); [assumption | | tauto].
    rewrite get_previous_set; [assumption | intros ->; tauto].
Qed.

Lemma In_removelast_or_last {A : Type} (l : list A) (d x : A) :
  In x l -> In x (removelast l) \/ x = last l d.
Proof.
  intros Hx. destruct l as [| a l]; [destruct Hx |].
  destruct (exists_last (l := a :: l)) as [l' [y Heq]]; [discriminate |].
  rewrite Heq in *. rewrite removelast_last, last_last.
  apply in_app_iff in Hx. destruct Hx as [Hx | [<- | []]]; auto.
Qed.

Lemma set_delete_length (c : string) (U : StrSet) :
  In c U -> (length (set_delete c U) < length U)%nat.
Proof.
  unfold set_delete. induction U as [| x U IH]; intros Hc; [destruct Hc |]. simpl.
  destruct (String.eqb c x) eqn:E; simpl.
  - pose proof (filter_length_le (fun y => negb (String.eqb c y)) U). lia.
  - destruct Hc as [-> | Hc]; [rewrite String.eqb_refl in E; discriminate |].
    apply IH in Hc. lia.
Qed.

Section Dijkstra.
Variable g : Graph.
Variables startId endId : string.
Hypothesis Hwf : well_formed g.
Hypothesis Hstart : map_has startId (topics g) = true.
Hypothesis Hend : map_has endId (topics g) = true.
Hypothesis Hnonempty : map_has "" (topics g) = false.

(** The predecessors lead from [v] back to the start along a path of the
    graph of weight [d]. *)
Definition traced (prev : Map (option string)) (v : string) (d : Q) (p : list string)
  : Prop :=
  chain prev startId v p /\ path_from_to g startId v p /\ path_weight g p = d.

Definition shortest (v : string) (d : Q) : Prop :=
  forall p, path_from_to g startId v p -> d <= path_weight g p.

Definition relaxed (st : DijkstraState) (u v : string) : Prop :=
  exists du dv,
    get_distance (distances st) u = Finite du /\
    get_distance (distances st) v = Finite dv /\
    dv <= du + weight g u v.

Record inv (pending : string -> string -> Prop) (st : DijkstraState) : Prop := {
  inv_end : ~ In endId (visited st);
  inv_cover : forall v, map_has v (topics g) = true ->
                        In v (visited st) \/ In v (unvisited st);
  inv_unv : forall v, In v (unvisited st) -> map_has v (topics g) = true;
  inv_val : forall v, map_has v (topics g) = true ->
                      (get_distance (distances st) v = Infinity /\
                       get_previous (previous st) v = None) \/
                      exists d, get_distance (distances st) v = Finite d;
  inv_start : get_distance (distances st) startId = Finite 0;
  inv_first : In startId (visited st) \/
              forall v d, get_distance (distances st) v = Finite d -> v = startId;
  inv_tree : forall v d, get_distance (distances st) v = Finite d ->
                         exists p, traced (previous st) v d p /\
                                   forall x, In x (removelast p) -> In x (visited st);
  inv_opt : forall v, In v (visited st) ->
                      exists d, get_distance (distances st) v = Finite d /\ shortest v d;
  inv_relaxed : forall u v, In u (visited st) -> In v (neighbors g u) ->
                            ~ In v (visited st) -> ~ pending u v -> relaxed st u v
}.

Definition no_pending (u v : string) : Prop := False.

Lemma inv_init : startId <> endId -> inv no_pending (dijkstra_init g startId).
Proof.
  intros Hne. unfold dijkstra_init.
  destruct (dijkstra_init_fold startId (map_keys (topics g)) (mkDijkstra [] [] [] []))
    as [Hvis [Hunv [Hin Hout]]].
  simpl in Hvis, Hunv, Hout.
  set (st := fold_left (dijkstra_init_step startId) (map_keys (topics g))
                       (mkDijkstra [] [] [] [])) in *.
  assert (Hkey : forall v, map_has v (topics g) = true ->
                           get_distance (distances st) v
                           = (if String.eqb v startId then Finite 0 else Infinity) /\
                           map_get v (previous st) = Some None).
  { intros v Hv. apply Hin. now apply map_has_In. }
  assert (Hfin : forall v d, get_distance (distances st) v = Finite d -> v = startId).
  { intros v d Hd. destruct (in_dec string_dec v (map_keys (topics g))) as [Hv | Hv].
    - apply Hin in Hv. destruct Hv as [Hv _]. rewrite Hv in Hd.
      destruct (String.eqb v startId) eqn:E; [now apply String.eqb_eq in E | discriminate].
    - apply Hout in Hv. destruct Hv as [Hv _]. unfold get_distance in Hd.
      rewrite Hv in Hd. discriminate. }
  assert (Hs0 : get_distance (distances st) startId = Finite 0).
  { destruct (Hkey startId Hstart) as [H _]. now rewrite String.eqb_refl in H. }
  split.
  - rewrite Hvis. intros [].
  - intros v Hv. right. apply Hunv. right. now apply map_has_In.
  - intros v Hv. apply Hunv in Hv. destruct Hv as [[] | Hv]. now apply map_has_In.
  - intros v Hv. destruct (Hkey v Hv) as [Hd Hp]. rewrite Hd.
    destruct (String.eqb v startId); [right; eauto | left].
    split; [reflexivity |]. unfold get_previous. now rewrite Hp.
  - assumption.
  - right. assumption.
  - intros v d Hd. pose proof (Hfin v d Hd) as ->. rewrite Hs0 in Hd. injection Hd as <-.
    exists [startId]. split.
    + split; [constructor |]. split; [apply path_from_to_single | reflexivity].
    + intros x [].
  - rewrite Hvis. intros v [].
  - rewrite Hvis. intros u v [].
Qed.

(** Along a path from the start, either every node is visited or some node
    that is not visited has a distance not above the weight of the path. *)
Lemma path_lower_bound (st : DijkstraState) :
  inv no_pending st ->
  forall b p, path_from_to g startId b p ->
    (forall x, In x p -> In x (visited st)) \/
    (exists y dy, In y p /\ ~ In y (visited st) /\
                  get_distance (distances st) y = Finite dy /\ dy <= path_weight g p).
Proof.
  intros Hinv.
  apply (path_from_to_ind' g startId
           (fun _ p =>
              (forall x, In x p -> In x (visited st)) \/
              (exists y dy, In y p /\ ~ In y (visited st) /\
                            get_distance (distances st) y = Finite dy /\
                            dy <= path_weight g p))).
  - destruct (in_dec string_dec startId (visited st)) as [Hs | Hs].
    + left. intros x [<- | []]. assumption.
    + right. exists startId, 0. repeat split; auto.
      * now left.
      * apply (inv_start _ _ Hinv).
      * apply Qle_refl.
  - intros p u x Hp IH Hx. rewrite (path_weight_step g startId u x p Hp).
    pose proof (weight_nonneg g u x) as Hw.
    destruct IH as [Hall | [y [dy [Hy [Hny [Hdy Hle]]]]]].
    + destruct (in_dec string_dec x (visited st)) as [Hxv | Hxv].
      * left. intros z Hz. apply in_app_iff in Hz.
        destruct Hz as [Hz | [<- | []]]; auto.
      * right. assert (Hu : In u (visited st)).
        { apply Hall. eapply path_from_to_last. exact Hp. }
        destruct (inv_relaxed _ _ Hinv u x Hu Hx Hxv) as [du [dx [Hdu [Hdx Hrel]]]].
        { intros []. }
        destruct (inv_opt _ _ Hinv u Hu) as [du' [Hdu' Hopt]].
        rewrite Hdu in Hdu'. injection Hdu' as <-.
        specialize (Hopt p Hp).
        exists x, dx. repeat split; auto.
        -- apply in_app_iff. right. now left.
        -- lra.
    + right. exists y, dy. repeat split; auto.
      * apply in_app_iff. now left.
      * lra.
Qed.

Lemma settle_shortest (st : DijkstraState) (c : string) (d : Q) :
  inv no_pending st ->
  In c (unvisited st) ->
  get_distance (distances st) c = Finite d ->
  (forall u du, In u (unvisited st) -> get_distance (distances st) u = Finite du ->
                d <= du) ->
  shortest c d.
Proof.
  intros Hinv Hc Hd Hmin p Hp.
  destruct (path_lower_bound st Hinv c p Hp) as [Hall | [y [dy [Hy [Hny [Hdy Hle]]]]]].
  - assert (Hcv : In c (visited st)).
    { apply Hall. eapply path_from_to_last. exact Hp. }
    destruct (inv_opt _ _ Hinv c Hcv) as [d' [Hd' Hopt]].
    rewrite Hd in Hd'. injection Hd' as <-. now apply Hopt.
  - assert (Hyk : map_has y (topics g) = true).
    { exact (path_nodes_known g startId c p Hwf Hstart Hp y Hy). }
    destruct (inv_cover _ _ Hinv y Hyk) as [Hyv | Hyu]; [contradiction |].
    specialize (Hmin y dy Hyu Hdy). lra.
Qed.

(** When no unvisited node has a finite distance, the end is out of reach. *)
Lemma exhausted_unreachable (st : DijkstraState) :
  inv no_pending st ->
  (forall u, In u (unvisited st) -> get_distance (distances st) u = Infinity) ->
  ~ reachable g startId endId /\ get_previous (previous st) endId = None.
Proof.
  intros Hinv Hinf. split.
  - intros [p Hp].
    destruct (path_lower_bound st Hinv endId p Hp) as [Hall | [y [dy [Hy [Hny [Hdy _]]]]]].
    + apply (inv_end _ _ Hinv). apply Hall. eapply path_from_to_last. exact Hp.
    + assert (Hyk : map_has y (topics g) = true).
      { exact (path_nodes_known g startId endId p Hwf Hstart Hp y Hy). }
      destruct (inv_cover _ _ Hinv y Hyk) as [Hyv | Hyu]; [contradiction |].
      rewrite (Hinf y Hyu) in Hdy. discriminate.
  - destruct (inv_cover _ _ Hinv endId Hend) as [Hv | Hu].
    + now apply (inv_end _ _ Hinv) in Hv.
    + destruct (inv_val _ _ Hinv endId Hend) as [[_ Hp] | [d Hd]]; [assumption |].
      rewrite (Hinf endId Hu) in Hd. discriminate.
Qed.

(** The state once [c] has been moved from the unvisited to the visited
    nodes. *)
Definition settle (st : DijkstraState) (c : string) : DijkstraState :=
  mkDijkstra (distances st) (previous st)
             (set_add c (visited st)) (set_delete c (unvisited st)).

Definition pending_from (c : string) (ns : list string) (u v : string) : Prop :=
  u = c /\ In v ns.

Lemma settle_inv (st : DijkstraState) (c : string) (d : Q) :
  inv no_pending st ->
  In c (unvisited st) ->
  get_distance (distances st) c = Finite d ->
  shortest c d ->
  c <> endId ->
  inv (pending_from c (neighbors g c)) (settle st c) /\
  In startId (visited (settle st c)).
Proof.
  intros Hinv Hc Hd Hopt Hce.
  assert (Hs : In startId (visited (settle st c))).
  { simpl. apply set_add_In.
    destruct (inv_first _ _ Hinv) as [Hs | Honly]; [now right |].
    left. symmetry. eapply Honly. exact Hd. }
  split; [| exact Hs]. split; simpl.
  - rewrite set_add_In. intros [Heq | Hin]; [congruence |].
    now apply (inv_end _ _ Hinv).
  - intros v Hv. rewrite set_add_In, set_delete_In.
    destruct (string_dec v c) as [-> | Hvc]; [tauto |].
    destruct (inv_cover _ _ Hinv v Hv); tauto.
  - intros v Hv. apply set_delete_In in Hv. apply (inv_unv _ _ Hinv). tauto.
  - apply (inv_val _ _ Hinv).
  - apply (inv_start _ _ Hinv).
  - now left.
  - intros v dv Hdv. destruct (inv_tree _ _ Hinv v dv Hdv) as [p [Htr Hvis]].
    exists p. split; [assumption |]. intros x Hx. apply set_add_In. right. auto.
  - intros v Hv. apply set_add_In in Hv. destruct Hv as [-> | Hv].
    + exists d. split; assumption.
    + apply (inv_opt _ _ Hinv v Hv).
  - intros u v Hu Huv Hnv Hpend. rewrite set_add_In in Hu, Hnv.
    destruct Hu as [-> | Hu].
    + exfalso. apply Hpend. split; [reflexivity | assumption].
    + apply (inv_relaxed _ _ Hinv u v Hu Huv); [tauto | intros []].
Qed.

(** The obligations on relaxed edges may be traded for the facts
    themselves. *)
Lemma inv_discharge (P P' : string -> string -> Prop) (st : DijkstraState) :
  inv P st ->
  (forall u v, In u (visited st) -> In v (neighbors g u) -> ~ In v (visited st) ->
               ~ P' u v -> ~ P u v \/ relaxed st u v) ->
  inv P' st.
Proof.
  intros Hinv Hp. split; try apply Hinv.
  intros u v Hu Huv Hnv Hpend.
  destruct (Hp u v Hu Huv Hnv Hpend) as [H | H]; [| assumption].
  now apply (inv_relaxed _ _ Hinv).
Qed.

Lemma pending_from_cases (c n u v : string) (ns : list string) :
  ~ pending_from c ns u v ->
  ~ pending_from c (n :: ns) u v \/ (u = c /\ v = n).
Proof.
  intros H. unfold pending_from in *. simpl.
  destruct (string_dec u c) as [-> | Huc]; [| tauto].
  destruct (string_dec v n) as [-> | Hvn]; [tauto |].
  left. intros [_ [Heq | Hin]]; [congruence | tauto].
Qed.

(** One update of the distance and of the predecessor of a neighbour. *)
Lemma relax_update_inv (st : DijkstraState) (c n : string) (ns : list string) (dc : Q) :
  inv (pending_from c (n :: ns)) st ->
  In c (visited st) ->
  In startId (visited st) ->
  In n (neighbors g c) ->
  ~ In n (visited st) ->
  get_distance (distances st) c = Finite dc ->
  num_ltb (Finite (dc + weight g c n)) (get_distance (distances st) n) = true ->
  inv (pending_from c ns)
      (mkDijkstra (map_set n (Finite (dc + weight g c n)) (distances st))
                  (map_set n (Some c) (previous st))
                  (visited st) (unvisited st)).
Proof.
  intros Hinv Hc Hs Hn Hnv Hdc Hlt.
  destruct (wf_neighbors g Hwf c n Hn) as [Hck Hnk].
  assert (Hc0 : c <> "").
  { intros ->. congruence. }
  assert (Hns : n <> startId) by (intros ->; contradiction).
  assert (Hnc : n <> c) by (intros ->; contradiction).
  assert (Hdist : forall v, v <> n ->
            get_distance (map_set n (Finite (dc + weight g c n)) (distances st)) v
            = get_distance (distances st) v).
  { intros v Hv. rewrite get_distance_set.
    now rewrite (proj2 (String.eqb_neq v n) Hv). }
  assert (Hdn : get_distance (map_set n (Finite (dc + weight g c n)) (distances st)) n
                = Finite (dc + weight g c n)).
  { rewrite get_distance_set. now rewrite String.eqb_refl. }
  split; simpl.
  - apply (inv_end _ _ Hinv).
  - apply (inv_cover _ _ Hinv).
  - apply (inv_unv _ _ Hinv).
  - intros v Hv. destruct (string_dec v n) as [-> | Hvn].
    + right. eauto.
    + rewrite (Hdist v Hvn), (get_previous_set _ _ _ _ Hvn).
      now apply (inv_val _ _ Hinv).
  - rewrite Hdist by congruence. apply (inv_start _ _ Hinv).
  - now left.
  - intros v d Hd. destruct (string_dec v n) as [-> | Hvn].
    + rewrite Hdn in Hd. injection Hd as <-.
      destruct (inv_tree _ _ Hinv c dc Hdc) as [p [[Hch [Hp Hw]] Hvis]].
      assert (Hall : forall x, In x p -> In x (visited st)).
      { intros x Hx. destruct (In_removelast_or_last p startId x Hx) as [H | H].
        - now apply Hvis.
        - destruct Hp as [_ [Hlast _]]. rewrite Hlast in H. now subst. }
      exists (p ++ [n]). split; [split; [| split] |].
      * apply chain_step with (u := c); [assumption | |].
        -- unfold get_previous. rewrite map_get_set_eq. simpl.
           now rewrite (proj2 (String.eqb_neq c "") Hc0).
        -- apply chain_set; [assumption |]. intros Hin. apply Hnv. now apply Hall.
      * now apply path_from_to_snoc with (u := c).
      * rewrite (path_weight_step g startId c n p Hp). now rewrite Hw.
      * rewrite removelast_last. exact Hall.
    + rewrite (Hdist v Hvn) in Hd.
      destruct (inv_tree _ _ Hinv v d Hd) as [p [[Hch [Hp Hw]] Hvis]].
      exists p. split; [| assumption]. split; [| split; assumption].
      apply chain_set; [assumption |]. intros Hin.
      destruct (In_removelast_or_last p startId n Hin) as [H | H].
      * apply Hnv. now apply Hvis.
      * destruct Hp as [_ [Hlast _]]. rewrite Hlast in H. congruence.
  - intros v Hv. rewrite Hdist by (intros ->; contradiction).
    now apply (inv_opt _ _ Hinv).
  - intros u v Hu Huv Hnvv Hpend.
    assert (Hun : u <> n) by (intros ->; contradiction).
    unfold relaxed. simpl. rewrite (Hdist u Hun).
    destruct (pending_from_cases c n u v ns Hpend) as [Hold | [-> ->]].
    + destruct (inv_relaxed _ _ Hinv u v Hu Huv Hnvv Hold) as [du [dv [Hdu [Hdv Hle]]]].
      exists du. destruct (string_dec v n) as [-> | Hvn].
      * exists (dc + weight g c n). rewrite Hdn. repeat split; auto.
        rewrite Hdv in Hlt. simpl in Hlt. apply Qltb_true in Hlt. lra.
      * exists dv. rewrite (Hdist v Hvn). auto.
    + exists dc, (dc + weight g c n). rewrite Hdn. repeat split; auto. apply Qle_refl.
Qed.

Lemma relax_inv (c : string) :
  forall ns st,
    inv (pending_from c ns) st ->
    In c (visited st) ->
    In startId (visited st) ->
    (forall n, In n ns -> In n (neighbors g c)) ->
    exists st',
      relax g c ns st = Ok st' /\ inv no_pending st' /\ unvisited st' = unvisited st.
Proof.
  induction ns as [| n ns IH]; intros st Hinv Hc Hs Hns; simpl.
  - exists st. split; [reflexivity |]. split; [| reflexivity].
    eapply inv_discharge; [exact Hinv |]. intros u v _ _ _ _. left. intros [_ []].
  - assert (Hn : In n (neighbors g c)) by (apply Hns; now left).
    assert (Hns' : forall x, In x ns -> In x (neighbors g c)).
    { intros x Hx. apply Hns. now right. }
    destruct (set_has n (visited st)) eqn:Evis.
    + apply set_has_In in Evis. apply IH; auto.
      eapply inv_discharge; [exact Hinv |]. intros u v _ _ Hnv Hpend. left.
      intros [-> [<- | Hin]]; [contradiction |]. apply Hpend. now split.
    + apply set_has_false in Evis.
      destruct (wf_neighbors g Hwf c n Hn) as [Hck Hnk].
      rewrite (getEdgeWeight_ok g c n Hck Hnk). simpl bind.
      destruct (inv_opt _ _ Hinv c Hc) as [dc [Hdc _]]. rewrite Hdc. simpl num_add.
      destruct (num_ltb (Finite (dc + weight g c n)) (get_distance (distances st) n))
        eqn:Elt.
      * destruct (IH (mkDijkstra (map_set n (Finite (dc + weight g c n)) (distances st))
                                 (map_set n (Some c) (previous st))
                                 (visited st) (unvisited st)))
          as [st' [Hr [Hinv' Hunv]]]; auto.
        { now apply relax_update_inv. }
        exists st'. auto.
      * apply IH; auto.
        eapply inv_discharge; [exact Hinv |]. intros u v Hu Huv Hnv Hpend.
        destruct (pending_from_cases c n u v ns Hpend) as [Hold | [-> ->]];
          [now left | right].
        destruct (inv_val _ _ Hinv n Hnk) as [[Hinf _] | [dn Hdn]].
        -- rewrite Hinf in Elt. discriminate.
        -- rewrite Hdn in Elt. simpl in Elt. apply Qltb_false in Elt.
           exists dc, dn. auto.
Qed.

(** What the main loop leaves behind: the end has got its final distance,
    or it is out of reach. *)
Definition settled_end (st : DijkstraState) : Prop :=
  exists d p,
    get_distance (distances st) endId = Finite d /\
    traced (previous st) endId d p /\
    shortest endId d.

Definition unreachable_end (st : DijkstraState) : Prop :=
  ~ reachable g startId endId /\ get_previous (previous st) endId = None.

Lemma dijkstra_loop_spec (fuel : nat) :
  forall st,
    inv no_pending st ->
    (length (unvisited st) < fuel)%nat ->
    exists st',
      dijkstra_loop fuel g endId st = Ok st' /\ (settled_end st' \/ unreachable_end st').
Proof.
  induction fuel as [| fuel IH]; intros st Hinv Hfuel; [lia |]. simpl.
  destruct (0 <? set_size (unvisited st))%nat eqn:Esize.
  2:{ exists st. split; [reflexivity |]. right. apply exhausted_unreachable; auto.
      apply Nat.ltb_ge in Esize. unfold set_size in Esize.
      destruct (unvisited st); [intros u [] | simpl in Esize; lia]. }
  destruct (select_min_spec st) as [[Hsel Hinf] | [c [d [Hsel [Hc [Hd Hmin]]]]]].
  { intros u Hu. apply (inv_unv _ _ Hinv) in Hu.
    destruct (inv_val _ _ Hinv u Hu) as [[H _] | [q H]]; [now left | right; eauto]. }
  - rewrite Hsel. exists st. split; [reflexivity |]. right.
    now apply exhausted_unreachable.
  - rewrite Hsel. simpl is_infinity. cbv iota.
    pose proof (settle_shortest st c d Hinv Hc Hd Hmin) as Hopt.
    destruct (String.eqb c endId) eqn:Eend.
    + apply String.eqb_eq in Eend. subst c. eexists. split; [reflexivity |]. left.
      destruct (inv_tree _ _ Hinv endId d Hd) as [p [Htr _]].
      exists d, p. simpl. auto.
    + apply String.eqb_neq in Eend.
      destruct (settle_inv st c d Hinv Hc Hd Hopt Eend) as [Hinv1 Hs1].
      destruct (relax_inv c (neighbors g c) (settle st c) Hinv1) as [st2 [Hr [Hinv2 Hunv]]];
        auto.
      { simpl. apply set_add_In. now left. }
      fold (settle st c). rewrite Hr. simpl bind. apply IH; [assumption |].
      rewrite Hunv. simpl. pose proof (set_delete_length c (unvisited st) Hc). lia.
Qed.

(** ** Shortest paths: walking the predecessors back *)

Lemma chain_nonempty (prev : Map (option string)) (v : string) (p : list string) :
  chain prev startId v p -> (1 <= length p)%nat.
Proof. intros H. destruct H; [simpl; lia | rewrite length_app; simpl; lia]. Qed.

Lemma reconstruct_loop_chain (prev : Map (option string)) (v : string) (p : list string) :
  chain prev startId v p ->
  forall fuel acc,
    (length p <= fuel)%nat ->
    reconstruct_loop fuel prev startId (Some v) acc = Ok (p ++ acc).
Proof.
  induction 1 as [| v u p Hvs Hprev Hch IH]; intros fuel acc Hfuel.
  - destruct fuel as [| fuel]; [simpl in Hfuel; lia |]. simpl.
    now rewrite String.eqb_refl.
  - rewrite length_app in Hfuel. simpl in Hfuel.
    destruct fuel as [| fuel]; [lia |]. simpl.
    rewrite (proj2 (String.eqb_neq v startId) Hvs), Hprev.
    rewrite IH by lia. now rewrite <- app_assoc.
Qed.

Lemma reconstructPath_traced (prev : Map (option string)) (d : Q) (p : list string)
  (fuel : nat) :
  traced prev endId d p -> (length p <= fuel)%nat ->
  reconstructPath fuel prev startId endId = Ok p /\ p <> [].
Proof.
  intros [Hch [[Hhd _] _]] Hfuel. unfold reconstructPath.
  rewrite (reconstruct_loop_chain prev endId p Hch fuel [] Hfuel), app_nil_r. simpl.
  destruct p as [| first p]; [discriminate |].
  simpl in Hhd. injection Hhd as ->. rewrite String.eqb_refl. split; [reflexivity |].
  discriminate.
Qed.

Lemma reconstructPath_unreachable (prev : Map (option string)) (fuel : nat) :
  startId <> endId -> get_previous prev endId = None ->
  reconstructPath (S (S fuel)) prev startId endId = Ok [].
Proof.
  intros Hne Hprev. unfold reconstructPath. simpl.
  assert (E : String.eqb endId startId = false) by (apply String.eqb_neq; congruence).
  rewrite E, Hprev. simpl. now rewrite E.
Qed.
End Dijkstra.

(** ** Shortest paths: the query *)

Lemma dijkstra_loop_more_fuel (g : Graph) (endId : string) (fuel : nat) :
  forall st st',
    dijkstra_loop fuel g endId st = Ok st' ->
    forall fuel', (fuel <= fuel')%nat -> dijkstra_loop fuel' g endId st = Ok st'.
Proof.
  induction fuel as [| fuel IH]; intros st st' H fuel' Hle; [discriminate |].
  destruct fuel' as [| fuel']; [lia |].
  simpl in *.
  destruct (0 <? set_size (unvisited st))%nat; [| assumption].
  destruct (select_min st) as [[c |] m]; [| assumption].
  destruct (is_infinity m); [assumption |].
  destruct (String.eqb c endId); [assumption |].
  destruct (relax g c (neighbors g c) _) as [st2 | |]; simpl in *; try discriminate.
  apply IH; [assumption | lia].
Qed.

(** C1, as the code has it.  For topics with non-empty ids and two ids of the
    graph, [findShortestPath] returns, given enough fuel, one and the same
    answer; the answer is null exactly when the end cannot be reached from the
    start; otherwise it is a path from the start to the end along adjacency
    edges, whose distance is the sum of the weights of its edges and is the
    least such sum over all paths from the start to the end. *)
Theorem findShortestPath_correct (ts : list ITopicData) (startId endId : string) :
  Forall (fun t => id t <> "") ts ->
  map_has startId (topics (buildGraph ts)) = true ->
  map_has endId (topics (buildGraph ts)) = true ->
  exists r : option ShortestPath,
    (exists n, forall fuel, (n <= fuel)%nat ->
                 findShortestPath fuel (buildGraph ts) startId endId = Ok r) /\
    (r = None <-> ~ reachable (buildGraph ts) startId endId) /\
    (forall sp, r = Some sp -> shortest_path_result (buildGraph ts) startId endId sp).
Proof.
  intros Hids Hs He. pose proof (buildGraph_well_formed ts) as Hwf.
  assert (Hnonempty : map_has "" (topics (buildGraph ts)) = false).
  { destruct (map_has "" (topics (buildGraph ts))) eqn:E; [| reflexivity].
    apply buildGraph_has in E. destruct E as [t [Hin Ht]].
    rewrite Forall_forall in Hids. now apply Hids in Hin. }
  set (g := buildGraph ts) in *.
  destruct (string_dec startId endId) as [<- | Hne].
  - exists (Some (mkShortestPath [startId] (Finite 0) [map_get startId (topics g)])).
    split; [| split].
    + exists 0%nat. intros fuel _. unfold findShortestPath.
      rewrite Hs, String.eqb_refl. reflexivity.
    + split; [discriminate |]. intros Hun. exfalso. apply Hun.
      exists [startId]. apply path_from_to_single.
    + intros sp [= <-]. unfold shortest_path_result. simpl.
      split; [apply path_from_to_single |]. repeat split.
      intros q Hq. change (path_weight g [startId]) with 0.
      eapply path_weight_nonneg. exact Hq.
  - pose proof (inv_init g startId endId Hs Hne) as Hinit.
    set (st0 := dijkstra_init g startId) in *.
    destruct (dijkstra_loop_spec g startId endId Hwf Hs He Hnonempty
                (S (length (unvisited st0))) st0 Hinit (Nat.lt_succ_diag_r _))
      as [st [Hloop [[d [p [Hd [Htr Hopt]]]] | [Hun Hprev]]]].
    + exists (Some (mkShortestPath p (Finite d) (hydrate g p))).
      assert (Hpath : path_from_to g startId endId p) by apply Htr.
      assert (Hw : path_weight g p = d) by apply Htr.
      split; [| split].
      * exists (Nat.max (S (length (unvisited st0))) (length p)). intros fuel Hfuel.
        unfold findShortestPath. rewrite Hs, He. simpl.
        rewrite (proj2 (String.eqb_neq startId endId) Hne).
        fold g. fold st0.
        rewrite (dijkstra_loop_more_fuel g endId _ st0 st Hloop fuel) by lia.
        simpl bind.
        destruct (reconstructPath_traced g startId endId (previous st) d p fuel Htr)
          as [Hrec Hp]; [lia |].
        rewrite Hrec. simpl bind. rewrite Hd.
        destruct p; [congruence | reflexivity].
      * split; [discriminate |]. intros Hun. exfalso. apply Hun. now exists p.
      * intros sp [= <-]. unfold shortest_path_result. simpl.
        split; [assumption |]. split; [| split; [| split]].
        -- apply calculatePathDistance_path; [assumption | apply Hpath].
        -- now rewrite Hw.
        -- intros q Hq. rewrite Hw. now apply Hopt.
        -- reflexivity.
    + exists None. split; [| split].
      * exists (Nat.max (S (length (unvisited st0))) 2). intros fuel Hfuel.
        unfold findShortestPath. rewrite Hs, He. simpl.
        rewrite (proj2 (String.eqb_neq startId endId) Hne).
        fold g. fold st0.
        rewrite (dijkstra_loop_more_fuel g endId _ st0 st Hloop fuel) by lia.
        simpl bind.
        destruct fuel as [| [| fuel]]; try lia.
        now rewrite (reconstructPath_unreachable startId endId (previous st) fuel Hne Hprev).
      * tauto.
      * discriminate.
Qed.

Lemma findShortestPath_correct_witness :
  exists r : option ShortestPath,
    (exists n, forall fuel, (n <= fuel)%nat ->
                 findShortestPath fuel (buildGraph sampleTopics) "grandchild1" "grandchild2"
                 = Ok r) /\
    (r = None <-> ~ reachable (buildGraph sampleTopics) "grandchild1" "grandchild2") /\
    (forall sp, r = Some sp ->
                shortest_path_result (buildGraph sampleTopics) "grandchild1" "grandchild2" sp).
Proof.
  apply (findShortestPath_correct sampleTopics "grandchild1" "grandchild2").
  - repeat constructor; discriminate.
  - reflexivity.
  - reflexivity.
Defined.

(** C1 as stated fails on a topic whose id is the empty string: the walk back
    along the predecessors takes the empty id for a missing one, and
    [findShortestPath] returns null although the end is a neighbour of the
    start. *)
Lemma findShortestPath_empty_id_counterexample :
  map_has "" (topics (buildGraph emptyIdTopics)) = true /\
  map_has "r" (topics (buildGraph emptyIdTopics)) = true /\
  reachable (buildGraph emptyIdTopics) "" "r" /\
  forall fuel, (3 <= fuel)%nat ->
               findShortestPath fuel (buildGraph emptyIdTopics) "" "r" = Ok None.
Proof.
  split; [reflexivity |]. split; [reflexivity |]. split.
  - exists [""; "r"]. repeat split. simpl. now left.
  - intros fuel Hfuel. destruct fuel as [| [| [| fuel]]]; try lia. reflexivity.
Qed.

(** ** Topics within a distance: termination measure *)

Lemma neighbors_unknown (g : Graph) (c : string) :
  ~ In c (map_keys (adjacencyList g)) -> neighbors g c = [].
Proof.
  intros H. unfold neighbors. destruct (map_get c (adjacencyList g)) eqn:E; [| reflexivity].
  exfalso. apply H. apply map_has_In. unfold map_has. now rewrite E.
Qed.

Lemma degree_sum_visit (g : Graph) (vis : StrSet) (c : string) :
  ~ In c vis ->
  (degree_sum g (set_add c vis) + length (neighbors g c) <= degree_sum g vis)%nat.
Proof.
  intros Hc. unfold degree_sum.
  destruct (in_dec string_dec c (map_keys (adjacencyList g))) as [Hin | Hout].
  - induction (map_keys (adjacencyList g)) as [| x l IH]; [destruct Hin |]. simpl.
    rewrite set_has_add.
    destruct (string_dec x c) as [-> | Hxc].
    + rewrite String.eqb_refl. simpl.
      rewrite (proj2 (set_has_false c vis) Hc). simpl.
      assert (Hle : forall l',
                 (list_sum (map (fun v => length (neighbors g v))
                              (filter (fun v => negb (set_has v (set_add c vis))) l'))
                  <= list_sum (map (fun v => length (neighbors g v))
                                (filter (fun v => negb (set_has v vis)) l')))%nat).
      { induction l' as [| y l' IHl]; simpl; [lia |].
        rewrite set_has_add. destruct (String.eqb y c); simpl.
        - destruct (set_has y vis); simpl; lia.
        - destruct (set_has y vis); simpl; lia. }
      specialize (Hle l). lia.
    + rewrite (proj2 (String.eqb_neq x c) Hxc). simpl.
      destruct Hin as [Heq | Hin]; [congruence |]. specialize (IH Hin).
      destruct (set_has x vis); simpl; lia.
  - rewrite (neighbors_unknown g c Hout), Nat.add_0_r.
    induction (map_keys (adjacencyList g)) as [| x l IH]; simpl; [lia |].
    rewrite set_has_add. simpl in Hout.
    destruct (String.eqb x c) eqn:E; [apply String.eqb_eq in E; subst; tauto |]. simpl.
    assert (IH' := IH (fun H => Hout (or_intror H))).
    destruct (set_has x vis); simpl; lia.
Qed.

(** ** Topics within a distance: the invariant of the search *)

Section Neighbourhood.
Variable g : Graph.
Variable k : string.
Variable maxDistance : Q.
Hypothesis Hwf : well_formed g.
Hypothesis Hk : map_has k (topics g) = true.

(** [v] has been reached at distance [d]: along a path without repeated node
    whose inner nodes are all visited. *)
Definition found (st : BfsState) (v : string) (d : Q) : Prop :=
  exists p,
    path_from_to g k v p /\ NoDup p /\ path_weight g p = d /\
    (forall x, In x (removelast p) -> In x (bfs_visited st)) /\
    (v = k \/ d <= maxDistance).

(** The neighbour [v] of a node expanded at distance [q] has been looked
    at. *)
Definition looked_at (st : BfsState) (q : Q) (u v : string) : Prop :=
  In v (bfs_visited st) \/
  (q + weight g u v <= maxDistance -> map_has v (bfs_distances st) = true).

Record binv (busy : string -> Prop) (st : BfsState) : Prop := {
  b_start : map_has k (bfs_distances st) = true;
  b_nodup : NoDup (map_keys (bfs_distances st));
  b_dist : forall v d, map_get v (bfs_distances st) = Some d -> found st v d;
  b_queue : forall e, In e (queue st) ->
                      found st (topicId e) (node_distance e) /\
                      map_has (topicId e) (bfs_distances st) = true;
  b_reach : forall v, map_has v (bfs_distances st) = true ->
                      In v (bfs_visited st) \/ exists e, In e (queue st) /\ topicId e = v;
  b_vis : forall v, In v (bfs_visited st) -> map_has v (bfs_distances st) = true;
  b_done : forall u, In u (bfs_visited st) -> ~ busy u ->
                     exists q, found st u q /\
                               (maxDistance <= q \/
                                forall v, In v (neighbors g u) -> looked_at st q u v)
}.

Definition idle (u : string) : Prop := False.

Lemma found_mono (st st' : BfsState) (v : string) (d : Q) :
  (forall x, In x (bfs_visited st) -> In x (bfs_visited st')) ->
  found st v d -> found st' v d.
Proof.
  intros Hsub [p [Hp [Hnd [Hw [Hvis Hd]]]]]. exists p.
  split; [exact Hp |]. split; [exact Hnd |]. split; [exact Hw |]. split; [| exact Hd].
  intros x Hx. apply Hsub, Hvis, Hx.
Qed.

Lemma binv_init :
  binv idle (mkBfs (map_set k 0 []) [mkPathNode k 0 None] []).
Proof.
  assert (Hf : forall st, found st k 0).
  { intros st. exists [k].
    split; [apply path_from_to_single |]. split; [repeat constructor; intros [] |].
    split; [reflexivity |]. split; [intros x [] | now left]. }
  split; simpl.
  - unfold map_has. simpl. now rewrite String.eqb_refl.
  - repeat constructor. intros [].
  - intros v d. destruct (String.eqb v k) eqn:E; [| discriminate].
    apply String.eqb_eq in E. intros [= <-]. subst. apply Hf.
  - intros e [<- | []]. simpl. split; [apply Hf |].
    unfold map_has. simpl. now rewrite String.eqb_refl.
  - intros v Hv. right. exists (mkPathNode k 0 None). split; [now left |]. simpl.
    unfold map_has in Hv. simpl in Hv.
    destruct (String.eqb v k) eqn:E; [| discriminate]. apply String.eqb_eq in E. now subst.
  - intros v [].
  - intros u [].
Qed.

Lemma looked_at_mono (st st' : BfsState) (q : Q) (u v : string) :
  (forall x, In x (bfs_visited st) -> In x (bfs_visited st')) ->
  (forall x, map_has x (bfs_distances st) = true -> map_has x (bfs_distances st') = true) ->
  looked_at st q u v -> looked_at st' q u v.
Proof.
  intros Hvis Hdist [H | H]; [left; auto | right; auto].
Qed.

(** Every node of the path of a visited node is visited. *)
Lemma found_all_visited (st : BfsState) (c : string) (q : Q) (p : list string) :
  path_from_to g k c p ->
  (forall x, In x (removelast p) -> In x (bfs_visited st)) ->
  In c (bfs_visited st) ->
  forall x, In x p -> In x (bfs_visited st).
Proof.
  intros Hp Hinner Hc x Hx.
  destruct (In_removelast_or_last p k x Hx) as [H | H]; [now apply Hinner |].
  destruct Hp as [_ [Hlast _]]. rewrite Hlast in H. now subst.
Qed.

(** The state after the entry of the neighbour [n] has been written. *)
Lemma binv_push (busy : string -> Prop) (st : BfsState) (c n : string) (q : Q)
  (tag : option string) :
  binv busy st ->
  In c (bfs_visited st) ->
  found st c q ->
  In n (neighbors g c) ->
  ~ In n (bfs_visited st) ->
  q + weight g c n <= maxDistance ->
  binv busy (mkBfs (map_set n (q + weight g c n) (bfs_distances st))
                   (queue st ++ [mkPathNode n (q + weight g c n) tag])
                   (bfs_visited st)).
Proof.
  intros Hinv Hc [p [Hp [Hnd [Hw [Hinner _]]]]] Hn Hnv Hle.
  set (st' := mkBfs (map_set n (q + weight g c n) (bfs_distances st))
                    (queue st ++ [mkPathNode n (q + weight g c n) tag])
                    (bfs_visited st)).
  assert (Hall : forall x, In x p -> In x (bfs_visited st)).
  { now apply (found_all_visited st c q p). }
  assert (Hnew : found st' n (q + weight g c n)).
  { exists (p ++ [n]). split; [now apply path_from_to_snoc with (u := c) |].
    split; [| split; [| split]].
    - apply NoDup_app; [assumption | repeat constructor; intros [] |].
      intros x Hx [<- | []]. apply Hnv. now apply Hall.
    - rewrite (path_weight_step g k c n p Hp). now rewrite Hw.
    - rewrite removelast_last. exact Hall.
    - now right. }
  assert (Hold : forall v d, found st v d -> found st' v d).
  { intros v d. apply found_mono. auto. }
  assert (Hhas : forall v, map_has v (bfs_distances st) = true ->
                           map_has v (bfs_distances st') = true).
  { intros v Hv. simpl. rewrite map_has_set, Hv. apply orb_true_r. }
  split; simpl.
  - apply Hhas, (b_start _ _ Hinv).
  - apply map_keys_set_NoDup, (b_nodup _ _ Hinv).
  - intros v d. rewrite map_get_set. destruct (String.eqb v n) eqn:E.
    + apply String.eqb_eq in E. subst v. now intros [= <-].
    + intros Hv. apply Hold. now apply (b_dist _ _ Hinv).
  - intros e He. apply in_app_iff in He. destruct He as [He | [<- | []]].
    + destruct (b_queue _ _ Hinv e He) as [Hf Hm]. split; [now apply Hold | now apply Hhas].
    + simpl. split; [assumption |]. rewrite map_has_set, String.eqb_refl. reflexivity.
  - intros v. rewrite map_has_set. destruct (String.eqb v n) eqn:E; simpl.
    + apply String.eqb_eq in E. subst v. intros _. right.
      exists (mkPathNode n (q + weight g c n) tag). split; [| reflexivity].
      apply in_app_iff. right. now left.
    + intros Hv. destruct (b_reach _ _ Hinv v Hv) as [H | [e [He Hv']]]; [now left |].
      right. exists e. split; [| assumption]. apply in_app_iff. now left.
  - intros v Hv. apply Hhas. now apply (b_vis _ _ Hinv).
  - intros u Hu Hbusy. destruct (b_done _ _ Hinv u Hu Hbusy) as [qu [Hf Hq]].
    exists qu. split; [now apply Hold |].
    destruct Hq as [Hq | Hq]; [now left | right].
    intros v Hv. apply (looked_at_mono st st'); auto.
Qed.

Lemma expand_inv (current : PathNode) :
  forall ns st,
    binv (eq (topicId current)) st ->
    In (topicId current) (bfs_visited st) ->
    found st (topicId current) (node_distance current) ->
    (forall n, In n ns -> In n (neighbors g (topicId current))) ->
    exists st',
      expand g current maxDistance ns st = Ok st' /\
      binv (eq (topicId current)) st' /\
      bfs_visited st' = bfs_visited st /\
      (forall v, In v ns -> looked_at st' (node_distance current) (topicId current) v) /\
      (forall v, map_has v (bfs_distances st) = true ->
                 map_has v (bfs_distances st') = true) /\
      (length (queue st') <= length (queue st) + length ns)%nat.
Proof.
  induction ns as [| n ns IH]; intros st Hinv Hc Hf Hns; simpl.
  - exists st. split; [reflexivity |]. split; [assumption |]. split; [reflexivity |].
    split; [intros v [] |]. split; [auto | lia].
  - assert (Hn : In n (neighbors g (topicId current))) by (apply Hns; now left).
    assert (Hns' : forall x, In x ns -> In x (neighbors g (topicId current))).
    { intros x Hx. apply Hns. now right. }
    destruct (set_has n (bfs_visited st)) eqn:Evis; simpl.
    + apply set_has_In in Evis.
      destruct (IH st Hinv Hc Hf Hns') as [st' [Hr [Hinv' [Hvis [Hlook [Hmono Hlen]]]]]].
      exists st'. split; [assumption |]. split; [assumption |]. split; [assumption |].
      split; [| split; [assumption | lia]].
      intros v [<- | Hv]; [| now apply Hlook]. left. now rewrite Hvis.
    + apply set_has_false in Evis.
      destruct (wf_neighbors g Hwf _ _ Hn) as [Hck Hnk].
      rewrite (getEdgeWeight_ok g _ _ Hck Hnk). simpl bind.
      set (newDistance := node_distance current + weight g (topicId current) n).
      destruct (Qle_bool newDistance maxDistance &&
                match map_get n (bfs_distances st) with
                | Some old => Qltb newDistance old
                | None => true
                end) eqn:Econd.
      * apply andb_true_iff in Econd. destruct Econd as [Hle _].
        apply Qle_bool_iff in Hle.
        pose proof (binv_push _ st (topicId current) n (node_distance current)
                      (Some (topicId current)) Hinv Hc Hf Hn Evis Hle) as Hinv1.
        fold newDistance in Hinv1.
        assert (Hf1 : found (mkBfs (map_set n newDistance (bfs_distances st))
                                   (queue st ++ [mkPathNode n newDistance
                                                   (Some (topicId current))])
                                   (bfs_visited st))
                            (topicId current) (node_distance current)).
        { revert Hf. apply found_mono. auto. }
        destruct (IH _ Hinv1 Hc Hf1 Hns') as [st' [Hr [Hinv' [Hvis [Hlook [Hmono Hlen]]]]]].
        exists st'. split; [assumption |]. split; [assumption |]. split; [assumption |].
        simpl in Hmono, Hlen. rewrite length_app in Hlen. simpl in Hlen.
        split; [| split].
        -- intros v [<- | Hv]; [| now apply Hlook]. right. intros _. apply Hmono.
           rewrite map_has_set, String.eqb_refl. reflexivity.
        -- intros v Hv. apply Hmono. rewrite map_has_set, Hv. apply orb_true_r.
        -- lia.
      * destruct (IH st Hinv Hc Hf Hns') as [st' [Hr [Hinv' [Hvis [Hlook [Hmono Hlen]]]]]].
        exists st'. split; [assumption |]. split; [assumption |]. split; [assumption |].
        split; [| split; [assumption | lia]].
        intros v [<- | Hv]; [| now apply Hlook]. right. intros Hle. apply Hmono.
        apply Qle_bool_iff in Hle. fold newDistance in Hle. rewrite Hle in Econd.
        simpl in Econd. unfold map_has.
        destruct (map_get n (bfs_distances st)); [reflexivity | discriminate].
Qed.

(** An entry of the queue whose node is already visited is dropped. *)
Lemma binv_drop (st : BfsState) (current : PathNode) (rest : list PathNode) :
  binv idle st ->
  queue st = current :: rest ->
  In (topicId current) (bfs_visited st) ->
  binv idle (mkBfs (bfs_distances st) rest (bfs_visited st)).
Proof.
  intros Hinv Hq Hc. split; simpl; try apply Hinv.
  - intros e He. apply (b_queue _ _ Hinv). rewrite Hq. now right.
  - intros v Hv. destruct (b_reach _ _ Hinv v Hv) as [H | [e [He Hv']]]; [now left |].
    rewrite Hq in He. destruct He as [<- | He]; [left; now subst | right; eauto].
Qed.

(** The node of the dequeued entry becomes visited. *)
Lemma binv_visit (st : BfsState) (current : PathNode) (rest : list PathNode) :
  binv idle st ->
  queue st = current :: rest ->
  binv (eq (topicId current))
       (mkBfs (bfs_distances st) rest (set_add (topicId current) (bfs_visited st))) /\
  found (mkBfs (bfs_distances st) rest (set_add (topicId current) (bfs_visited st)))
        (topicId current) (node_distance current).
Proof.
  intros Hinv Hq.
  set (st' := mkBfs (bfs_distances st) rest (set_add (topicId current) (bfs_visited st))).
  assert (Hsub : forall x, In x (bfs_visited st) -> In x (bfs_visited st')).
  { intros x Hx. simpl. apply set_add_In. now right. }
  assert (Hcur : found st (topicId current) (node_distance current) /\
                 map_has (topicId current) (bfs_distances st) = true).
  { apply (b_queue _ _ Hinv). rewrite Hq. now left. }
  split; [| apply (found_mono st st'); tauto].
  split; simpl.
  - apply (b_start _ _ Hinv).
  - apply (b_nodup _ _ Hinv).
  - intros v d Hv. apply (found_mono st st'); [assumption |]. now apply (b_dist _ _ Hinv).
  - intros e He. destruct (b_queue _ _ Hinv e) as [Hf Hm]; [rewrite Hq; now right |].
    split; [| assumption]. now apply (found_mono st st').
  - intros v Hv. rewrite set_add_In.
    destruct (b_reach _ _ Hinv v Hv) as [H | [e [He Hv']]]; [tauto |].
    rewrite Hq in He. destruct He as [<- | He]; [left; left; now subst | right; eauto].
  - intros v Hv. apply set_add_In in Hv. destruct Hv as [-> | Hv]; [tauto |].
    now apply (b_vis _ _ Hinv).
  - intros u Hu Hbusy. apply set_add_In in Hu. destruct Hu as [-> | Hu]; [now elim Hbusy |].
    destruct (b_done _ _ Hinv u Hu) as [qu [Hf Hd]]; [intros [] |].
    exists qu. split; [now apply (found_mono st st') |].
    destruct Hd as [Hd | Hd]; [now left | right].
    intros v Hv. apply (looked_at_mono st st'); auto.
Qed.

(** The expansion of a node is over. *)
Lemma binv_finish (st : BfsState) (c : string) (q : Q) :
  binv (eq c) st ->
  found st c q ->
  (maxDistance <= q \/ forall v, In v (neighbors g c) -> looked_at st q c v) ->
  binv idle st.
Proof.
  intros Hinv Hf Hd. split; try apply Hinv.
  intros u Hu _. destruct (string_dec c u) as [<- | Hne].
  - exists q. tauto.
  - now apply (b_done _ _ Hinv).
Qed.

Lemma bfs_loop_spec (fuel : nat) :
  forall st,
    binv idle st ->
    (bfs_work g st < fuel)%nat ->
    exists st',
      bfs_loop fuel g maxDistance st = Ok st' /\ binv idle st' /\ queue st' = [].
Proof.
  induction fuel as [| fuel IH]; intros st Hinv Hfuel; [lia |]. simpl.
  destruct (queue st) as [| current rest] eqn:Hq.
  { exists st. auto. }
  unfold bfs_work in Hfuel. rewrite Hq in Hfuel. simpl in Hfuel.
  destruct (set_has (topicId current) (bfs_visited st)) eqn:Evis.
  - apply set_has_In in Evis. apply IH.
    + now apply (binv_drop st current rest).
    + unfold bfs_work. simpl. lia.
  - apply set_has_false in Evis.
    pose proof (degree_sum_visit g (bfs_visited st) (topicId current) Evis) as Hdeg.
    destruct (binv_visit st current rest Hinv Hq) as [Hinv1 Hf1].
    destruct (Qle_bool maxDistance (node_distance current)) eqn:Efar.
    + apply Qle_bool_iff in Efar. apply IH.
      * apply (binv_finish _ (topicId current) (node_distance current)); auto.
      * unfold bfs_work. simpl. lia.
    + destruct (expand_inv current (neighbors g (topicId current)) _ Hinv1)
        as [st2 [Hr [Hinv2 [Hvis [Hlook [_ Hlen]]]]]]; auto.
      { simpl. apply set_add_In. now left. }
      rewrite Hr. simpl bind. apply IH.
      * apply (binv_finish _ (topicId current) (node_distance current)); auto.
        revert Hf1. apply found_mono. rewrite Hvis. auto.
      * unfold bfs_work. rewrite Hvis. simpl in *. lia.
Qed.

End Neighbourhood.

(** ** Topics within a distance: the query *)

Lemma bfs_loop_more_fuel (g : Graph) (maxDistance : Q) (fuel : nat) :
  forall st st',
    bfs_loop fuel g maxDistance st = Ok st' ->
    forall fuel', (fuel <= fuel')%nat -> bfs_loop fuel' g maxDistance st = Ok st'.
Proof.
  induction fuel as [| fuel IH]; intros st st' H fuel' Hle; [discriminate |].
  destruct fuel' as [| fuel']; [lia |].
  simpl in *.
  destruct (queue st) as [| current rest]; [assumption |].
  destruct (set_has (topicId current) (bfs_visited st)).
  - apply IH; [assumption | lia].
  - destruct (Qle_bool maxDistance (node_distance current)).
    + apply IH; [assumption | lia].
    + destruct (expand g current maxDistance _ _) as [st2 | |]; simpl in *;
        try discriminate.
      apply IH; [assumption | lia].
Qed.

Lemma last_In {A : Type} (l : list A) (d : A) : l <> [] -> In (last l d) l.
Proof.
  intros H. destruct (exists_last H) as [l' [x ->]]. rewrite last_last.
  apply in_app_iff. right. now left.
Qed.

Lemma simple_path_to_self (g : Graph) (k : string) (p : list string) :
  path_from_to g k k p -> NoDup p -> p = [k].
Proof.
  intros [Hhd [Hlast _]] Hnd. destruct p as [| a p]; [discriminate |].
  injection Hhd as ->. destruct p as [| b p]; [reflexivity |]. exfalso.
  inversion Hnd as [| ? ? Hnot _]; subst. apply Hnot.
  change (last (b :: p) k = k) in Hlast. rewrite <- Hlast at 1.
  apply last_In. discriminate.
Qed.

Lemma NoDup_map_filter {A B : Type} (f : A -> B) (P : A -> bool) (l : list A) :
  NoDup (map f l) -> NoDup (map f (filter P l)).
Proof.
  induction l as [| x l IH]; simpl; intros H; [constructor |].
  inversion H as [| ? ? Hnot Hnd]; subst.
  destruct (P x); simpl; [| now apply IH].
  constructor; [| now apply IH].
  intros Hin. apply Hnot. apply in_map_iff in Hin. destruct Hin as [y [Hy Hin]].
  apply filter_In in Hin. apply in_map_iff. exists y. tauto.
Qed.


(** * Further properties *)

(** ** The nodes of a built graph *)

Lemma find_snoc {A : Type} (f : A -> bool) (l : list A) (x : A) :
  find f (l ++ [x]) =
  match find f l with
  | Some y => Some y
  | None => if f x then Some x else None
  end.
Proof.
  induction l as [| y l IH]; simpl; [reflexivity |].
  destruct (f y); [reflexivity | exact IH].
Qed.

Lemma map_has_keys {V : Type} (k : string) (m : Map V) :
  map_has k m = set_has k (map_keys m).
Proof.
  apply eq_true_iff_eq. now rewrite map_has_In, set_has_In.
Qed.

Lemma map_keys_set_add {V : Type} (k : string) (v : V) (m : Map V) :
  map_keys (map_set k v m) = set_add k (map_keys m).
Proof. rewrite map_keys_set. unfold set_add. now rewrite map_has_keys. Qed.

Lemma buildGraph_init_keys (ts : list ITopicData) :
  forall g,
    map_keys (topics (fold_left buildGraph_init ts g)) =
    fold_left (fun s x => set_add x s) (map id ts) (map_keys (topics g)).
Proof.
  induction ts as [| t ts IH]; intros g; simpl; [reflexivity |].
  rewrite IH. simpl. now rewrite map_keys_set_add.
Qed.

Lemma buildGraph_init_get (ts : list ITopicData) (k : string) :
  forall g,
    map_get k (topics (fold_left buildGraph_init ts g)) =
    match find (fun t => String.eqb (id t) k) (rev ts) with
    | Some t => Some t
    | None => map_get k (topics g)
    end.
Proof.
  induction ts as [| t ts IH]; intros g; simpl; [reflexivity |].
  rewrite IH, find_snoc. simpl.
  destruct (find (fun t0 => String.eqb (id t0) k) (rev ts)); [reflexivity |].
  rewrite map_get_set, (String.eqb_sym k (id t)).
  now destruct (String.eqb (id t) k).
Qed.

(** X1. The nodes of the graph are the ids of the records, in the order of
    their first occurrence; every node has an adjacency set; and the record
    kept for an id is the last one of the list with that id. *)
Theorem buildGraph_nodes (ts : list ITopicData) :
  map_keys (topics (buildGraph ts)) = set_of_list (map id ts) /\
  map_keys (adjacencyList (buildGraph ts)) = set_of_list (map id ts) /\
  forall k, map_get k (topics (buildGraph ts)) =
            find (fun t => String.eqb (id t) k) (rev ts).
Proof.
  pose proof (buildGraph_well_formed ts) as Hwf.
  assert (Hkeys : map_keys (topics (buildGraph ts)) = set_of_list (map id ts)).
  { rewrite buildGraph_topics, buildGraph_init_keys. reflexivity. }
  split; [exact Hkeys |]. split.
  - now rewrite (wf_keys _ Hwf).
  - intros k. rewrite buildGraph_topics, buildGraph_init_get. simpl.
    now destruct (find (fun t => String.eqb (id t) k) (rev ts)).
Qed.

(** ** The edges of a built graph *)

Lemma adjacent_adj_add (adj : Map StrSet) (k x u v : string) :
  In v (adjacent (adj_add k x adj) u) <->
  In v (adjacent adj u) \/ (u = k /\ v = x /\ map_has k adj = true).
Proof.
  unfold adjacent, map_has. rewrite adj_add_get.
  destruct (String.eqb u k) eqn:E.
  - apply String.eqb_eq in E. subst u.
    destruct (map_get k adj) as [s |].
    + rewrite set_add_In. intuition.
    + simpl. intuition discriminate.
  - apply String.eqb_neq in E.
    destruct (map_get u adj) as [s |]; intuition.
Qed.

Lemma adj_add_has (adj : Map StrSet) (k x u : string) :
  map_has u (adj_add k x adj) = map_has u adj.
Proof.
  apply eq_true_iff_eq. now rewrite !map_has_In, adj_add_keys.
Qed.

Lemma buildGraph_link_edges (g : Graph) (t : ITopicData) (u v : string) :
  map_keys (adjacencyList g) = map_keys (topics g) ->
  map_has (id t) (topics g) = true ->
  In v (neighbors (buildGraph_link g t) u) <->
  In v (neighbors g u) \/ links [t] (fun p => map_has p (topics g)) u v.
Proof.
  intros Hkeys Ht.
  assert (Hhas : forall k, map_has k (adjacencyList g) = map_has k (topics g)).
  { intros k. apply eq_true_iff_eq. now rewrite !map_has_In, Hkeys. }
  unfold links, buildGraph_link.
  destruct (parentTopicId t) as [p |] eqn:Ep.
  2:{ split; [now left |].
      intros [H | [t' [p [[<- | []] [H _]]]]]; [assumption | congruence]. }
  destruct (truthy (Some p) && map_has p (topics g)) eqn:Ec.
  - apply andb_true_iff in Ec. destruct Ec as [Htr Hp].
    simpl in Htr. apply negb_true_iff, String.eqb_neq in Htr.
    change (neighbors (mkGraph (topics g)
                         (adj_add (id t) p (adj_add p (id t) (adjacencyList g)))) u)
      with (adjacent (adj_add (id t) p (adj_add p (id t) (adjacencyList g))) u).
    change (neighbors g u) with (adjacent (adjacencyList g) u).
    rewrite !adjacent_adj_add, adj_add_has, !Hhas, Hp, Ht.
    split.
    + intros [[H | [-> [-> _]]] | [-> [-> _]]]; [now left | right | right];
        exists t, p; simpl; intuition.
    + intros [H | [t' [p' [[<- | []] [Hp' [_ [_ Hcase]]]]]]]; [now left; left |].
      rewrite Ep in Hp'. injection Hp' as <-. intuition.
  - split; [now left |].
    intros [H | [t' [p' [[<- | []] [Hp' [Hne [Hk _]]]]]]]; [assumption |].
    rewrite Ep in Hp'. injection Hp' as <-. exfalso.
    apply andb_false_iff in Ec. destruct Ec as [Ec | Ec]; [| congruence].
    simpl in Ec. apply negb_false_iff, String.eqb_eq in Ec. contradiction.
Qed.

Lemma buildGraph_links_fold (g0 : Graph) (u v : string) (l : list ITopicData) :
  forall g,
    topics g = topics g0 ->
    map_keys (adjacencyList g) = map_keys (topics g0) ->
    (forall t, In t l -> map_has (id t) (topics g0) = true) ->
    In v (neighbors (fold_left buildGraph_link l g) u) <->
    In v (neighbors g u) \/ links l (fun p => map_has p (topics g0)) u v.
Proof.
  induction l as [| t l IH]; intros g Htop Hkeys Hl; simpl.
  - split; [now left |]. intros [H | [t [p [[] _]]]]. assumption.
  - rewrite IH.
    + rewrite buildGraph_link_edges; [| congruence | rewrite Htop; apply Hl; now left].
      rewrite Htop. unfold links. split.
      * intros [[H | [t' [p [[<- | []] H]]]] | [t' [p [Hin H]]]].
        -- now left.
        -- right. exists t, p. simpl. tauto.
        -- right. exists t', p. simpl. tauto.
      * intros [H | [t' [p [[<- | Hin] H]]]].
        -- now left; left.
        -- left. right. exists t, p. simpl. tauto.
        -- right. exists t', p. tauto.
    + now rewrite buildGraph_link_topics.
    + now rewrite buildGraph_link_keys.
    + intros t' Ht'. apply Hl. now right.
Qed.

Lemma buildGraph_links (ts : list ITopicData) (u v : string) :
  In v (neighbors (buildGraph ts) u) <->
  links ts (fun p => map_has p (topics (buildGraph ts))) u v.
Proof.
  pose proof (buildGraph_init_ok ts) as [Hnd Hk Hid Hem].
  rewrite buildGraph_topics. unfold buildGraph.
  rewrite (buildGraph_links_fold (fold_left buildGraph_init ts empty_graph) u v ts);
    try reflexivity; try assumption.
  - rewrite Hem. simpl. tauto.
  - intros t Ht. rewrite buildGraph_init_has. simpl. apply existsb_exists.
    exists t. split; [assumption | apply String.eqb_refl].
Qed.

(** X2. Two topics are adjacent exactly when one record of the list, also
    one that a later record with the same id has replaced, names one of them
    as its id and the other as its parent, the parent id being non-empty and
    the id of a topic.  A parent id that is no topic gives no edge. *)
Theorem buildGraph_edges (ts : list ITopicData) (u v : string) :
  In v (neighbors (buildGraph ts) u) <->
  exists t p,
    In t ts /\ parentTopicId t = Some p /\ p <> "" /\
    map_has p (topics (buildGraph ts)) = true /\
    ((u = p /\ v = id t) \/ (u = id t /\ v = p)).
Proof. apply buildGraph_links. Qed.

Lemma buildGraph_link_NoDup (g : Graph) (t : ITopicData) :
  (forall k, NoDup (neighbors g k)) -> forall k, NoDup (neighbors (buildGraph_link g t) k).
Proof.
  intros H k. unfold buildGraph_link.
  destruct (parentTopicId t) as [p |]; [| apply H].
  destruct (truthy (Some p) && map_has p (topics g)); [| apply H].
  unfold neighbors. simpl. rewrite !adj_add_get.
  specialize (H k). unfold neighbors in H.
  destruct (map_get k (adjacencyList g)) as [s |]; [| constructor].
  destruct (String.eqb k p), (String.eqb k (id t)); repeat apply set_add_NoDup; exact H.
Qed.

(** X3. The graph is undirected and its adjacency sets are sets: [v] is a
    neighbour of [u] exactly when [u] is a neighbour of [v], and no neighbour
    is listed twice, however often the edge is declared. *)
Theorem buildGraph_undirected (ts : list ITopicData) (u v : string) :
  (In v (neighbors (buildGraph ts) u) <-> In u (neighbors (buildGraph ts) v)) /\
  NoDup (neighbors (buildGraph ts) u).
Proof.
  split.
  - rewrite !buildGraph_links. unfold links.
    split; intros [t [p [Hin [Hp [Hne [Hk Hcase]]]]]]; exists t, p; tauto.
  - revert u. unfold buildGraph. apply fold_left_invariant.
    + intros u. rewrite (init_empty _ (buildGraph_init_ok ts)). constructor.
    + intros g t _ H. now apply buildGraph_link_NoDup.
Qed.

(** ** Significant words *)

Lemma chars_app (a b : string) : chars (a ++ b) = (chars a ++ chars b)%list.
Proof.
  unfold chars. induction a as [| c a IH]; simpl; [reflexivity | now rewrite IH].
Qed.

Lemma chars_string_map (f : ascii -> ascii) (s : string) :
  chars (string_map f s) = map f (chars s).
Proof.
  unfold chars. induction s as [| c s IH]; simpl; [reflexivity | now rewrite IH].
Qed.

(** The pieces of [split(/\s+/)] are made of the code units of the text that
    are no white space. *)
Lemma split_ws_chars (s : string) :
  forall in_sep cur tok,
    In tok (split_ws in_sep cur s) ->
    forall c, In c (chars tok) ->
              In c (chars cur) \/ (In c (chars s) /\ is_space_char c = false).
Proof.
  induction s as [| a s IH]; intros in_sep cur tok Htok c Hc; simpl in Htok.
  - destruct Htok as [<- | []]. now left.
  - destruct (is_space_char a) eqn:Ea.
    + destruct in_sep.
      * destruct (IH _ _ _ Htok c Hc) as [H | [H1 H2]]; [now left |].
        right. split; [now right | assumption].
      * destruct Htok as [<- | Htok]; [now left |].
        destruct (IH _ _ _ Htok c Hc) as [[] | [H1 H2]].
        right. split; [now right | assumption].
    + destruct (IH _ _ _ Htok c Hc) as [H | [H1 H2]].
      * rewrite chars_app in H. apply in_app_iff in H.
        destruct H as [H | [<- | []]]; [now left |].
        right. split; [now left | assumption].
      * right. split; [now right | assumption].
Qed.

(** After [toLowerCase] and the replacement, a code unit is white space, a
    lower-case letter, a digit or the underscore. *)
Lemma cleaned_char (c : ascii) :
  let c' := lower_char c in
  let c'' := if is_word_char c' || is_space_char c' then c' else " "%char in
  is_space_char c'' = true \/ is_lower_word_char c'' = true.
Proof.
  destruct c as [[] [] [] [] [] [] [] []]; vm_compute; auto.
Qed.

(** X4. A significant word is longer than two code units, is no stop word,
    and is made of lower-case letters, digits and underscores only; no word is
    listed twice. *)
Theorem extractWords_words (text w : string) :
  In w (extractWords text) ->
  (2 < String.length w)%nat /\
  ~ In w stopWords /\
  Forall (fun c => is_lower_word_char c = true) (chars w) /\
  NoDup (extractWords text).
Proof.
  intros Hw. unfold extractWords in Hw. apply set_of_list_In, filter_In in Hw.
  destruct Hw as [Htok Hkeep]. apply andb_true_iff in Hkeep.
  destruct Hkeep as [Hlen Hstop].
  split; [now apply Nat.ltb_lt in Hlen |].
  split; [now apply set_has_false, negb_true_iff |].
  split; [| apply extractWords_NoDup].
  apply Forall_forall. intros c Hc.
  destruct (split_ws_chars _ _ _ _ Htok c Hc) as [[] | [Hin Hns]].
  unfold replace_non_word, toLowerCase in Hin.
  rewrite !chars_string_map, map_map in Hin. apply in_map_iff in Hin.
  destruct Hin as [c0 [<- _]].
  destruct (cleaned_char c0) as [H | H]; [congruence | exact H].
Qed.

Lemma extractWords_words_witness :
  (2 < String.length "c3po")%nat /\
  ~ In "c3po" stopWords /\
  Forall (fun c => is_lower_word_char c = true) (chars "c3po") /\
  NoDup (extractWords "The C3PO, and the c3po's a_b!").
Proof.
  apply (extractWords_words "The C3PO, and the c3po's a_b!" "c3po").
  vm_compute. auto.
Defined.

Lemma lower_char_idempotent (c : ascii) : lower_char (lower_char c) = lower_char c.
Proof. destruct c as [[] [] [] [] [] [] [] []]; reflexivity. Qed.

Lemma toLowerCase_idempotent (s : string) : toLowerCase (toLowerCase s) = toLowerCase s.
Proof.
  unfold toLowerCase. induction s as [| c s IH]; simpl; [reflexivity |].
  now rewrite lower_char_idempotent, IH.
Qed.

Lemma toLowerCase_app (a b : string) :
  toLowerCase (a ++ b) = (toLowerCase a ++ toLowerCase b)%string.
Proof.
  unfold toLowerCase. induction a as [| c a IH]; simpl; [reflexivity | now rewrite IH].
Qed.

Lemma topic_text_lowercased (t : ITopicData) :
  toLowerCase (topic_text (lowercased t)) = toLowerCase (topic_text t).
Proof.
  unfold topic_text, lowercased. cbn [name content].
  rewrite !toLowerCase_app, !toLowerCase_idempotent. reflexivity.
Qed.

Lemma significant_words_lowercased (t : ITopicData) :
  significant_words (lowercased t) = significant_words t.
Proof.
  unfold significant_words, extractWords. now rewrite topic_text_lowercased.
Qed.

(** X5. The case of letters plays no part in the similarity nor in the
    weight: putting the name and the content of either record in lower case
    changes neither. *)
Theorem similarity_ignores_case (a b : string) (ta tb : ITopicData) :
  calculateContentSimilarity (lowercased ta) tb = calculateContentSimilarity ta tb /\
  calculateContentSimilarity ta (lowercased tb) = calculateContentSimilarity ta tb /\
  edge_weight a b (lowercased ta) (lowercased tb) = edge_weight a b ta tb.
Proof.
  assert (H : forall t1 t2,
             calculateContentSimilarity (lowercased t1) t2
             = calculateContentSimilarity t1 t2).
  { intros t1 t2. rewrite !similarity_unfold. unfold common_count, union_count.
    now rewrite significant_words_lowercased. }
  split; [apply H |]. split.
  - rewrite (similarity_sym ta (lowercased tb)), H. apply similarity_sym.
  - rewrite !edge_weight_unfold, H.
    rewrite (similarity_sym ta (lowercased tb)), H. now rewrite (similarity_sym tb ta).
Qed.

(** ** Shortest paths on a well-formed graph *)

Lemma reconstruct_loop_more_fuel (prev : Map (option string)) (s : string) (fuel : nat) :
  forall cur acc p,
    reconstruct_loop fuel prev s cur acc = Ok p ->
    forall fuel', (fuel <= fuel')%nat -> reconstruct_loop fuel' prev s cur acc = Ok p.
Proof.
  induction fuel as [| fuel IH]; intros cur acc p H fuel' Hle; [discriminate |].
  destruct fuel' as [| fuel']; [lia |]. simpl in *.
  destruct cur as [c |]; [| assumption].
  destruct (String.eqb c s); [assumption |].
  apply IH; [assumption | lia].
Qed.

Lemma findShortestPath_more_fuel (g : Graph) (s e : string) (fuel fuel' : nat)
  (r : option ShortestPath) :
  findShortestPath fuel g s e = Ok r -> (fuel <= fuel')%nat ->
  findShortestPath fuel' g s e = Ok r.
Proof.
  unfold findShortestPath. intros H Hle.
  destruct (negb (map_has s (topics g)) || negb (map_has e (topics g))); [assumption |].
  destruct (String.eqb s e); [assumption |].
  destruct (dijkstra_loop fuel g e (dijkstra_init g s)) as [st | |] eqn:Hloop;
    simpl in H; try discriminate.
  rewrite (dijkstra_loop_more_fuel g e fuel _ st Hloop fuel' Hle). simpl.
  unfold reconstructPath in *.
  destruct (reconstruct_loop fuel (previous st) s (Some e) []) as [p | |] eqn:Hrec;
    simpl in H; try discriminate.
  rewrite (reconstruct_loop_more_fuel _ _ fuel _ _ p Hrec fuel' Hle). simpl.
  exact H.
Qed.

(** The answer of [findShortestPath] on any well-formed graph without empty
    id. *)
Lemma findShortestPath_outcome (g : Graph) (s e : string) :
  well_formed g ->
  map_has "" (topics g) = false ->
  map_has s (topics g) = true ->
  map_has e (topics g) = true ->
  exists r : option ShortestPath,
    (exists n, forall fuel, (n <= fuel)%nat -> findShortestPath fuel g s e = Ok r) /\
    (r = None <-> ~ reachable g s e) /\
    (forall sp, r = Some sp -> shortest_path_result g s e sp).
Proof.
  intros Hwf Hnonempty Hs He.
  destruct (string_dec s e) as [<- | Hne].
  - exists (Some (mkShortestPath [s] (Finite 0) [map_get s (topics g)])).
    split; [| split].
    + exists 0%nat. intros fuel _. unfold findShortestPath.
      rewrite Hs, String.eqb_refl. reflexivity.
    + split; [discriminate |]. intros Hun. exfalso. apply Hun.
      exists [s]. apply path_from_to_single.
    + intros sp [= <-]. unfold shortest_path_result. simpl.
      split; [apply path_from_to_single |]. repeat split.
      intros q Hq. change (path_weight g [s]) with 0.
      eapply path_weight_nonneg. exact Hq.
  - pose proof (inv_init g s e Hs Hne) as Hinit.
    set (st0 := dijkstra_init g s) in *.
    destruct (dijkstra_loop_spec g s e Hwf Hs He Hnonempty
                (S (length (unvisited st0))) st0 Hinit (Nat.lt_succ_diag_r _))
      as [st [Hloop [[d [p [Hd [Htr Hopt]]]] | [Hun Hprev]]]].
    + exists (Some (mkShortestPath p (Finite d) (hydrate g p))).
      assert (Hpath : path_from_to g s e p) by apply Htr.
      assert (Hw : path_weight g p = d) by apply Htr.
      split; [| split].
      * exists (Nat.max (S (length (unvisited st0))) (length p)). intros fuel Hfuel.
        unfold findShortestPath. rewrite Hs, He. simpl.
        rewrite (proj2 (String.eqb_neq s e) Hne). fold st0.
        rewrite (dijkstra_loop_more_fuel g e _ st0 st Hloop fuel) by lia.
        simpl bind.
        destruct (reconstructPath_traced g s e (previous st) d p fuel Htr)
          as [Hrec Hp]; [lia |].
        rewrite Hrec. simpl bind. rewrite Hd.
        destruct p; [congruence | reflexivity].
      * split; [discriminate |]. intros Hun. exfalso. apply Hun. now exists p.
      * intros sp [= <-]. unfold shortest_path_result. simpl.
        split; [assumption |]. split; [| split; [| split]].
        -- apply calculatePathDistance_path; [assumption | apply Hpath].
        -- now rewrite Hw.
        -- intros q Hq. rewrite Hw. now apply Hopt.
        -- reflexivity.
    + exists None. split; [| split].
      * exists (Nat.max (S (length (unvisited st0))) 2). intros fuel Hfuel.
        unfold findShortestPath. rewrite Hs, He. simpl.
        rewrite (proj2 (String.eqb_neq s e) Hne). fold st0.
        rewrite (dijkstra_loop_more_fuel g e _ st0 st Hloop fuel) by lia.
        simpl bind.
        destruct fuel as [| [| fuel]]; try lia.
        now rewrite (reconstructPath_unreachable s e (previous st) fuel Hne Hprev).
      * tauto.
      * discriminate.
Qed.

(** Whatever fuel made [findShortestPath] return, the answer is the one
    above. *)
Lemma findShortestPath_returned (g : Graph) (s e : string) (fuel : nat)
  (sp : ShortestPath) :
  well_formed g ->
  map_has "" (topics g) = false ->
  findShortestPath fuel g s e = Ok (Some sp) ->
  map_has s (topics g) = true /\ map_has e (topics g) = true /\
  shortest_path_result g s e sp.
Proof.
  intros Hwf Hnonempty H.
  assert (Hknown : map_has s (topics g) = true /\ map_has e (topics g) = true).
  { unfold findShortestPath in H.
    destruct (map_has s (topics g)), (map_has e (topics g)); simpl in H;
      try discriminate. auto. }
  destruct Hknown as [Hs He]. split; [assumption |]. split; [assumption |].
  destruct (findShortestPath_outcome g s e Hwf Hnonempty Hs He) as [r [[n Hn] [_ Hr]]].
  apply Hr.
  pose proof (findShortestPath_more_fuel g s e fuel (Nat.max fuel n) _ H
                (Nat.le_max_l _ _)) as H1.
  rewrite (Hn (Nat.max fuel n) (Nat.le_max_r _ _)) in H1. congruence.
Qed.

Lemma buildGraph_no_empty_id (ts : list ITopicData) :
  Forall (fun t => id t <> "") ts -> map_has "" (topics (buildGraph ts)) = false.
Proof.
  intros Hids. destruct (map_has "" (topics (buildGraph ts))) eqn:E; [| reflexivity].
  apply buildGraph_has in E. destruct E as [t [Hin Ht]].
  rewrite Forall_forall in Hids. now apply Hids in Hin.
Qed.

(** ** The weight of a path and its number of hops *)

Lemma hops_snoc (p : list string) (x : string) :
  p <> [] -> hops (p ++ [x]) = S (hops p).
Proof.
  intros Hp. unfold hops. rewrite length_app. simpl.
  destruct p; [congruence | simpl; lia].
Qed.

Lemma path_weight_hops (g : Graph) (a b : string) (p : list string) :
  well_formed g ->
  path_from_to g a b p -> within_hop_bounds p (path_weight g p).
Proof.
  intros Hwf. revert b p.
  apply (path_from_to_ind' g a (fun _ p => within_hop_bounds p (path_weight g p))).
  - unfold within_hop_bounds. simpl. split; [apply Qle_refl | discriminate].
  - intros p u x Hp [IH1 IH2] Hx. unfold within_hop_bounds.
    rewrite (path_weight_step g a u x p Hp).
    destruct (wf_neighbors g Hwf u x Hx) as [Hu Hxk].
    pose proof (weight_range g u x Hu Hxk) as [Hw1 Hw2].
    assert (Hne : p <> []) by (destruct Hp as [Hhd _]; intros ->; discriminate).
    rewrite (hops_snoc p x Hne), Nat2Z.inj_succ, <- Z.add_1_r, inject_Z_plus.
    change (inject_Z 1) with 1. split; lra.
Qed.

(** X6. The distance of a shortest path lies between its number of hops and
    one and a half times that number. *)
Theorem findShortestPath_distance_bounds (ts : list ITopicData) (startId endId : string)
  (fuel : nat) (sp : ShortestPath) :
  Forall (fun t => id t <> "") ts ->
  findShortestPath fuel (buildGraph ts) startId endId = Ok (Some sp) ->
  exists d, distance sp = Finite d /\ within_hop_bounds (path sp) d.
Proof.
  intros Hids H. pose proof (buildGraph_well_formed ts) as Hwf.
  destruct (findShortestPath_returned _ _ _ _ _ Hwf (buildGraph_no_empty_id ts Hids) H)
    as [_ [_ [Hpath [_ [Hd _]]]]].
  exists (path_weight (buildGraph ts) (path sp)). split; [assumption |].
  eapply path_weight_hops; eauto.
Qed.

Lemma findShortestPath_distance_bounds_witness :
  exists d,
    Finite (12480 # 2304) = Finite d /\
    within_hop_bounds ["grandchild1"; "child1"; "root"; "child2"; "grandchild2"] d.
Proof.
  apply (findShortestPath_distance_bounds sampleTopics "grandchild1" "grandchild2" 10
           (mkShortestPath ["grandchild1"; "child1"; "root"; "child2"; "grandchild2"]
              (Finite (12480 # 2304))
              (hydrate (buildGraph sampleTopics)
                 ["grandchild1"; "child1"; "root"; "child2"; "grandchild2"]))).
  - repeat constructor; discriminate.
  - vm_compute. reflexivity.
Defined.

(** ** Reversing and shortening paths *)

Lemma path_weight_from_acc (g : Graph) (p : list string) :
  forall acc, path_weight_from g p acc == acc + path_weight g p.
Proof.
  induction p as [| a p IH]; intros acc.
  - unfold path_weight. simpl. lra.
  - destruct p as [| b p].
    + unfold path_weight. simpl. lra.
    + unfold path_weight.
      change (path_weight_from g (a :: b :: p) acc)
        with (path_weight_from g (b :: p) (acc + weight g a b)).
      change (path_weight_from g (a :: b :: p) 0)
        with (path_weight_from g (b :: p) (0 + weight g a b)).
      rewrite (IH (acc + weight g a b)), (IH (0 + weight g a b)). lra.
Qed.

Lemma path_weight_cons (g : Graph) (a b : string) (rest : list string) :
  path_weight g (a :: b :: rest) == weight g a b + path_weight g (b :: rest).
Proof.
  unfold path_weight at 1.
  change (path_weight_from g (a :: b :: rest) 0)
    with (path_weight_from g (b :: rest) (0 + weight g a b)).
  rewrite path_weight_from_acc. lra.
Qed.

Lemma weight_sym (g : Graph) (u v : string) : weight g u v = weight g v u.
Proof.
  unfold weight, getEdgeWeight.
  destruct (map_get u (topics g)), (map_get v (topics g)); try reflexivity.
  apply edge_weight_sym.
Qed.

Lemma path_from_to_cons (g : Graph) (x u b : string) (q : list string) :
  In u (neighbors g x) -> path_from_to g u b q -> path_from_to g x b (x :: q).
Proof.
  intros Hx [Hhd [Hlast Hq]]. destruct q as [| y q]; [discriminate |].
  simpl in Hhd. injection Hhd as ->.
  split; [reflexivity |]. split.
  - change (last (u :: q) x = b). now rewrite (last_default u q x u).
  - split; assumption.
Qed.

Lemma path_from_to_tail (g : Graph) (x y b : string) (q : list string) :
  path_from_to g x b (x :: y :: q) ->
  In y (neighbors g x) /\ path_from_to g y b (y :: q).
Proof.
  intros [_ [Hlast [Hxy Hq]]]. split; [assumption |].
  split; [reflexivity |]. split; [| assumption].
  change (last (y :: q) x = b) in Hlast. now rewrite (last_default y q y x).
Qed.

(** On an undirected graph a path read backwards is a path, of the same
    weight. *)
Lemma path_reverse (g : Graph) (a : string) :
  (forall u v, In v (neighbors g u) -> In u (neighbors g v)) ->
  forall b p, path_from_to g a b p ->
              path_from_to g b a (rev p) /\ path_weight g (rev p) == path_weight g p.
Proof.
  intros Hsym.
  apply (path_from_to_ind' g a
           (fun b p => path_from_to g b a (rev p) /\
                       path_weight g (rev p) == path_weight g p)).
  - simpl. split; [apply path_from_to_single | reflexivity].
  - intros p u x Hp [IH1 IH2] Hx. rewrite rev_app_distr. simpl.
    split; [apply path_from_to_cons with (u := u); auto |].
    rewrite (path_weight_step g a u x p Hp).
    destruct (rev p) as [| y q] eqn:E; [destruct IH1 as [H _]; discriminate |].
    destruct IH1 as [Hhd _]. simpl in Hhd. injection Hhd as ->.
    rewrite path_weight_cons, IH2, (weight_sym g x u). lra.
Qed.

Lemma is_path_split (g : Graph) (q1 q2 : list string) (x : string) :
  is_path g (q1 ++ x :: q2) -> is_path g (q1 ++ [x]) /\ is_path g (x :: q2).
Proof.
  induction q1 as [| a q1 IH]; simpl.
  - intros H. split; [exact I | exact H].
  - destruct q1 as [| b q1]; simpl in *.
    + intros [Hax H]. tauto.
    + intros [Hab H]. apply IH in H. tauto.
Qed.

Lemma path_weight_split (g : Graph) (q1 q2 : list string) (x : string) :
  path_weight g (q1 ++ x :: q2) == path_weight g (q1 ++ [x]) + path_weight g (x :: q2).
Proof.
  induction q1 as [| a q1 IH].
  - simpl. change (path_weight g [x]) with 0. lra.
  - destruct q1 as [| b q1].
    + simpl. rewrite !path_weight_cons. change (path_weight g [x]) with 0. lra.
    + change ((a :: b :: q1) ++ x :: q2) with (a :: b :: (q1 ++ x :: q2)).
      change ((a :: b :: q1) ++ [x]) with (a :: b :: (q1 ++ [x])).
      rewrite !path_weight_cons.
      change (b :: q1 ++ x :: q2) with ((b :: q1) ++ x :: q2).
      change (b :: q1 ++ [x]) with ((b :: q1) ++ [x]).
      rewrite IH. lra.
Qed.

Lemma last_app_cons {A : Type} (l1 l2 : list A) (x d : A) :
  last (l1 ++ x :: l2) d = last (x :: l2) d.
Proof.
  induction l1 as [| a l1 IH]; [reflexivity |].
  rewrite <- IH. simpl. destruct (l1 ++ x :: l2) eqn:E; [| reflexivity].
  destruct l1; discriminate.
Qed.

(** A path that visits a node twice can be shortened. *)
Lemma path_shorten (g : Graph) :
  well_formed g ->
  forall p a b,
    path_from_to g a b p -> ~ NoDup p ->
    exists p', path_from_to g a b p' /\ path_weight g p' < path_weight g p.
Proof.
  intros Hwf. induction p as [| x rest IH]; intros a b Hp Hnd.
  - destruct Hp as [H _]. discriminate.
  - assert (Hax : x = a) by (destruct Hp as [H _]; now injection H). subst x.
    destruct rest as [| y rest]; [exfalso; apply Hnd; repeat constructor; intros [] |].
    destruct (path_from_to_tail g a y b rest Hp) as [Hay Hrest].
    destruct (in_dec string_dec a (y :: rest)) as [Hin | Hout].
    + apply in_split in Hin. destruct Hin as [l1 [l2 Heq]]. rewrite Heq in *.
      destruct Hp as [_ [Hlast Hpath]].
      change (a :: l1 ++ a :: l2) with ((a :: l1) ++ a :: l2) in Hpath, Hlast.
      apply is_path_split in Hpath. destruct Hpath as [Hloop Htail].
      exists (a :: l2). split.
      * split; [reflexivity |]. split; [| assumption].
        now rewrite last_app_cons in Hlast.
      * change (a :: l1 ++ a :: l2) with ((a :: l1) ++ a :: l2).
        rewrite path_weight_split.
        assert (Hcycle : path_from_to g a a ((a :: l1) ++ [a])).
        { split; [reflexivity |]. split; [apply last_last | assumption]. }
        destruct (path_weight_hops g a a _ Hwf Hcycle) as [Hlow _].
        unfold hops in Hlow. rewrite length_app in Hlow. simpl in Hlow.
        replace (length l1 + 1 - 0)%nat with (S (length l1)) in Hlow by lia.
        rewrite Nat2Z.inj_succ, <- Z.add_1_r, inject_Z_plus in Hlow.
        change (inject_Z 1) with 1 in Hlow.
        assert (H0 : 0 <= inject_Z (Z.of_nat (length l1))).
        { change 0 with (inject_Z 0). rewrite <- Zle_Qle. lia. }
        change (path_weight g ((a :: l1) ++ [a])) with (path_weight g (a :: l1 ++ [a])).
        lra.
    + assert (Hnd' : ~ NoDup (y :: rest)).
      { intros H. apply Hnd. now constructor. }
      destruct (IH y b Hrest Hnd') as [p' [Hp' Hlt]].
      exists (a :: p'). split; [now apply path_from_to_cons with (u := y) |].
      destruct p' as [| y' p']; [destruct Hp' as [H _]; discriminate |].
      assert (y' = y) by (destruct Hp' as [H _]; now injection H). subst y'.
      rewrite !path_weight_cons. lra.
Qed.

Lemma hydrate_known (g : Graph) (p : list string) :
  well_formed g ->
  (forall x, In x p -> map_has x (topics g) = true) ->
  exists records, hydrate g p = map Some records /\ map id records = p.
Proof.
  intros Hwf. induction p as [| x p IH]; intros Hp.
  - exists []. split; reflexivity.
  - destruct IH as [records [Hh Hid]]; [intros y Hy; apply Hp; now right |].
    assert (Hx : map_has x (topics g) = true) by (apply Hp; now left).
    unfold map_has in Hx. destruct (map_get x (topics g)) as [t |] eqn:E; [| discriminate].
    exists (t :: records). simpl. rewrite E, Hh, Hid, (wf_ids g Hwf x t E). auto.
Qed.

(** X7. A shortest path never visits a topic twice, so it has no more nodes
    than the graph; and every id of the path is hydrated with the record of
    that id. *)
Theorem findShortestPath_simple_hydrated (ts : list ITopicData) (startId endId : string)
  (fuel : nat) (sp : ShortestPath) :
  Forall (fun t => id t <> "") ts ->
  findShortestPath fuel (buildGraph ts) startId endId = Ok (Some sp) ->
  NoDup (path sp) /\
  (length (path sp) <= map_size (topics (buildGraph ts)))%nat /\
  exists records, path_topics sp = map Some records /\ map id records = path sp.
Proof.
  intros Hids H. pose proof (buildGraph_well_formed ts) as Hwf.
  set (g := buildGraph ts) in *.
  destruct (findShortestPath_returned _ _ _ _ _ Hwf (buildGraph_no_empty_id ts Hids) H)
    as [Hs [_ [Hpath [_ [_ [Hmin Hhyd]]]]]].
  assert (Hknown : forall x, In x (path sp) -> map_has x (topics g) = true).
  { now apply (path_nodes_known g startId endId (path sp) Hwf Hs). }
  assert (Hnd : NoDup (path sp)).
  { destruct (ListDec.NoDup_dec string_dec (path sp)) as [Hnd | Hnd]; [assumption |].
    destruct (path_shorten g Hwf _ _ _ Hpath Hnd) as [p' [Hp' Hlt]].
    specialize (Hmin p' Hp'). lra. }
  split; [assumption |]. split.
  - unfold map_size. rewrite <- (length_map fst (topics g)).
    apply NoDup_incl_length; [assumption |].
    intros x Hx. apply map_has_In. now apply Hknown.
  - rewrite Hhyd. now apply hydrate_known.
Qed.

Lemma findShortestPath_simple_hydrated_witness :
  NoDup ["child1"; "root"; "child2"] /\
  (length ["child1"; "root"; "child2"] <= map_size (topics (buildGraph sampleTopics)))%nat /\
  exists records,
    hydrate (buildGraph sampleTopics) ["child1"; "root"; "child2"] = map Some records /\
    map id records = ["child1"; "root"; "child2"].
Proof.
  apply (findShortestPath_simple_hydrated sampleTopics "child1" "child2" 10
           (mkShortestPath ["child1"; "root"; "child2"] (Finite (176 # 64))
              (hydrate (buildGraph sampleTopics) ["child1"; "root"; "child2"]))).
  - repeat constructor; discriminate.
  - vm_compute. reflexivity.
Defined.

(** ** The two directions of a shortest path *)

Lemma findShortestPath_answer (g : Graph) (s e : string) (fuel : nat)
  (r : option ShortestPath) :
  well_formed g ->
  map_has "" (topics g) = false ->
  map_has s (topics g) = true ->
  map_has e (topics g) = true ->
  findShortestPath fuel g s e = Ok r ->
  (r = None <-> ~ reachable g s e) /\
  (forall sp, r = Some sp -> shortest_path_result g s e sp).
Proof.
  intros Hwf Hnonempty Hs He H.
  destruct (findShortestPath_outcome g s e Hwf Hnonempty Hs He) as [r0 [[n Hn] Hr]].
  pose proof (findShortestPath_more_fuel g s e fuel (Nat.max fuel n) _ H
                (Nat.le_max_l _ _)) as H1.
  rewrite (Hn (Nat.max fuel n) (Nat.le_max_r _ _)) in H1.
  injection H1 as <-. exact Hr.
Qed.

(** X8. The search from [a] to [b] and the search from [b] to [a] mirror
    each other: both return null, or both return a path; the path returned
    one way, read backwards, is a path of the graph the other way, and the
    distance returned the other way is at most the sum of the weights along
    that reversed path. *)
Theorem findShortestPath_symmetric (ts : list ITopicData) (a b : string) (fuel : nat)
  (r1 r2 : option ShortestPath) :
  Forall (fun t => id t <> "") ts ->
  findShortestPath fuel (buildGraph ts) a b = Ok r1 ->
  findShortestPath fuel (buildGraph ts) b a = Ok r2 ->
  mirrored (buildGraph ts) a b r1 r2.
Proof.
  intros Hids H1 H2. pose proof (buildGraph_well_formed ts) as Hwf.
  pose proof (buildGraph_no_empty_id ts Hids) as Hne.
  set (g := buildGraph ts) in *.
  destruct (map_has a (topics g) && map_has b (topics g)) eqn:Ek.
  2:{ unfold findShortestPath in H1, H2. rewrite (andb_comm (map_has a (topics g))) in Ek.
      assert (E1 : negb (map_has a (topics g)) || negb (map_has b (topics g)) = true).
      { destruct (map_has a (topics g)), (map_has b (topics g)); auto; discriminate. }
      assert (E2 : negb (map_has b (topics g)) || negb (map_has a (topics g)) = true).
      { now rewrite orb_comm. }
      rewrite E1 in H1. rewrite E2 in H2.
      injection H1 as <-. injection H2 as <-. exact I. }
  apply andb_true_iff in Ek. destruct Ek as [Ha Hb].
  assert (Hsym : forall u v, In v (neighbors g u) -> In u (neighbors g v)).
  { intros u v. unfold g. rewrite !buildGraph_links. unfold links.
    intros [t [p [Hin [Hp [Hp0 [Hk Hcase]]]]]]. exists t, p. tauto. }
  destruct (findShortestPath_answer g a b fuel r1 Hwf Hne Ha Hb H1) as [Hn1 Hr1].
  destruct (findShortestPath_answer g b a fuel r2 Hwf Hne Hb Ha H2) as [Hn2 Hr2].
  destruct r1 as [s1 |], r2 as [s2 |]; simpl.
  - destruct (Hr1 s1 eq_refl) as [Hp1 [_ [Hd1 [Hm1 _]]]].
    destruct (Hr2 s2 eq_refl) as [Hp2 [_ [Hd2 [Hm2 _]]]].
    destruct (path_reverse g a Hsym b _ Hp1) as [Hq1 _].
    destruct (path_reverse g b Hsym a _ Hp2) as [Hq2 _].
    split; [exact Hq1 |]. split; [exact Hq2 |].
    exists (path_weight g (path s1)), (path_weight g (path s2)).
    split; [assumption |]. split; [assumption |].
    split; [now apply Hm2 | now apply Hm1].
  - destruct (Hr1 s1 eq_refl) as [Hp1 _].
    apply (proj1 Hn2 eq_refl). exists (rev (path s1)).
    now apply (path_reverse g a Hsym b).
  - destruct (Hr2 s2 eq_refl) as [Hp2 _].
    apply (proj1 Hn1 eq_refl). exists (rev (path s2)).
    now apply (path_reverse g b Hsym a).
  - exact I.
Qed.

Lemma findShortestPath_symmetric_witness :
  mirrored (buildGraph sampleTopics) "root" "grandchild1"
    (Some (mkShortestPath ["root"; "child1"; "grandchild1"] (Finite (130 # 48))
             (hydrate (buildGraph sampleTopics) ["root"; "child1"; "grandchild1"])))
    (Some (mkShortestPath ["grandchild1"; "child1"; "root"] (Finite (130 # 48))
             (hydrate (buildGraph sampleTopics) ["grandchild1"; "child1"; "root"]))).
Proof.
  apply (findShortestPath_symmetric sampleTopics "root" "grandchild1" 10).
  - repeat constructor; discriminate.
  - vm_compute. reflexivity.
  - vm_compute. reflexivity.
Defined.

(** ** Walking the predecessors back, on any predecessor map *)

Lemma prev_linked_snoc (prev : Map (option string)) (l : list string) (u c : string) :
  prev_linked prev (l ++ [u]) -> get_previous prev c = Some u ->
  prev_linked prev ((l ++ [u]) ++ [c]).
Proof.
  intros Hl Hc. induction l as [| a l IH]; simpl.
  - auto.
  - destruct l as [| b l]; simpl in *.
    + destruct Hl as [Hau _]. auto.
    + destruct Hl as [Hab Hl]. split; [assumption |]. now apply IH.
Qed.

Lemma reconstruct_loop_shape (prev : Map (option string)) (s : string) (fuel : nat) :
  forall c acc p,
    reconstruct_loop fuel prev s (Some c) acc = Ok p ->
    exists front, p = front ++ c :: acc /\ prev_linked prev (front ++ [c]).
Proof.
  induction fuel as [| fuel IH]; intros c acc p H; [discriminate |].
  simpl in H. destruct (String.eqb c s).
  - injection H as <-. exists []. split; [reflexivity | exact I].
  - destruct (get_previous prev c) as [u |] eqn:Eu.
    + destruct (IH u (c :: acc) p H) as [front [Hp Hl]].
      exists (front ++ [u]). split; [now rewrite <- app_assoc |].
      now apply prev_linked_snoc.
    + destruct fuel as [| fuel]; [discriminate |]. simpl in H. injection H as <-.
      exists []. split; [reflexivity | exact I].
Qed.

(** X9. Whatever the predecessor map, a path that [reconstructPath] returns
    is empty or leads from the start to the end, each node being the
    predecessor of the next. *)
Theorem reconstructPath_shape (fuel : nat) (prev : Map (option string))
  (startId endId : string) (p : list string) :
  reconstructPath fuel prev startId endId = Ok p ->
  p = [] \/
  (hd_error p = Some startId /\ last p startId = endId /\ prev_linked prev p).
Proof.
  unfold reconstructPath. intros H.
  destruct (reconstruct_loop fuel prev startId (Some endId) []) as [q | |] eqn:E;
    simpl in H; try discriminate.
  destruct (reconstruct_loop_shape prev startId fuel endId [] q E) as [front [Hq Hl]].
  destruct q as [| first q]; [left; congruence |].
  destruct (String.eqb first startId) eqn:Ef; injection H as <-; [right | now left].
  apply String.eqb_eq in Ef. subst first.
  split; [reflexivity |]. rewrite Hq. split; [apply last_last | exact Hl].
Qed.

Lemma reconstructPath_shape_witness :
  ["a"; "b"; "c"] = [] \/
  (hd_error ["a"; "b"; "c"] = Some "a" /\ last ["a"; "b"; "c"] "a" = "c" /\
   prev_linked [("a", None); ("b", Some "a"); ("c", Some "b")] ["a"; "b"; "c"]).
Proof.
  apply (reconstructPath_shape 5 [("a", None); ("b", Some "a"); ("c", Some "b")] "a" "c").
  reflexivity.
Defined.

(** ** All paths: nothing is left out *)

Lemma for_each_unvisited_complete (visit : string -> DfsState -> result DfsState)
  (C : string -> list string -> Prop) (cp : list string) (vis : StrSet) (ns0 : list string) :
  (forall n s, In n ns0 -> currentPath s = cp -> dfs_visited s = vis -> ~ In n vis ->
               exists s', visit n s = Ok s' /\
                          currentPath s' = cp /\ dfs_visited s' = vis /\
                          (exists new, allPaths s' = allPaths s ++ new) /\
                          forall p, C n p -> In p (allPaths s')) ->
  forall ns s,
    incl ns ns0 -> currentPath s = cp -> dfs_visited s = vis ->
    exists s', for_each_unvisited visit ns s = Ok s' /\
               (exists new, allPaths s' = allPaths s ++ new) /\
               forall n p, In n ns -> ~ In n vis -> C n p -> In p (allPaths s').
Proof.
  intros Hvisit. induction ns as [| n ns IH]; intros s Hincl Hcp Hvis; simpl.
  - exists s. split; [reflexivity |]. split; [exists []; now rewrite app_nil_r |].
    intros n p [].
  - assert (Hn : In n ns0) by (apply Hincl; now left).
    assert (Hns : incl ns ns0) by (intros x Hx; apply Hincl; now right).
    destruct (set_has n (dfs_visited s)) eqn:E; simpl.
    + apply set_has_In in E. rewrite Hvis in E.
      destruct (IH s Hns Hcp Hvis) as [s' [Hr [Hnew Hall]]].
      exists s'. split; [assumption |]. split; [assumption |].
      intros m p [<- | Hm] Hmv Hc; [contradiction | eauto].
    + apply set_has_false in E. rewrite Hvis in E.
      destruct (Hvisit n s Hn Hcp Hvis E) as [s1 [-> [Hcp1 [Hvis1 [[new1 Hnew1] Hall1]]]]].
      simpl.
      destruct (IH s1 Hns Hcp1 Hvis1) as [s2 [Hr [[new2 Hnew2] Hall2]]].
      exists s2. split; [assumption |].
      split; [exists (new1 ++ new2); now rewrite Hnew2, Hnew1, app_assoc |].
      intros m p [<- | Hm] Hmv Hc; [| eauto].
      rewrite Hnew2. apply in_app_iff. left. now apply Hall1.
Qed.

Lemma dfsAllPaths_complete (g : Graph) (endId : string) (depthBound : Z) (fuel : nat) :
  forall (c : string) (st : DfsState),
    (forall x, In x (dfs_visited st) <-> In x (currentPath st)) ->
    NoDup (currentPath st) ->
    ~ In c (currentPath st) ->
    (Z.to_nat (depthBound + 1 - Z.of_nat (length (currentPath st))) < fuel)%nat ->
    exists st',
      dfsAllPaths fuel g c endId depthBound st = Ok st' /\
      currentPath st' = currentPath st /\
      dfs_visited st' = dfs_visited st /\
      (exists new, allPaths st' = allPaths st ++ new) /\
      forall p, found_below g endId depthBound (currentPath st) c p -> In p (allPaths st').
Proof.
  induction fuel as [| fuel IH]; intros c st Hvis Hnd Hc Hfuel; [lia |].
  simpl. destruct (depthBound <? Z.of_nat (length (currentPath st)))%Z eqn:Edepth.
  { exists st. repeat split; try reflexivity.
    - exists []. now rewrite app_nil_r.
    - intros p [tail [-> [_ [_ [_ Hlen]]]]]. apply Z.ltb_lt in Edepth.
      rewrite length_app in Hlen. simpl in Hlen. lia. }
  apply Z.ltb_ge in Edepth.
  set (pushed := currentPath st ++ [c]).
  assert (Hc' : ~ In c (dfs_visited st)) by now rewrite Hvis.
  assert (Hndp : NoDup pushed).
  { unfold pushed. apply NoDup_app; [assumption | repeat constructor; intros [] |].
    intros y Hy [<- | []]. contradiction. }
  assert (Hlen : length pushed = S (length (currentPath st))).
  { unfold pushed. rewrite length_app. simpl. lia. }
  destruct (String.eqb c endId) eqn:Eend.
  - apply String.eqb_eq in Eend. simpl.
    eexists. split; [reflexivity |]. simpl.
    split; [apply removelast_snoc |]. split; [now apply set_delete_add_fresh |].
    split; [exists [pushed]; reflexivity |].
    intros p [tail [-> [_ [Hlast [Hpnd _]]]]].
    apply in_app_iff. right. left. unfold pushed.
    destruct tail as [| n tail]; [reflexivity |]. exfalso.
    apply NoDup_remove_2 in Hpnd. apply Hpnd. apply in_app_iff. right.
    change (last (n :: tail) c = endId) in Hlast. rewrite <- Eend in Hlast.
    rewrite <- Hlast at 1. apply last_In. discriminate.
  - apply String.eqb_neq in Eend.
    destruct (for_each_unvisited_complete
                (fun n s => dfsAllPaths fuel g n endId depthBound s)
                (fun n p => found_below g endId depthBound pushed n p)
                pushed (set_add c (dfs_visited st)) (neighbors g c))
      with (ns := neighbors g c)
           (s := mkDfs pushed (set_add c (dfs_visited st)) (allPaths st))
      as [s2 [Hs2 [[new Hnew] Hall]]]; try reflexivity; try apply incl_refl.
    { intros n s Hn Hcp Hv Hnot. rewrite <- Hcp. rewrite <- Hv. apply IH.
      - intros x. rewrite Hv, Hcp, set_add_In. unfold pushed. rewrite in_app_iff.
        simpl. rewrite Hvis. intuition.
      - now rewrite Hcp.
      - rewrite Hcp. intros Hin. apply Hnot. rewrite set_add_In. unfold pushed in Hin.
        apply in_app_iff in Hin. simpl in Hin. rewrite Hvis. intuition.
      - rewrite Hcp, Hlen. lia. }
    destruct (dfsAllPaths_spec g endId depthBound (S fuel) c st Hvis Hnd Hc Hfuel)
      as [st' [Hst' [Hcp' [Hvis' _]]]].
    simpl in Hst'. rewrite (proj2 (Z.ltb_ge _ _) Edepth) in Hst'.
    rewrite (proj2 (String.eqb_neq c endId) Eend) in Hst'.
    fold pushed in Hst'. rewrite Hs2 in Hst'. simpl in Hst'.
    rewrite Hs2. simpl. eexists. split; [reflexivity |].
    injection Hst' as <-. simpl in *.
    split; [assumption |]. split; [assumption |].
    split; [exists new; assumption |].
    intros p [tail [-> [Hpath [Hlast [Hpnd Hplen]]]]].
    destruct tail as [| n tail]; [simpl in Hlast; congruence |].
    destruct Hpath as [Hn Hpath].
    assert (Hp : currentPath st ++ c :: n :: tail = pushed ++ n :: tail).
    { unfold pushed. now rewrite <- app_assoc. }
    apply (Hall n).
    + assumption.
    + rewrite Hp in Hpnd. apply NoDup_remove_2 in Hpnd.
      intros Hin. apply Hpnd. apply in_app_iff. left.
      apply set_add_In in Hin. unfold pushed. apply in_app_iff. simpl.
      destruct Hin as [-> | Hin]; [right; now left | left; now apply Hvis].
    + exists tail. rewrite <- Hp. repeat split; auto.
      change (last (n :: tail) c = endId) in Hlast.
      now rewrite (last_default n tail n c).
Qed.

Lemma map_result_In {A B : Type} (f : A -> result B) (l : list A) (ys : list B)
  (x : A) (y : B) :
  map_result f l = Ok ys -> In x l -> f x = Ok y -> In y ys.
Proof.
  revert ys. induction l as [| a l IH]; intros ys H Hx Hy; [destruct Hx |].
  simpl in H. destruct (f a) as [b | |] eqn:Ea; simpl in H; try discriminate.
  destruct (map_result f l) as [bs | |]; simpl in H; try discriminate.
  injection H as <-. destruct Hx as [-> | Hx].
  - left. congruence.
  - right. now apply IH.
Qed.

(** The results of [findAllPaths] on a well-formed graph. *)
Lemma findAllPaths_exact (g : Graph) (s e : string) (depthBound : Z) (fuel : nat) :
  well_formed g ->
  map_has s (topics g) = true ->
  map_has e (topics g) = true ->
  (Z.to_nat (depthBound + 1) < fuel)%nat ->
  exists results,
    findAllPaths fuel g s e depthBound = Ok results /\
    Forall (simple_bounded g s e depthBound) results /\
    StronglySorted distance_le results /\
    forall p, path_from_to g s e p -> NoDup p -> (Z.of_nat (hops p) <= depthBound)%Z ->
              In (mkShortestPath p (Finite (path_weight g p)) (hydrate g p)) results.
Proof.
  intros Hwf Hs He Hfuel.
  unfold findAllPaths. rewrite Hs, He. simpl.
  destruct (dfsAllPaths_complete g e depthBound fuel s (mkDfs [] [] []))
    as [st [Hst [_ [_ [_ Hcomplete]]]]]; simpl; try tauto; try constructor.
  { rewrite Z.sub_0_r. exact Hfuel. }
  destruct (dfsAllPaths_spec g e depthBound fuel s (mkDfs [] [] []))
    as [st1 [Hst1 [_ [_ [new [Hall Hnew]]]]]]; simpl; try tauto; try constructor.
  { rewrite Z.sub_0_r. exact Hfuel. }
  rewrite Hst in Hst1. injection Hst1 as <-. simpl in Hall, Hnew. subst new.
  rewrite Hst. simpl.
  set (f := fun p => d <- calculatePathDistance g p ;;
                     Ok (mkShortestPath p (Finite d) (hydrate g p))).
  destruct (map_result_Forall f (simple_bounded g s e depthBound) (allPaths st))
    as [rs [Hrs Hgood]].
  { eapply Forall_impl; [| exact Hnew].
    intros p [tail [Hp [Hpath [Hlast [Hnd Hlen]]]]]. simpl in Hp. subst p.
    unfold f. rewrite (calculatePathDistance_path g _ Hwf Hpath). simpl.
    eexists. split; [reflexivity |]. unfold simple_bounded, hops. simpl.
    repeat split; auto.
    - simpl in Hlen. lia.
    - now apply calculatePathDistance_path. }
  fold f. rewrite Hrs. simpl. eexists. split; [reflexivity |].
  split; [now apply stable_sort_Forall |]. split.
  - apply stable_sort_Sorted with (P := fun r => exists d, distance r = Finite d).
    + intros a b [da Ha] [db Hb]. unfold path_le, distance_le. rewrite Ha, Hb. simpl.
      rewrite !Qle_bool_iff. lra.
    + intros a b [da Ha] [db Hb]. unfold path_le, distance_le. rewrite Ha, Hb. simpl.
      rewrite Qle_bool_false, Qle_bool_iff. lra.
    + intros a b c. apply num_leb_trans.
    + eapply Forall_impl; [| exact Hgood].
      intros r [_ [_ [_ [_ Hd]]]]. eauto.
  - intros p Hp Hnd Hhops. apply stable_sort_In.
    apply (map_result_In f (allPaths st) rs p); [assumption | |].
    + apply Hcomplete. destruct Hp as [Hhd [Hlast Hpath]].
      destruct p as [| a tail]; [discriminate |]. simpl in Hhd. injection Hhd as ->.
      exists tail. repeat split; auto.
      unfold hops in Hhops. simpl in Hhops. simpl. lia.
    + unfold f. rewrite (calculatePathDistance_path g p Hwf); [reflexivity | apply Hp].
Qed.

(** X10. The enumeration is exhaustive: every path from the start to the end
    that repeats no node and has no more hops than the bound is among the
    results, with the sum of the weights of its edges as distance. *)
Theorem findAllPaths_complete (ts : list ITopicData) (startId endId : string)
  (depthBound : Z) (fuel : nat) (results : list ShortestPath) (p : list string) :
  map_has startId (topics (buildGraph ts)) = true ->
  map_has endId (topics (buildGraph ts)) = true ->
  (Z.to_nat (depthBound + 1) < fuel)%nat ->
  findAllPaths fuel (buildGraph ts) startId endId depthBound = Ok results ->
  path_from_to (buildGraph ts) startId endId p ->
  NoDup p ->
  (Z.of_nat (hops p) <= depthBound)%Z ->
  In (mkShortestPath p (Finite (path_weight (buildGraph ts) p)) (hydrate (buildGraph ts) p))
     results.
Proof.
  intros Hs He Hfuel Hres Hp Hnd Hhops.
  destruct (findAllPaths_exact (buildGraph ts) startId endId depthBound fuel
              (buildGraph_well_formed ts) Hs He Hfuel) as [rs [Hrs [_ [_ Hall]]]].
  rewrite Hrs in Hres. injection Hres as <-. now apply Hall.
Qed.

Lemma findAllPaths_complete_witness :
  exists results,
    findAllPaths 12 (buildGraph sampleTopics) "child1" "child2" 10 = Ok results /\
    In (mkShortestPath ["child1"; "root"; "child2"]
          (Finite (path_weight (buildGraph sampleTopics) ["child1"; "root"; "child2"]))
          (hydrate (buildGraph sampleTopics) ["child1"; "root"; "child2"]))
       results.
Proof.
  eexists. split; [vm_compute; reflexivity |].
  apply (findAllPaths_complete sampleTopics "child1" "child2" 10 12).
  - reflexivity.
  - reflexivity.
  - vm_compute. lia.
  - vm_compute. reflexivity.
  - vm_compute. tauto.
  - repeat constructor; simpl; intuition discriminate.
  - vm_compute. discriminate.
Defined.

(** ** The enumeration and the shortest path *)

(** X11. When [findShortestPath] answers with a path, no result of
    [findAllPaths] for the same pair has a smaller distance; and when the hops
    of that path fit the depth bound, [findAllPaths] returns at least one
    result and its first result has the distance of the shortest path. *)
Theorem findAllPaths_first_is_shortest (ts : list ITopicData) (startId endId : string)
  (depthBound : Z) (fuel fuel' : nat) (sp : ShortestPath) (results : list ShortestPath) :
  Forall (fun t => id t <> "") ts ->
  (Z.to_nat (depthBound + 1) < fuel')%nat ->
  findShortestPath fuel (buildGraph ts) startId endId = Ok (Some sp) ->
  findAllPaths fuel' (buildGraph ts) startId endId depthBound = Ok results ->
  Forall (distance_le sp) results /\
  ((Z.of_nat (hops (path sp)) <= depthBound)%Z ->
   exists r rest, results = r :: rest /\ distance_le r sp /\ distance_le sp r).
Proof.
  intros Hids Hfuel Hsp Hall. pose proof (buildGraph_well_formed ts) as Hwf.
  set (g := buildGraph ts) in *.
  destruct (findShortestPath_returned _ _ _ _ _ Hwf (buildGraph_no_empty_id ts Hids) Hsp)
    as [Hs [He [Hpath [_ [Hdist [Hmin Hhyd]]]]]].
  destruct (findAllPaths_exact g startId endId depthBound fuel' Hwf Hs He Hfuel)
    as [rs [Hrs [Hgood [Hsorted Hcomplete]]]].
  rewrite Hrs in Hall. injection Hall as <-.
  assert (Hlow : Forall (distance_le sp) rs).
  { eapply Forall_impl; [| exact Hgood].
    intros r [_ [_ [Hr [_ Hd]]]]. unfold distance_le. rewrite Hdist, Hd. simpl.
    apply Qle_bool_iff. now apply Hmin. }
  split; [exact Hlow |]. intros Hhops.
  assert (Hnd : NoDup (path sp)).
  { destruct (ListDec.NoDup_dec string_dec (path sp)) as [Hnd | Hnd]; [assumption |].
    destruct (path_shorten g Hwf _ _ _ Hpath Hnd) as [p' [Hp' Hlt]].
    specialize (Hmin p' Hp'). lra. }
  pose proof (Hcomplete (path sp) Hpath Hnd Hhops) as Hin.
  destruct rs as [| r rest]; [destruct Hin |].
  exists r, rest. split; [reflexivity |].
  split; [| now inversion Hlow].
  destruct Hin as [Heq | Hin].
  - unfold distance_le. rewrite Heq, Hdist. simpl. apply Qle_bool_iff. apply Qle_refl.
  - inversion Hsorted as [| ? ? _ Hall]; subst.
    rewrite Forall_forall in Hall. specialize (Hall _ Hin).
    unfold distance_le in *. now rewrite Hdist.
Qed.

Lemma findAllPaths_first_is_shortest_witness :
  exists results,
    findAllPaths 12 (buildGraph sampleTopics) "child1" "child2" 10 = Ok results /\
    Forall (distance_le
              (mkShortestPath ["child1"; "root"; "child2"] (Finite (176 # 64))
                 (hydrate (buildGraph sampleTopics) ["child1"; "root"; "child2"])))
           results /\
    ((Z.of_nat (hops ["child1"; "root"; "child2"]) <= 10)%Z ->
     exists r rest,
       results = r :: rest /\
       distance_le r
         (mkShortestPath ["child1"; "root"; "child2"] (Finite (176 # 64))
            (hydrate (buildGraph sampleTopics) ["child1"; "root"; "child2"])) /\
       distance_le
         (mkShortestPath ["child1"; "root"; "child2"] (Finite (176 # 64))
            (hydrate (buildGraph sampleTopics) ["child1"; "root"; "child2"])) r).
Proof.
  eexists. split; [vm_compute; reflexivity |].
  apply (findAllPaths_first_is_shortest sampleTopics "child1" "child2" 10 10 12).
  - repeat constructor; discriminate.
  - vm_compute. lia.
  - vm_compute. reflexivity.
  - vm_compute. reflexivity.
Defined.

(** ** The walk up the parents *)

Lemma ancestors_loop_lineage (g : Graph) (fuel : nat) :
  forall cur acc r,
    ancestors_loop fuel g cur acc = Ok r ->
    exists l, r = acc ++ l /\ lineage (parent_of g) cur l /\ (length l < fuel)%nat.
Proof.
  induction fuel as [| fuel IH]; intros cur acc r H; [discriminate |].
  cbn [ancestors_loop] in H. destruct cur as [c |].
  - destruct (truthy (Some c)) eqn:Et.
    + apply IH in H. destruct H as [l [-> [Hl Hlen]]].
      exists (c :: l). rewrite <- app_assoc. split; [reflexivity |].
      split; [now constructor | simpl; lia].
    + injection H as <-. exists []. rewrite app_nil_r.
      split; [reflexivity |]. split; [now constructor | simpl; lia].
  - injection H as <-. exists []. rewrite app_nil_r.
    split; [reflexivity |]. split; [now constructor | simpl; lia].
Qed.

Lemma lineage_ancestors_loop (g : Graph) (cur : option string) (l : list string) :
  lineage (parent_of g) cur l ->
  forall fuel acc, (length l < fuel)%nat -> ancestors_loop fuel g cur acc = Ok (acc ++ l).
Proof.
  induction 1 as [cur Ht | c l Ht Hl IH]; intros fuel acc Hfuel;
    (destruct fuel as [| fuel]; [simpl in Hfuel; lia |]); cbn [ancestors_loop].
  - destruct cur as [c |]; [| now rewrite app_nil_r].
    rewrite Ht. now rewrite app_nil_r.
  - rewrite Ht. rewrite IH by (simpl in Hfuel; lia). now rewrite <- app_assoc.
Qed.

Lemma lineage_depth_loop (g : Graph) (cur : option string) (l : list string) :
  lineage (parent_of g) cur l ->
  forall fuel depth, (length l < fuel)%nat ->
                     depth_loop fuel g cur depth = Ok (depth + pred (length l))%nat.
Proof.
  induction 1 as [cur Ht | c l Ht Hl IH]; intros fuel depth Hfuel;
    (destruct fuel as [| fuel]; [simpl in Hfuel; lia |]); cbn [depth_loop].
  - cbn [length pred]. rewrite Nat.add_0_r.
    destruct cur as [c |]; [| reflexivity]. now rewrite Ht.
  - rewrite Ht. inversion Hl as [cur Hp Hcur | c' l' Hp Hl' Hcur]; subst.
    + rewrite Hp. cbn [negb length pred]. now rewrite Nat.add_0_r.
    + rewrite <- Hcur in *. rewrite Hp. cbn [negb].
      rewrite IH by (simpl in *; lia). simpl. f_equal. lia.
Qed.

Lemma lineage_functional (par : string -> option string) (cur : option string) (l1 l2 : list string) :
  lineage par cur l1 -> lineage par cur l2 -> l1 = l2.
Proof.
  intros H. revert l2. induction H as [cur Ht | c l Ht Hl IH]; intros l2 H2.
  - inversion H2; subst; [reflexivity | congruence].
  - inversion H2; subst; [congruence |]. f_equal. now apply IH.
Qed.

Lemma lineage_suffix (par : string -> option string) (l1 : list string) :
  forall cur x l2, lineage par cur (l1 ++ x :: l2) -> lineage par (Some x) (x :: l2).
Proof.
  induction l1 as [| a l1 IH]; intros cur x l2 H; simpl in H.
  - inversion H; subst. now constructor.
  - inversion H; subst. eapply IH. eassumption.
Qed.

Lemma lineage_NoDup (par : string -> option string) (cur : option string) (l : list string) :
  lineage par cur l -> NoDup l.
Proof.
  induction 1 as [cur Ht | c l Ht Hl IH]; constructor; [| assumption].
  intros Hin. apply in_split in Hin. destruct Hin as [l1 [l2 ->]].
  pose proof (lineage_suffix par l1 _ c l2 Hl) as Hs.
  assert (Hfull : lineage par (Some c) (c :: l1 ++ c :: l2)) by now constructor.
  pose proof (lineage_functional par _ _ _ Hs Hfull) as Heq.
  apply (f_equal (@length string)) in Heq. simpl in Heq.
  rewrite length_app in Heq. simpl in Heq. lia.
Qed.

Lemma lineage_parent_linked (g : Graph) (cur : option string) (l : list string) :
  lineage (parent_of g) cur l -> parent_linked g l.
Proof.
  induction 1 as [cur Ht | c l Ht Hl IH]; [exact I |].
  destruct l as [| b l]; [exact I |]. split; [| assumption].
  inversion Hl; subst. congruence.
Qed.

Lemma lineage_head (g : Graph) (k : string) (l : list string) :
  lineage (parent_of g) (Some k) l -> k <> "" -> hd_error l = Some k.
Proof.
  intros H Hk. inversion H as [cur Ht Hcur | c l' Ht Hl Hcur]; subst; [| reflexivity].
  simpl in Ht. apply negb_false_iff, String.eqb_eq in Ht. contradiction.
Qed.

Lemma lineage_last (g : Graph) (cur : option string) (l : list string) :
  lineage (parent_of g) cur l ->
  forall d, l <> [] -> truthy (parent_of g (last l d)) = false.
Proof.
  induction 1 as [cur Ht | c l Ht Hl IH]; intros d Hne; [congruence |].
  destruct l as [| b l].
  - simpl. now inversion Hl.
  - change (last (c :: b :: l) d) with (last (b :: l) d). apply IH. discriminate.
Qed.

(** X12. When the ancestor walk of a topic returns, the list starts at the
    topic, each id is followed by the parent id of its record, no id occurs
    twice, the record of the last id (if any) has no parent id, and the depth
    walk of the same topic returns the number of ids after the first. *)
Theorem getAncestors_chain (fuel : nat) (g : Graph) (k : string) (ancestors : list string) :
  getAncestors fuel g k = Ok ancestors ->
  NoDup ancestors /\
  parent_linked g ancestors /\
  getTopicDepth fuel g k = Ok (pred (length ancestors)) /\
  (k <> "" ->
   hd_error ancestors = Some k /\ truthy (parent_of g (last ancestors k)) = false).
Proof.
  intros H. apply ancestors_loop_lineage in H. destruct H as [l [-> [Hl Hlen]]].
  simpl. split; [eapply lineage_NoDup; eassumption |].
  split; [eapply lineage_parent_linked; eassumption |].
  split.
  - unfold getTopicDepth. now rewrite (lineage_depth_loop g _ l Hl fuel 0%nat Hlen).
  - intros Hk. pose proof (lineage_head g k l Hl Hk) as Hhd.
    split; [assumption |]. eapply lineage_last; [eassumption |].
    intros ->. discriminate.
Qed.

Lemma getAncestors_chain_witness :
  NoDup ["grandchild1"; "child1"; "root"] /\
  parent_linked (buildGraph sampleTopics) ["grandchild1"; "child1"; "root"] /\
  getTopicDepth 10 (buildGraph sampleTopics) "grandchild1" = Ok 2%nat /\
  ("grandchild1" <> "" ->
   hd_error ["grandchild1"; "child1"; "root"] = Some "grandchild1" /\
   truthy (parent_of (buildGraph sampleTopics)
             (last ["grandchild1"; "child1"; "root"] "grandchild1")) = false).
Proof.
  apply (getAncestors_chain 10 (buildGraph sampleTopics) "grandchild1").
  vm_compute. reflexivity.
Defined.

(** ** The closest common ancestor *)

Lemma find_first {A : Type} (f : A -> bool) (l : list A) (x : A) :
  find f l = Some x ->
  exists pre post, l = pre ++ x :: post /\ f x = true /\
                   Forall (fun y => f y = false) pre.
Proof.
  induction l as [| a l IH]; intros H; [discriminate |].
  simpl in H. destruct (f a) eqn:Ea.
  - injection H as ->. exists [], l. repeat split; auto.
  - destruct (IH H) as [pre [post [-> [Hx Hpre]]]].
    exists (a :: pre), post. repeat split; auto.
Qed.

Lemma filter_none {A : Type} (f : A -> bool) (l : list A) :
  Forall (fun y => f y = false) l -> filter f l = [].
Proof.
  induction 1 as [| a l Ha _ IH]; [reflexivity |]. simpl. now rewrite Ha.
Qed.

Lemma find_none_Forall {A : Type} (f : A -> bool) (l : list A) :
  find f l = None -> Forall (fun y => f y = false) l.
Proof.
  intros H. apply Forall_forall. intros y Hy. eapply find_none; eassumption.
Qed.

Lemma lineage_depth_inside (g : Graph) (cur : option string) (l1 l2 : list string)
  (x : string) (fuel : nat) :
  lineage (parent_of g) cur (l1 ++ x :: l2) ->
  (length (l1 ++ x :: l2) < fuel)%nat ->
  getTopicDepth fuel g x = Ok (length l2).
Proof.
  intros Hl Hfuel. apply lineage_suffix in Hl.
  unfold getTopicDepth. rewrite (lineage_depth_loop g _ _ Hl fuel 0%nat); [reflexivity |].
  rewrite length_app in Hfuel. simpl in *. lia.
Qed.

Lemma closest_loop_keeps (fuel : nat) (g : Graph) (closest : string) (bound : nat) :
  forall common,
    Forall (fun x => exists d, getTopicDepth fuel g x = Ok d /\ (d <= bound)%nat) common ->
    closest_loop fuel g common closest bound = Ok closest.
Proof.
  induction 1 as [| x common [d [Hd Hle]] _ IH]; [reflexivity |].
  simpl. rewrite Hd. simpl.
  now rewrite (proj2 (Nat.ltb_ge bound d) Hle).
Qed.

(** The scan for the deepest common ancestor stops at the first id of the
    first walk that the second walk passes as well. *)
Lemma findClosestCommonAncestor_first (fuel : nat) (g : Graph) (a b : string)
  (ancestors1 ancestors2 : list string) :
  map_has a (topics g) = true ->
  map_has b (topics g) = true ->
  getAncestors fuel g a = Ok ancestors1 ->
  getAncestors fuel g b = Ok ancestors2 ->
  findClosestCommonAncestor fuel g a b
  = Ok (find (fun x => set_has x ancestors2) ancestors1).
Proof.
  intros Ha Hb H1 H2. unfold findClosestCommonAncestor.
  rewrite Ha, Hb, H1, H2. simpl.
  apply ancestors_loop_lineage in H1. destruct H1 as [l1 [E1 [Hl1 Hlen1]]].
  simpl in E1. subst l1.
  destruct (find (fun x => set_has x ancestors2) ancestors1) as [c |] eqn:Ef.
  - destruct (find_first _ _ _ Ef) as [pre [post [-> [Hc Hpre]]]].
    cbn beta in Hc.
    rewrite filter_app, (filter_none _ pre Hpre). cbn [app filter]. rewrite Hc.
    rewrite (lineage_depth_inside g _ pre post c fuel Hl1 Hlen1).
    cbn [bind closest_loop].
    rewrite (lineage_depth_inside g _ pre post c fuel Hl1 Hlen1). cbn [bind].
    rewrite Nat.ltb_irrefl.
    rewrite closest_loop_keeps; [reflexivity |].
    apply Forall_forall. intros x Hx. apply filter_In in Hx. destruct Hx as [Hx _].
    apply in_split in Hx. destruct Hx as [p1 [p2 ->]].
    exists (length p2). split.
    + apply (lineage_depth_inside g (Some a) (pre ++ c :: p1) p2 x fuel).
      * now rewrite <- app_assoc.
      * now rewrite <- app_assoc.
    + rewrite length_app. simpl. lia.
  - now rewrite (filter_none _ _ (find_none_Forall _ _ Ef)).
Qed.

(** X13. When the ancestor walks of two known topics return, so does
    [findClosestCommonAncestor]: with null when the two walks share no id, and
    otherwise with an id of both walks whose own ancestor walk passes every id
    that the two walks share. *)
Theorem findClosestCommonAncestor_lowest (fuel : nat) (g : Graph) (a b : string)
  (ancestors1 ancestors2 : list string) :
  map_has a (topics g) = true ->
  map_has b (topics g) = true ->
  getAncestors fuel g a = Ok ancestors1 ->
  getAncestors fuel g b = Ok ancestors2 ->
  exists r,
    findClosestCommonAncestor fuel g a b = Ok r /\
    (r = None <-> forall x, In x ancestors1 -> ~ In x ancestors2) /\
    (forall c, r = Some c ->
               In c ancestors1 /\ In c ancestors2 /\
               exists l, getAncestors fuel g c = Ok l /\
                         forall x, In x ancestors1 -> In x ancestors2 -> In x l).
Proof.
  intros Ha Hb H1 H2.
  rewrite (findClosestCommonAncestor_first fuel g a b _ _ Ha Hb H1 H2).
  eexists. split; [reflexivity |]. split.
  - split.
    + intros Hnone x Hx Hx2. apply set_has_In in Hx2.
      now rewrite (find_none _ _ Hnone x Hx) in Hx2.
    + intros Hall. destruct (find _ ancestors1) as [c |] eqn:Ef; [| reflexivity].
      apply find_some in Ef. destruct Ef as [Hc Hc2]. apply set_has_In in Hc2.
      now apply Hall in Hc2.
  - intros c Hc. destruct (find_first _ _ _ Hc) as [pre [post [-> [Hc2 Hpre]]]].
    apply set_has_In in Hc2.
    split; [apply in_elt |]. split; [assumption |].
    apply ancestors_loop_lineage in H1. destruct H1 as [l1 [E1 [Hl1 Hlen1]]].
    simpl in E1. subst l1.
    exists (c :: post). split.
    + unfold getAncestors.
      rewrite (lineage_ancestors_loop g _ _ (lineage_suffix (parent_of g) pre _ c post Hl1));
        [reflexivity |].
      rewrite length_app in Hlen1. simpl in *. lia.
    + intros x Hx Hx2. apply in_app_or in Hx. destruct Hx as [Hx | Hx]; [| assumption].
      rewrite Forall_forall in Hpre. apply Hpre in Hx.
      apply set_has_In in Hx2. congruence.
Qed.

Lemma findClosestCommonAncestor_lowest_witness :
  exists r,
    findClosestCommonAncestor 10 (buildGraph sampleTopics) "grandchild1" "child2" = Ok r /\
    (r = None <->
     forall x, In x ["grandchild1"; "child1"; "root"] -> ~ In x ["child2"; "root"]) /\
    (forall c, r = Some c ->
               In c ["grandchild1"; "child1"; "root"] /\ In c ["child2"; "root"] /\
               exists l, getAncestors 10 (buildGraph sampleTopics) c = Ok l /\
                         forall x, In x ["grandchild1"; "child1"; "root"] ->
                                   In x ["child2"; "root"] -> In x l).
Proof.
  apply (findClosestCommonAncestor_lowest 10 (buildGraph sampleTopics)
           "grandchild1" "child2").
  - reflexivity.
  - reflexivity.
  - vm_compute. reflexivity.
  - vm_compute. reflexivity.
Defined.

(** X14. The answer of [findClosestCommonAncestor] does not depend on the
    order of its two arguments. *)
Theorem findClosestCommonAncestor_symmetric (fuel : nat) (g : Graph) (a b : string)
  (r : option string) :
  findClosestCommonAncestor fuel g a b = Ok r ->
  findClosestCommonAncestor fuel g b a = Ok r.
Proof.
  intros H.
  destruct (map_has a (topics g)) eqn:Ha; [| unfold findClosestCommonAncestor in *;
    rewrite Ha in *; simpl in *; now rewrite orb_true_r].
  destruct (map_has b (topics g)) eqn:Hb; [| unfold findClosestCommonAncestor in *;
    rewrite Ha, Hb in *; simpl in *; assumption].
  destruct (getAncestors fuel g a) as [l1 | |] eqn:H1;
    try (unfold findClosestCommonAncestor in H; rewrite Ha, Hb, H1 in H;
         discriminate).
  destruct (getAncestors fuel g b) as [l2 | |] eqn:H2;
    try (unfold findClosestCommonAncestor in H; rewrite Ha, Hb, H1, H2 in H;
         discriminate).
  rewrite (findClosestCommonAncestor_first fuel g a b _ _ Ha Hb H1 H2) in H.
  rewrite (findClosestCommonAncestor_first fuel g b a _ _ Hb Ha H2 H1).
  injection H as <-. f_equal.
  apply ancestors_loop_lineage in H1. destruct H1 as [l1' [E1 [Hl1 _]]].
  apply ancestors_loop_lineage in H2. destruct H2 as [l2' [E2 [Hl2 _]]].
  simpl in E1, E2. subst l1' l2'.
  destruct (find (fun x => set_has x l2) l1) as [c1 |] eqn:E1.
  - destruct (find_first _ _ _ E1) as [pre1 [post1 [-> [Hc1 Hpre1]]]].
    destruct (find (fun x => set_has x (pre1 ++ c1 :: post1)) l2) as [c2 |] eqn:E2.
    + destruct (find_first _ _ _ E2) as [pre2 [post2 [-> [Hc2 Hpre2]]]].
      destruct (string_dec c1 c2) as [-> | Hne]; [reflexivity |]. exfalso.
      apply set_has_In in Hc1, Hc2. rewrite Forall_forall in Hpre1, Hpre2.
      assert (H12 : In c2 post1).
      { apply in_app_or in Hc2. destruct Hc2 as [Hc2 | [Hc2 | Hc2]];
          [| congruence | assumption].
        apply Hpre1 in Hc2. exfalso. apply set_has_false in Hc2. apply Hc2.
        apply in_elt. }
      assert (H21 : In c1 post2).
      { apply in_app_or in Hc1. destruct Hc1 as [Hc1 | [Hc1 | Hc1]];
          [| congruence | assumption].
        apply Hpre2 in Hc1. exfalso. apply set_has_false in Hc1. apply Hc1.
        apply in_elt. }
      apply in_split in H12. destruct H12 as [p [q ->]].
      pose proof (lineage_suffix (parent_of g) pre2 _ c2 post2 Hl2) as Hs2.
      pose proof (lineage_suffix (parent_of g) pre1 _ c1 _ Hl1) as Hs1.
      pose proof (lineage_suffix (parent_of g) (c1 :: p) _ c2 q Hs1) as Hs2'.
      pose proof (lineage_functional (parent_of g) _ _ _ Hs2 Hs2') as Heq.
      injection Heq as ->.
      apply lineage_NoDup in Hs1. inversion Hs1 as [| ? ? Hnot _]; subst.
      apply Hnot. apply in_or_app. right. now right.
    + exfalso. apply set_has_In in Hc1.
      pose proof (find_none _ _ E2 c1 Hc1) as Hno. apply set_has_false in Hno.
      apply Hno. apply in_elt.
  - destruct (find (fun x => set_has x l1) l2) as [c2 |] eqn:E2; [| reflexivity].
    exfalso. apply find_some in E2. destruct E2 as [Hin2 Hin1].
    apply set_has_In in Hin1. pose proof (find_none _ _ E1 c2 Hin1) as Hno.
    apply set_has_false in Hno. contradiction.
Qed.

Lemma findClosestCommonAncestor_symmetric_witness :
  findClosestCommonAncestor 10 (buildGraph sampleTopics) "child2" "grandchild1"
  = Ok (Some "root").
Proof.
  apply (findClosestCommonAncestor_symmetric 10 (buildGraph sampleTopics)
           "grandchild1" "child2").
  vm_compute. reflexivity.
Defined.

(** ** The circular-reference check of the topic service *)

Section CircularCheck.
Variable db : Map ITopicData.
Variables topicId start : string.

Let par : string -> option string := found_parent db.

(** What the loop keeps: the visited ids are the ids walked from [start], none
    of them is [topicId], and the walk continues at [cur]. *)
Record circ_inv (cur : option string) (visitedIds : StrSet) : Prop := {
  ci_fresh : ~ In topicId visitedIds;
  ci_cur : forall c, cur = Some c -> c <> "" -> above par start c;
  ci_closed : forall v p, In v visitedIds -> par v = Some p -> p <> "" ->
                          In p visitedIds \/ cur = Some p;
  ci_start : In start visitedIds \/ cur = Some start;
  ci_nodup : NoDup visitedIds;
  ci_known : truthy cur = true -> forall v, In v visitedIds -> map_has v db = true
}.

(** The iterations that the loop may still need. *)
Definition circ_needed (cur : option string) (visitedIds : StrSet) : nat :=
  if truthy cur then (map_size db - length visitedIds + 2)%nat else 1%nat.

Lemma above_nonempty (f : string -> option string) (a t : string) :
  above f a t -> a <> "".
Proof. now destruct 1. Qed.

Lemma above_snoc (f : string -> option string) (a c p : string) :
  above f a c -> f c = Some p -> p <> "" -> above f a p.
Proof.
  induction 1 as [a Ha | a q t Ha Hq Hup IH]; intros Hp Hne.
  - eapply above_parent; [assumption | exact Hp | now constructor].
  - eapply above_parent; [assumption | exact Hq | now apply IH].
Qed.

Lemma closed_above (f : string -> option string) (ids : list string) :
  (forall v p, In v ids -> f v = Some p -> p <> "" -> In p ids) ->
  forall a t, above f a t -> In a ids -> In t ids.
Proof.
  intros Hclosed. induction 1 as [a Ha | a p t Ha Hp Hup IH]; intros Hin; [assumption |].
  apply IH. eapply Hclosed; [exact Hin | exact Hp |]. eapply above_nonempty. exact Hup.
Qed.

Lemma truthy_Some (c : string) : truthy (Some c) = true <-> c <> "".
Proof.
  simpl. rewrite negb_true_iff. split.
  - intros H. now apply String.eqb_neq.
  - intros H. now apply String.eqb_neq.
Qed.

Lemma found_parent_known (c p : string) : found_parent db c = Some p -> map_has c db = true.
Proof.
  unfold found_parent, findById, map_has. now destruct (map_get c db).
Qed.

Lemma circular_loop_spec (fuel : nat) :
  forall cur visitedIds,
    circ_inv cur visitedIds ->
    (circ_needed cur visitedIds <= fuel)%nat ->
    exists b, circular_loop fuel db topicId cur visitedIds = Ok b /\
              (b = true <-> above par start topicId).
Proof.
  induction fuel as [| fuel IH]; intros cur visitedIds Hinv Hfuel.
  { unfold circ_needed in Hfuel. destruct (truthy cur); lia. }
  cbn [circular_loop].
  assert (Hstop : truthy cur = false -> ~ above par start topicId).
  { intros Hcur Hup. apply (ci_fresh _ _ Hinv).
    apply (closed_above par visitedIds) with (a := start); [| exact Hup |].
    - intros v p Hv Hp Hne. destruct (ci_closed _ _ Hinv v p Hv Hp Hne) as [H | H]; [exact H |].
      subst cur. apply truthy_Some in Hne. congruence.
    - destruct (ci_start _ _ Hinv) as [H | H]; [exact H |].
      subst cur. apply above_nonempty in Hup. apply truthy_Some in Hup. congruence. }
  destruct cur as [c |].
  2:{ exists false. split; [reflexivity |]. split; [discriminate |].
      intros Hup. exfalso. now apply Hstop. }
  destruct (truthy (Some c)) eqn:Et.
  2:{ exists false. split; [reflexivity |]. split; [discriminate |].
      intros Hup. exfalso. now apply Hstop. }
  pose proof (proj1 (truthy_Some c) Et) as Hc.
  destruct (String.eqb c topicId) eqn:Etop.
  { apply String.eqb_eq in Etop. subst c. exists true. split; [reflexivity |].
    split; [| reflexivity]. intros _. now apply (ci_cur _ _ Hinv). }
  apply String.eqb_neq in Etop.
  destruct (set_has c visitedIds) eqn:Evis.
  { apply set_has_In in Evis. exists false. split; [reflexivity |].
    split; [discriminate |]. intros Hup. exfalso. apply (ci_fresh _ _ Hinv).
    apply (closed_above par visitedIds) with (a := start); [| exact Hup |].
    - intros v p Hv Hp Hne. destruct (ci_closed _ _ Hinv v p Hv Hp Hne) as [H | H]; [exact H |].
      now injection H as <-.
    - destruct (ci_start _ _ Hinv) as [H | H]; [exact H |]. now injection H as <-. }
  apply set_has_false in Evis.
  apply IH.
  - split.
    + rewrite set_add_In. intros [H | H]; [congruence |]. now apply (ci_fresh _ _ Hinv).
    + intros p Hp Hne. apply (above_snoc par start c p); auto.
      now apply (ci_cur _ _ Hinv).
    + intros v p Hv Hp Hne. rewrite set_add_In in *. destruct Hv as [-> | Hv].
      * right. exact (eq_sym (eq_sym Hp)).
      * destruct (ci_closed _ _ Hinv v p Hv Hp Hne) as [H | H]; [left; now right |].
        injection H as <-. left. now left.
    + left. rewrite set_add_In. destruct (ci_start _ _ Hinv) as [H | H]; [now right |].
      injection H as <-. now left.
    + apply set_add_NoDup. apply (ci_nodup _ _ Hinv).
    + intros Hp v Hv. apply set_add_In in Hv. destruct Hv as [-> | Hv].
      * destruct (found_parent db c) as [p |] eqn:Ep; [| discriminate].
        eapply found_parent_known. exact Ep.
      * now apply (ci_known _ _ Hinv Et).
  - unfold circ_needed in *. rewrite Et in Hfuel.
    destruct (truthy (found_parent db c)) eqn:Ep; [| lia].
    assert (Hlen : (length (set_add c visitedIds) <= map_size db)%nat).
    { unfold map_size. rewrite <- (length_map fst db).
      apply NoDup_incl_length; [apply set_add_NoDup, (ci_nodup _ _ Hinv) |].
      intros v Hv. apply set_add_In in Hv. apply (map_has_In v db).
      destruct Hv as [-> | Hv]; [| now apply (ci_known _ _ Hinv Et)].
      destruct (found_parent db c) as [p |] eqn:Ep'; [| discriminate].
      eapply found_parent_known. exact Ep'. }
    assert (Hadd : length (set_add c visitedIds) = S (length visitedIds)).
    { unfold set_add. rewrite (proj2 (set_has_false c visitedIds) Evis).
      rewrite length_app. simpl. lia. }
    lia.
Qed.

Lemma circ_inv_init : circ_inv (Some start) [].
Proof.
  split.
  - intros [].
  - intros c [= <-] Hc. now constructor.
  - intros v p [].
  - now right.
  - constructor.
  - intros _ v [].
Qed.

End CircularCheck.

Lemma circular_loop_more_fuel (db : Map ITopicData) (topicId : string) (fuel : nat) :
  forall cur visitedIds b more,
    circular_loop fuel db topicId cur visitedIds = Ok b ->
    circular_loop (fuel + more) db topicId cur visitedIds = Ok b.
Proof.
  induction fuel as [| fuel IH]; intros cur visitedIds b more H; [discriminate |].
  cbn [circular_loop Nat.add] in *.
  destruct cur as [c |]; [| assumption].
  destruct (truthy (Some c)); [| assumption].
  destruct (String.eqb c topicId); [assumption |].
  destruct (set_has c visitedIds); [assumption |]. now apply IH.
Qed.

(** What the check answers, whatever the number of iterations allowed. *)
Lemma wouldCreateCircularReference_answer (db : Map ITopicData) (topicId newParentId : string)
  (fuel : nat) (b : bool) :
  wouldCreateCircularReference fuel db topicId newParentId = Ok b ->
  (b = true <-> above (found_parent db) newParentId topicId).
Proof.
  intros H. unfold wouldCreateCircularReference in H.
  apply circular_loop_more_fuel with (more := circ_needed db (Some newParentId) []) in H.
  destruct (circular_loop_spec db topicId newParentId
              (fuel + circ_needed db (Some newParentId) []) (Some newParentId) []
              (circ_inv_init db topicId newParentId)) as [b' [Hb' Hiff]]; [lia |].
  rewrite Hb' in H. now injection H as <-.
Qed.

(** X15. The circular-reference check of the topic service returns on every
    table, also on one with a parent cycle, after at most as many iterations
    as the table has records plus two; and it answers true exactly when the
    walk from the new parent up the parent ids passes the topic. *)
Theorem wouldCreateCircularReference_decides (db : Map ITopicData)
  (topicId newParentId : string) :
  exists b,
    (forall fuel, (map_size db + 2 <= fuel)%nat ->
                  wouldCreateCircularReference fuel db topicId newParentId = Ok b) /\
    (b = true <-> above (found_parent db) newParentId topicId).
Proof.
  assert (Hret : forall fuel, (map_size db + 2 <= fuel)%nat ->
                              exists b, wouldCreateCircularReference fuel db topicId newParentId
                                        = Ok b).
  { intros fuel Hfuel.
    destruct (circular_loop_spec db topicId newParentId fuel (Some newParentId) []
                (circ_inv_init db topicId newParentId)) as [b [Hb _]].
    - unfold circ_needed. destruct (truthy (Some newParentId)); simpl; lia.
    - now exists b. }
  destruct (Hret (map_size db + 2)%nat (Nat.le_refl _)) as [b Hb].
  exists b. split.
  - intros fuel Hfuel. destruct (Hret fuel Hfuel) as [b' Hb'].
    pose proof (wouldCreateCircularReference_answer db _ _ _ _ Hb) as H1.
    pose proof (wouldCreateCircularReference_answer db _ _ _ _ Hb') as H2.
    rewrite Hb'. f_equal. destruct b, b'; try reflexivity.
    + apply (proj2 H2), (proj1 H1). reflexivity.
    + symmetry. apply (proj2 H1), (proj1 H2). reflexivity.
  - eapply wouldCreateCircularReference_answer. exact Hb.
Qed.

(** ** Setting a new parent *)

Lemma table_depth_lineage (db : Map ITopicData) (cur : option string) (l : list string) :
  lineage (found_parent db) cur l ->
  forall fuel depth,
    (length l <= fuel)%nat -> (1 <= fuel)%nat ->
    table_depth_loop fuel db cur depth = Ok (depth + pred (length l))%nat.
Proof.
  induction 1 as [cur Ht | c l Ht Hl IH]; intros fuel depth Hfuel Hone;
    (destruct fuel as [| fuel]; [lia |]); cbn [table_depth_loop].
  - cbn [length pred]. rewrite Nat.add_0_r.
    destruct cur as [c |]; [| reflexivity]. now rewrite Ht.
  - rewrite Ht. inversion Hl as [cur Hp Hcur | c' l' Hp Hl' Hcur]; subst.
    + rewrite Hp. cbn [negb length pred]. now rewrite Nat.add_0_r.
    + rewrite <- Hcur in *. rewrite Hp. cbn [negb].
      rewrite IH by (simpl in *; lia). simpl. f_equal. lia.
Qed.

Lemma table_depth_returns (db : Map ITopicData) (fuel : nat) :
  forall cur depth r,
    table_depth_loop fuel db cur depth = Ok r ->
    exists l, lineage (found_parent db) cur l /\ (length l <= fuel)%nat.
Proof.
  induction fuel as [| fuel IH]; intros cur depth r H; [discriminate |].
  cbn [table_depth_loop] in H.
  destruct cur as [c |]; [| exists []; split; [now constructor | simpl; lia]].
  destruct (truthy (Some c)) eqn:Et;
    [| exists []; split; [now constructor | simpl; lia]].
  destruct (truthy (found_parent db c)) eqn:Ep; cbn [negb] in H.
  - apply IH in H. destruct H as [l [Hl Hlen]].
    exists (c :: l). split; [now constructor | simpl; lia].
  - exists [c]. split; [| simpl; lia].
    constructor; [assumption | now constructor].
Qed.

Lemma lineage_agree (f f' : string -> option string) (t : string)
  (cur : option string) (l : list string) :
  (forall x, x <> t -> f' x = f x) ->
  lineage f cur l -> ~ In t l -> lineage f' cur l.
Proof.
  intros Hsame. induction 1 as [cur Ht | c l Ht Hl IH]; intros Hnot.
  - now constructor.
  - constructor; [assumption |]. rewrite Hsame.
    + apply IH. intros Hin. apply Hnot. now right.
    + intros ->. apply Hnot. now left.
Qed.

Lemma lineage_above (f : string -> option string) (cur : option string) (l : list string) :
  lineage f cur l -> forall c x, cur = Some c -> In x l -> above f c x.
Proof.
  induction 1 as [cur Ht | c l Ht Hl IH]; intros c0 x Hc Hx; [destruct Hx |].
  injection Hc as <-. apply truthy_Some in Ht.
  destruct Hx as [<- | Hx]; [now constructor |].
  destruct (f c) as [p |] eqn:Ep; [| inversion Hl; subst; destruct Hx].
  eapply above_parent; [assumption | exact Ep |]. now apply (IH p x).
Qed.

Lemma reparent_lineage (f f' : string -> option string) (t n : string) (l3 : list string) :
  f' t = Some n ->
  (forall x, x <> t -> f' x = f x) ->
  lineage f (Some n) l3 -> ~ In t l3 ->
  forall cur l,
    lineage f cur l ->
    exists l', lineage f' cur l' /\ (length l' <= length l + 1 + length l3)%nat.
Proof.
  intros Ht Hsame Hl3 Hnot. induction 1 as [cur Hc | c l Hc Hl IH].
  - exists []. split; [now constructor | simpl; lia].
  - destruct (string_dec c t) as [-> | Hne].
    + exists (t :: l3). split; [| simpl; lia].
      constructor; [assumption |]. rewrite Ht.
      now apply (lineage_agree f f' t).
    + destruct IH as [l' [Hl' Hlen]]. exists (c :: l'). split; [| simpl; lia].
      constructor; [assumption |]. now rewrite Hsame.
Qed.

Lemma found_parent_set (db : Map ITopicData) (t k : string) (updated : ITopicData) :
  found_parent (map_set t updated db) k
  = if String.eqb k t then parentTopicId updated else found_parent db k.
Proof.
  unfold found_parent, findById. rewrite map_get_set. now destruct (String.eqb k t).
Qed.

(** The walk up the parents of any id of a table whose depth walks return. *)
Lemma table_lineage (db : Map ITopicData) (fuel : nat) (k : string) :
  Forall (fun x => exists d, calculateTopicDepth fuel db x = Ok d) (map_keys db) ->
  exists l, lineage (found_parent db) (Some k) l /\ (length l <= Nat.max fuel 1)%nat.
Proof.
  intros Hall. destruct (map_has k db) eqn:Ek.
  - apply map_has_In in Ek. rewrite Forall_forall in Hall.
    destruct (Hall k Ek) as [d Hd]. apply table_depth_returns in Hd.
    destruct Hd as [l [Hl Hlen]]. exists l. split; [assumption | lia].
  - destruct (truthy (Some k)) eqn:Et.
    + exists [k]. split; [| simpl; lia]. constructor; [assumption |].
      constructor. unfold found_parent, findById. unfold map_has in Ek.
      now destruct (map_get k db).
    + exists []. split; [now constructor | simpl; lia].
Qed.

(** X16. The check is enough to keep the table free of parent cycles: when
    the depth walk returns for every topic of the table and the check answers
    false for a topic and a new parent, then after the record of the topic is
    replaced by one with that parent the depth walk still returns for every
    id. *)
Theorem reparent_keeps_depth_walks (db : Map ITopicData) (topicId newParentId : string)
  (updated : ITopicData) (fuel fuel' : nat) :
  Forall (fun k => exists d, calculateTopicDepth fuel db k = Ok d) (map_keys db) ->
  wouldCreateCircularReference fuel' db topicId newParentId = Ok false ->
  parentTopicId updated = Some newParentId ->
  forall k, exists d,
    calculateTopicDepth (2 * fuel + 3) (map_set topicId updated db) k = Ok d.
Proof.
  intros Hall Hcheck Hparent k.
  pose proof (wouldCreateCircularReference_answer db _ _ _ _ Hcheck) as Hno.
  destruct (table_lineage db fuel newParentId Hall) as [l3 [Hl3 Hlen3]].
  destruct (table_lineage db fuel k Hall) as [l [Hl Hlen]].
  assert (Hnot : ~ In topicId l3).
  { intros Hin. pose proof (lineage_above _ _ _ Hl3 newParentId topicId eq_refl Hin) as Hup.
    apply Hno in Hup. discriminate. }
  destruct (reparent_lineage (found_parent db)
              (found_parent (map_set topicId updated db)) topicId newParentId l3)
    with (cur := Some k) (l := l) as [l' [Hl' Hlen']]; auto.
  - now rewrite found_parent_set, String.eqb_refl.
  - intros x Hx. rewrite found_parent_set.
    now rewrite (proj2 (String.eqb_neq x topicId) Hx).
  - eexists. unfold calculateTopicDepth. apply (table_depth_lineage _ _ _ Hl'); lia.
Qed.

Lemma reparent_keeps_depth_walks_witness :
  exists d,
    calculateTopicDepth (2 * 5 + 3)
      (map_set "grandchild1"
         (mkTopic "grandchild1" "Grandchild 1" "Grandchild 1 content" (Some "child2"))
         sampleTable) "grandchild1" = Ok d.
Proof.
  apply (reparent_keeps_depth_walks sampleTable "grandchild1" "child2"
           (mkTopic "grandchild1" "Grandchild 1" "Grandchild 1 content" (Some "child2"))
           5 7).
  - repeat constructor; eexists; vm_compute; reflexivity.
  - vm_compute. reflexivity.
  - reflexivity.
Defined.

Lemma above_climbs (f : string -> option string) (a t : string) :
  above f a t -> climbs f t a.
Proof.
  induction 1 as [a Ha | a p t Ha Hp Hup IH]; [now constructor |].
  destruct (string_dec a t) as [-> | Hne]; [now constructor |].
  eapply climbs_up; eauto.
Qed.

Lemma climbs_nonempty (f : string -> option string) (t a : string) :
  climbs f t a -> a <> "".
Proof. now destruct 1. Qed.

Lemma climbs_target_nonempty (f : string -> option string) (t a : string) :
  climbs f t a -> t <> "".
Proof. induction 1; assumption. Qed.

Lemma table_depth_cycle (db : Map ITopicData) (C : string -> Prop) :
  (forall x, C x -> x <> "" /\ exists p, found_parent db x = Some p /\ C p) ->
  forall fuel x depth, C x -> table_depth_loop fuel db (Some x) depth = OutOfFuel.
Proof.
  intros Hclosed. induction fuel as [| fuel IH]; intros x depth Hx; [reflexivity |].
  cbn [table_depth_loop].
  destruct (Hclosed x Hx) as [Hne [p [Hp Hcp]]].
  rewrite (proj2 (truthy_Some x) Hne), Hp.
  destruct (Hclosed p Hcp) as [Hpne _].
  rewrite (proj2 (truthy_Some p) Hpne). cbn [negb]. now apply IH.
Qed.

(** X17. The check is needed: when it answers true for a topic and a new
    parent, then after the record of the topic is replaced by one with that
    parent the depth walk of the topic never returns. *)
Theorem reparent_closes_cycle (db : Map ITopicData) (topicId newParentId : string)
  (updated : ITopicData) (fuel fuel' : nat) :
  wouldCreateCircularReference fuel db topicId newParentId = Ok true ->
  parentTopicId updated = Some newParentId ->
  calculateTopicDepth fuel' (map_set topicId updated db) topicId = OutOfFuel.
Proof.
  intros Hcheck Hparent.
  pose proof (proj1 (wouldCreateCircularReference_answer db _ _ _ _ Hcheck) eq_refl) as Hup.
  apply above_climbs in Hup.
  pose proof (climbs_target_nonempty _ _ _ Hup) as Htop.
  unfold calculateTopicDepth.
  apply (table_depth_cycle _ (climbs (found_parent db) topicId)); [| now constructor].
  intros x Hx. split; [eapply climbs_nonempty; exact Hx |].
  rewrite found_parent_set. destruct (String.eqb x topicId) eqn:E.
  - exists newParentId. split; assumption.
  - apply String.eqb_neq in E. inversion Hx as [| a p Ha Hat Hp Hcp]; subst; [congruence |].
    exists p. split; assumption.
Qed.

Lemma reparent_closes_cycle_witness :
  calculateTopicDepth 100
    (map_set "root" (mkTopic "root" "Root Topic" "Root content" (Some "grandchild1"))
       sampleTable) "root" = OutOfFuel.
Proof.
  apply (reparent_closes_cycle sampleTable "root" "grandchild1"
           (mkTopic "root" "Root Topic" "Root content" (Some "grandchild1")) 7 100).
  - vm_compute. reflexivity.
  - reflexivity.
Defined.

(** ** The graph that the service builds from its table *)

Lemma map_set_fresh {V : Type} (k : string) (v : V) (m : Map V) :
  ~ In k (map_keys m) -> map_set k v m = m ++ [(k, v)].
Proof.
  induction m as [| [k' v'] m IH]; intros Hk; simpl; [reflexivity |].
  simpl in Hk. destruct (String.eqb k k') eqn:E.
  - apply String.eqb_eq in E. subst. exfalso. apply Hk. now left.
  - rewrite IH; [reflexivity |]. intros Hin. apply Hk. now right.
Qed.

Lemma buildGraph_init_table (db : Map ITopicData) :
  Forall (fun e => fst e = id (snd e)) db ->
  forall g,
    NoDup (map_keys (topics g) ++ map_keys db) ->
    topics (fold_left buildGraph_init (map_values db) g) = topics g ++ db.
Proof.
  induction 1 as [| [k t] db Hk _ IH]; intros g Hnd; simpl.
  - now rewrite app_nil_r.
  - simpl in Hk. subst k. simpl in Hnd.
    assert (Hfresh : ~ In (id t) (map_keys (topics g))).
    { apply NoDup_remove_2 in Hnd. intros Hin. apply Hnd. apply in_or_app. now left. }
    rewrite IH; simpl.
    + rewrite (map_set_fresh _ _ _ Hfresh). now rewrite <- app_assoc.
    + rewrite (map_set_fresh _ _ _ Hfresh). unfold map_keys in *.
      rewrite map_app. simpl. now rewrite <- app_assoc.
Qed.

Lemma depth_loops_agree (g : Graph) (db : Map ITopicData) :
  topics g = db ->
  forall fuel cur depth, depth_loop fuel g cur depth = table_depth_loop fuel db cur depth.
Proof.
  intros Hsame.
  assert (Hpar : forall c, parent_of g c = found_parent db c).
  { intros c. unfold parent_of, found_parent, findById. now rewrite Hsame. }
  induction fuel as [| fuel IH]; intros cur depth; [reflexivity |].
  cbn [depth_loop table_depth_loop]. destruct cur as [c |]; [| reflexivity].
  rewrite Hpar, IH. reflexivity.
Qed.

(** X18. The path finder that the service builds from the records of its
    table holds exactly the table: the same records under the same ids, in
    the same order, provided each record is stored under its own id, once.
    The depth walk of the path finder and the depth walk of the service then
    agree on every id. *)
Theorem table_graph_agree (db : Map ITopicData) :
  NoDup (map_keys db) ->
  Forall (fun e => fst e = id (snd e)) db ->
  topics (buildGraph (map_values db)) = db /\
  forall fuel k,
    getTopicDepth fuel (buildGraph (map_values db)) k = calculateTopicDepth fuel db k.
Proof.
  intros Hnd Hids.
  assert (Hsame : topics (buildGraph (map_values db)) = db).
  { rewrite buildGraph_topics. now rewrite (buildGraph_init_table db Hids empty_graph). }
  split; [exact Hsame |]. intros fuel k.
  unfold getTopicDepth, calculateTopicDepth. now apply depth_loops_agree.
Qed.

Lemma table_graph_agree_witness :
  topics (buildGraph (map_values sampleTable)) = sampleTable /\
  forall fuel k,
    getTopicDepth fuel (buildGraph (map_values sampleTable)) k
    = calculateTopicDepth fuel sampleTable k.
Proof.
  apply (table_graph_agree sampleTable).
  - vm_compute. repeat constructor; simpl; intuition discriminate.
  - repeat constructor.
Defined.

(** ** The counts of the statistics *)

Lemma fold_sizes (l : list StrSet) :
  forall a, fold_left (fun sum ns => (sum + set_size ns)%nat) l a
            = (a + list_sum (map set_size l))%nat.
Proof.
  induction l as [| s l IH]; intros a; simpl; [lia |]. rewrite IH. lia.
Qed.

Lemma degree_total_set (k : string) (s old : StrSet) (adj : Map StrSet) :
  map_get k adj = Some old ->
  (degree_total (map_set k s adj) + set_size old = degree_total adj + set_size s)%nat.
Proof.
  unfold degree_total, map_values.
  induction adj as [| [k' s'] adj IH]; simpl; [discriminate |].
  destruct (String.eqb k k') eqn:E; simpl.
  - intros [= ->]. lia.
  - intros H. apply IH in H. lia.
Qed.

Lemma degree_total_add (k x : string) (s : StrSet) (adj : Map StrSet) :
  map_get k adj = Some s -> ~ In x s ->
  degree_total (adj_add k x adj) = S (degree_total adj).
Proof.
  intros Hk Hx. unfold adj_add. rewrite Hk.
  pose proof (degree_total_set k (set_add x s) s adj Hk) as H.
  unfold set_add in *. rewrite (proj2 (set_has_false x s) Hx) in *.
  unfold set_size in *. rewrite length_app in H. simpl in H. lia.
Qed.

Lemma degree_total_empty (adj : Map StrSet) :
  (forall e, In e adj -> snd e = []) -> degree_total adj = 0%nat.
Proof.
  unfold degree_total, map_values. induction adj as [| e adj IH]; intros H; [reflexivity |].
  simpl. rewrite (H e (or_introl eq_refl)). simpl. apply IH.
  intros e' He'. apply H. now right.
Qed.

Lemma resolved_link (g : Graph) (t : ITopicData) :
  resolved g t = false -> buildGraph_link g t = g.
Proof.
  unfold resolved, buildGraph_link. destruct (parentTopicId t) as [p |]; [| reflexivity].
  now intros ->.
Qed.

Lemma degree_total_link (g : Graph) (t : ITopicData) (p : string) :
  map_keys (adjacencyList g) = map_keys (topics g) ->
  map_has (id t) (topics g) = true ->
  parentTopicId t = Some p ->
  resolved g t = true ->
  p <> id t ->
  ~ In p (neighbors g (id t)) ->
  ~ In (id t) (neighbors g p) ->
  degree_total (adjacencyList (buildGraph_link g t)) = S (S (degree_total (adjacencyList g))).
Proof.
  intros Hkeys Ht Hp Hres Hne Hfresh1 Hfresh2.
  unfold resolved in Hres. unfold buildGraph_link. rewrite Hp in *. rewrite Hres.
  apply andb_true_iff in Hres. destruct Hres as [_ Hknown]. simpl.
  assert (Hhas : forall k, map_has k (topics g) = true ->
                           exists s, map_get k (adjacencyList g) = Some s).
  { intros k Hk. apply map_has_In in Hk. rewrite <- Hkeys in Hk. apply map_has_In in Hk.
    unfold map_has in Hk. destruct (map_get k (adjacencyList g)) as [s |]; [| discriminate].
    now exists s. }
  destruct (Hhas p Hknown) as [sp Hsp]. destruct (Hhas (id t) Ht) as [st Hst].
  unfold neighbors in Hfresh1, Hfresh2. rewrite Hst in Hfresh1. rewrite Hsp in Hfresh2.
  rewrite (degree_total_add (id t) p st).
  - now rewrite (degree_total_add p (id t) sp).
  - rewrite adj_add_get, Hst.
    destruct (String.eqb (id t) p) eqn:E; [| reflexivity].
    apply String.eqb_eq in E. congruence.
  - assumption.
Qed.

Lemma links_nil (known : string -> bool) (u v : string) : ~ links [] known u v.
Proof. intros [t [p [[] _]]]. Qed.

(** The degrees after the records of a prefix of the list have been linked. *)
Lemma degree_total_prefix (ts : list ITopicData) :
  NoDup (map id ts) ->
  (forall t t', In t ts -> In t' ts ->
                parentTopicId t = Some (id t') -> parentTopicId t' = Some (id t) ->
                id t = "" \/ id t' = "") ->
  forall pre post,
    ts = pre ++ post ->
    let g0 := fold_left buildGraph_init ts empty_graph in
    degree_total (adjacencyList (fold_left buildGraph_link pre g0))
    = (2 * length (filter (resolved g0) pre))%nat.
Proof.
  intros Hnd Hacyclic pre. induction pre as [| t pre IH] using rev_ind; intros post Hts g0.
  { simpl. pose proof (buildGraph_init_ok ts) as [Hnd0 Hk0 _ Hem]. fold g0 in Hnd0, Hk0, Hem.
    unfold degree_total, map_values.
    assert (Hall : forall e, In e (adjacencyList g0) -> snd e = []).
    { intros [k s] Hin. simpl. rewrite <- (Hem k). unfold neighbors.
      rewrite (map_get_NoDup_In k s (adjacencyList g0)); [reflexivity | | exact Hin].
      now rewrite Hk0. }
    fold (map_values (adjacencyList g0)). fold (degree_total (adjacencyList g0)).
    now apply degree_total_empty. }
  rewrite fold_left_app. simpl. rewrite filter_app, length_app. simpl.
  rewrite <- app_assoc in Hts. simpl in Hts.
  specialize (IH (t :: post) Hts). cbv zeta in IH. fold g0 in IH.
  set (g := fold_left buildGraph_link pre g0) in *.
  pose proof (buildGraph_init_ok ts) as [Hnd0 Hk0 Hid0 Hem0]. fold g0 in Hnd0, Hk0, Hid0, Hem0.
  assert (Htop : topics g = topics g0).
  { unfold g. apply fold_left_invariant; [reflexivity |].
    intros acc x _ <-. apply buildGraph_link_topics. }
  assert (Hkeys : map_keys (adjacencyList g) = map_keys (topics g0)).
  { unfold g. apply fold_left_invariant; [exact Hk0 |].
    intros acc x _ <-. apply buildGraph_link_keys. }
  assert (Hin : forall x, In x ts -> map_has (id x) (topics g0) = true).
  { intros x Hx. unfold g0. rewrite buildGraph_init_has. simpl. apply existsb_exists.
    exists x. split; [assumption | apply String.eqb_refl]. }
  assert (Hres : resolved g t = resolved g0 t).
  { unfold resolved. now rewrite Htop. }
  assert (Ht : In t ts) by (rewrite Hts; apply in_elt).
  assert (Hpre : forall x, In x pre -> In x ts).
  { intros x Hx. rewrite Hts. apply in_or_app. now left. }
  assert (Hnb : forall u v, In v (neighbors g u) <->
                            links pre (fun p => map_has p (topics g0)) u v).
  { intros u v. unfold g.
    rewrite (buildGraph_links_fold g0 u v pre g0 eq_refl Hk0);
      [| intros x Hx; apply Hin, Hpre, Hx].
    unfold neighbors at 1.
    destruct (map_get u (adjacencyList g0)) as [s |] eqn:Es.
    - pose proof (Hem0 u) as Hu. unfold neighbors in Hu. rewrite Es in Hu.
      subst s. simpl. tauto.
    - simpl. tauto. }
  destruct (resolved g0 t) eqn:Er.
  2:{ rewrite resolved_link by now rewrite Hres. rewrite IH. simpl. lia. }
  assert (Hp : exists p, parentTopicId t = Some p /\ p <> "" /\
                         map_has p (topics g0) = true).
  { unfold resolved in Er. destruct (parentTopicId t) as [p |]; [| discriminate].
    apply andb_true_iff in Er. destruct Er as [Hp1 Hp2]. exists p.
    split; [reflexivity |]. split; [now apply truthy_Some | assumption]. }
  destruct Hp as [p [Hp [Hpne Hpk]]].
  assert (Hdistinct : forall x, In x pre -> id x <> id t).
  { intros x Hx Heq. rewrite Hts, map_app in Hnd. simpl in Hnd.
    apply NoDup_remove_2 in Hnd. apply Hnd. apply in_or_app. left.
    rewrite <- Heq. now apply in_map. }
  assert (Hno : forall u v, (u = id t /\ v = p) \/ (u = p /\ v = id t) ->
                            ~ links pre (fun q => map_has q (topics g0)) u v).
  { intros u v Huv [x [q [Hx [Hq [Hqne [_ Hcase]]]]]].
    assert (Hcyc : id x = p /\ q = id t).
    { destruct Huv as [[-> ->] | [-> ->]]; destruct Hcase as [[H1 H2] | [H1 H2]];
        try (exfalso; apply (Hdistinct x Hx); congruence); split; congruence. }
    destruct Hcyc as [Hxp ->].
    destruct (Hacyclic t x Ht (Hpre x Hx)); congruence. }
  assert (Hself : p <> id t).
  { intros ->. destruct (Hacyclic t t Ht Ht); congruence. }
  assert (H1 : map_keys (adjacencyList g) = map_keys (topics g)) by congruence.
  assert (H2 : map_has (id t) (topics g) = true) by (rewrite Htop; now apply Hin).
  assert (H3 : resolved g t = true) by congruence.
  assert (H4 : ~ In p (neighbors g (id t))) by (rewrite Hnb; apply Hno; now left).
  assert (H5 : ~ In (id t) (neighbors g p)) by (rewrite Hnb; apply Hno; now right).
  rewrite (degree_total_link g t p H1 H2 Hp H3 Hself H4 H5).
  rewrite IH. simpl. lia.
Qed.

Lemma map_result_all {A B : Type} (f : A -> result B) (l : list A) (ys : list B) :
  map_result f l = Ok ys ->
  Forall2 (fun x y => f x = Ok y) l ys.
Proof.
  revert ys. induction l as [| x l IH]; intros ys H; simpl in H.
  - injection H as <-. constructor.
  - destruct (f x) as [y | |] eqn:Ey; simpl in H; try discriminate.
    destruct (map_result f l) as [ys' | |]; simpl in H; try discriminate.
    injection H as <-. constructor; [assumption | now apply IH].
Qed.

Lemma Forall2_In_l {A B : Type} (R : A -> B -> Prop) (l : list A) (l' : list B) :
  Forall2 R l l' -> forall x, In x l -> exists y, In y l' /\ R x y.
Proof.
  induction 1 as [| a b l l' Hab _ IH]; intros x Hx; [destruct Hx |].
  destruct Hx as [<- | Hx].
  - exists b. split; [now left | assumption].
  - destruct (IH x Hx) as [y [Hy Hxy]]. exists y. split; [now right | assumption].
Qed.

Lemma getGraphStats_depths (fuel : nat) (g : Graph) (stats : GraphStats) :
  getGraphStats fuel g = Ok stats ->
  exists depths,
    Forall2 (fun k d => getTopicDepth fuel g k = Ok d) (map_keys (topics g)) depths /\
    stats = mkStats (map_size (topics g))
              (inject_Z (Z.of_nat (degree_total (adjacencyList g))) / 2)
              (Math_max (map num_of_nat depths))
              (map id (filter parentless (map_values (topics g)))).
Proof.
  unfold getGraphStats. intros H.
  destruct (map_result (getTopicDepth fuel g) (map_keys (topics g))) as [depths | |] eqn:E;
    simpl in H; try discriminate.
  exists depths. split; [now apply map_result_all |].
  injection H as <-. rewrite fold_sizes. reflexivity.
Qed.

(** The walk up the parents that a returned depth stands for. *)
Lemma getTopicDepth_lineage (fuel : nat) (g : Graph) (k : string) (d : nat) :
  getTopicDepth fuel g k = Ok d ->
  exists l, lineage (parent_of g) (Some k) l /\ d = pred (length l).
Proof.
  unfold getTopicDepth. rewrite (depth_loops_agree g (topics g) eq_refl). intros H.
  destruct (table_depth_returns _ _ _ _ _ H) as [l [Hl Hlen]].
  exists l. split; [exact Hl |].
  destruct fuel as [| fuel]; [discriminate |].
  rewrite (table_depth_lineage _ _ _ Hl (S fuel) 0%nat Hlen) in H by lia.
  now injection H as <-.
Qed.

Lemma lineage_no_two_cycle (par : string -> option string) (a b : string)
  (l : list string) :
  lineage par (Some a) l -> par a = Some b -> par b = Some a -> a = "" \/ b = "".
Proof.
  intros Hl Hab Hba.
  destruct (string_dec a "") as [| Ha]; [now left |].
  destruct (string_dec b "") as [| Hb]; [now right |]. exfalso.
  pose proof (lineage_NoDup _ _ _ Hl) as Hnodup.
  inversion Hl as [? Hf | ? l1 _ Hl1]; subst.
  { apply truthy_Some in Ha. congruence. }
  rewrite Hab in Hl1.
  inversion Hl1 as [? Hf | ? l2 _ Hl2]; subst.
  { apply truthy_Some in Hb. congruence. }
  rewrite Hba in Hl2.
  inversion Hl2 as [? Hf | ? l3 _ Hl3]; subst.
  { apply truthy_Some in Ha. congruence. }
  inversion Hnodup as [| ? ? Hnot _]; subst. apply Hnot. right. now left.
Qed.

Lemma table_of_records (ts : list ITopicData) :
  Forall (fun e => fst e = id (snd e)) (map (fun t => (id t, t)) ts).
Proof.
  apply Forall_forall. intros e He. apply in_map_iff in He.
  destruct He as [t [<- _]]. reflexivity.
Qed.

Lemma buildGraph_topics_table (ts : list ITopicData) :
  NoDup (map id ts) ->
  topics (buildGraph ts) = map (fun t => (id t, t)) ts.
Proof.
  intros Hnd. rewrite buildGraph_topics.
  pose proof (buildGraph_init_table (map (fun t => (id t, t)) ts)) as H.
  unfold map_values, map_keys in H. rewrite !map_map in H. simpl in H.
  rewrite map_id in H. apply (H (table_of_records ts) empty_graph). exact Hnd.
Qed.

Lemma classes_partition (g : Graph) (ts : list ITopicData) :
  length ts = (length (filter parentless ts) + length (filter (resolved g) ts)
               + length (filter (unresolved g) ts))%nat.
Proof.
  induction ts as [| t ts IH]; [reflexivity |]. simpl.
  unfold parentless at 1, resolved at 1, unresolved at 1.
  destruct (parentTopicId t) as [p |]; [| simpl; lia].
  destruct (truthy (Some p)); [| simpl; lia].
  destruct (map_has p (topics g)); simpl; lia.
Qed.

(** X19. For records with distinct ids, when [getGraphStats] returns, its
    node count is the number of records, its edge count the number of records
    whose parent id is the id of a topic, and its roots are the ids of the
    records without parent id, in the order of the list.  Each record falls in
    one of three classes, so the node count is the number of roots plus the
    number of edges plus the number of records with an unknown parent id. *)
Theorem getGraphStats_counts (ts : list ITopicData) (fuel : nat) (stats : GraphStats) :
  NoDup (map id ts) ->
  getGraphStats fuel (buildGraph ts) = Ok stats ->
  nodeCount stats = length ts /\
  edgeCount stats == inject_Z (Z.of_nat (length (filter (resolved (buildGraph ts)) ts))) /\
  rootNodes stats = map id (filter parentless ts) /\
  nodeCount stats = (length (rootNodes stats)
                     + length (filter (resolved (buildGraph ts)) ts)
                     + length (filter (unresolved (buildGraph ts)) ts))%nat.
Proof.
  intros Hnd H. set (g := buildGraph ts) in *.
  pose proof (buildGraph_topics_table ts Hnd) as Htable. fold g in Htable.
  destruct (getGraphStats_depths fuel g stats H) as [depths [Hdepths ->]]. simpl.
  assert (Hvalues : map_values (topics g) = ts).
  { rewrite Htable. unfold map_values. rewrite map_map. simpl. apply map_id. }
  assert (Hsize : map_size (topics g) = length ts).
  { rewrite Htable. unfold map_size. apply length_map. }
  assert (Hstored : forall t, In t ts -> map_get (id t) (topics g) = Some t).
  { intros t Ht. apply map_get_NoDup_In.
    - rewrite Htable. unfold map_keys. rewrite map_map. simpl. exact Hnd.
    - rewrite Htable. apply in_map_iff. now exists t. }
  assert (Hwalk : forall t, In t ts -> exists l, lineage (parent_of g) (Some (id t)) l).
  { intros t Ht.
    assert (Hk : In (id t) (map_keys (topics g))).
    { apply map_has_In. unfold map_has. now rewrite (Hstored t Ht). }
    destruct (Forall2_In_l _ _ _ Hdepths (id t) Hk) as [d [_ Hd]].
    destruct (getTopicDepth_lineage _ _ _ _ Hd) as [l [Hl _]]. now exists l. }
  assert (Hacyclic : forall t t', In t ts -> In t' ts ->
                                  parentTopicId t = Some (id t') ->
                                  parentTopicId t' = Some (id t) ->
                                  id t = "" \/ id t' = "").
  { intros t t' Ht Ht' Hp Hp'.
    destruct (string_dec (id t) "") as [| Hne]; [now left |].
    destruct (string_dec (id t') "") as [| Hne']; [now right |]. exfalso.
    destruct (Hwalk t Ht) as [l Hl].
    assert (Hpar : parent_of g (id t) = Some (id t')).
    { unfold parent_of. now rewrite (Hstored t Ht). }
    assert (Hpar' : parent_of g (id t') = Some (id t)).
    { unfold parent_of. now rewrite (Hstored t' Ht'). }
    destruct (lineage_no_two_cycle _ _ _ _ Hl Hpar Hpar'); contradiction. }
  assert (Hdegree : degree_total (adjacencyList g)
                    = (2 * length (filter (resolved g) ts))%nat).
  { pose proof (degree_total_prefix ts Hnd Hacyclic ts [] (eq_sym (app_nil_r ts))) as Hd.
    cbv zeta in Hd. unfold g, buildGraph. rewrite Hd. f_equal. f_equal.
    apply filter_ext. intros t. unfold resolved.
    fold (buildGraph ts). now rewrite buildGraph_topics. }
  split; [exact Hsize |]. split; [| split].
  - rewrite Hdegree, Nat2Z.inj_mul, inject_Z_mult. change (inject_Z (Z.of_nat 2)) with 2.
    field.
  - now rewrite Hvalues.
  - rewrite Hvalues, Hsize, length_map. apply classes_partition.
Qed.

Lemma getGraphStats_counts_witness :
  nodeCount (mkStats 5 (8 # 2) (Finite 2) ["root"]) = length sampleTopics /\
  edgeCount (mkStats 5 (8 # 2) (Finite 2) ["root"])
  == inject_Z (Z.of_nat (length (filter (resolved (buildGraph sampleTopics)) sampleTopics))) /\
  rootNodes (mkStats 5 (8 # 2) (Finite 2) ["root"]) = map id (filter parentless sampleTopics) /\
  nodeCount (mkStats 5 (8 # 2) (Finite 2) ["root"])
  = (length (rootNodes (mkStats 5 (8 # 2) (Finite 2) ["root"]))
     + length (filter (resolved (buildGraph sampleTopics)) sampleTopics)
     + length (filter (unresolved (buildGraph sampleTopics)) sampleTopics))%nat.
Proof.
  apply (getGraphStats_counts sampleTopics 10).
  - vm_compute. repeat constructor; simpl; intuition discriminate.
  - vm_compute. reflexivity.
Defined.

(** ** The maximum depth of the statistics *)

Lemma num_max2_nats (a x : nat) :
  num_max2 (num_of_nat a) (num_of_nat x) = num_of_nat (Nat.max a x).
Proof.
  unfold num_max2, num_of_nat, num_ltb.
  destruct (Qltb (inject_Z (Z.of_nat a)) (inject_Z (Z.of_nat x))) eqn:E.
  - apply Qltb_true in E. rewrite <- Zlt_Qlt in E. f_equal. f_equal. f_equal. lia.
  - apply Qltb_false in E. rewrite <- Zle_Qle in E. f_equal. f_equal. f_equal. lia.
Qed.

Lemma fold_max_nats (l : list nat) :
  forall a, exists m,
    fold_left num_max2 (map num_of_nat l) (num_of_nat a) = num_of_nat m /\
    (m = a \/ In m l) /\ (a <= m)%nat /\ Forall (fun x => (x <= m)%nat) l.
Proof.
  induction l as [| x l IH]; intros a; cbn [map fold_left].
  - exists a. repeat split; auto.
  - rewrite num_max2_nats. destruct (IH (Nat.max a x)) as [m [Hm [Hin [Hle Hall]]]].
    exists m. split; [exact Hm |]. split; [| split].
    + destruct Hin as [-> | Hin]; [| right; now right].
      destruct (Nat.max_spec a x) as [[_ ->] | [_ ->]]; [right; now left | now left].
    + lia.
    + constructor; [lia | assumption].
Qed.

Lemma Math_max_nats (x : nat) (l : list nat) :
  exists m, Math_max (map num_of_nat (x :: l)) = num_of_nat m /\
            In m (x :: l) /\ Forall (fun y => (y <= m)%nat) (x :: l).
Proof.
  unfold Math_max. cbn [map fold_left].
  change (num_max2 NegInfinity (num_of_nat x)) with (num_of_nat x).
  destruct (fold_max_nats l x) as [m [Hm [Hin [Hle Hall]]]].
  exists m. split; [exact Hm |]. split.
  - destruct Hin as [-> | Hin]; [now left | now right].
  - now constructor.
Qed.

Lemma lineage_parents (par : string -> option string) (cur : option string)
  (l : list string) :
  lineage par cur l -> forall x, In x (removelast l) -> exists p, par x = Some p.
Proof.
  induction 1 as [cur Ht | c l Ht Hl IH]; intros x Hx; [destruct Hx |].
  destruct l as [| b l]; [destruct Hx |].
  change (removelast (c :: b :: l)) with (c :: removelast (b :: l)) in Hx.
  destruct Hx as [<- | Hx]; [| now apply IH].
  inversion Hl; subst. eauto.
Qed.

Lemma length_removelast {A : Type} (l : list A) : length (removelast l) = pred (length l).
Proof.
  induction l as [| a l IH]; [reflexivity |].
  destruct l as [| b l]; [reflexivity |].
  change (removelast (a :: b :: l)) with (a :: removelast (b :: l)).
  cbn [length]. cbn [length] in IH. rewrite IH. reflexivity.
Qed.

Lemma NoDup_removelast {A : Type} (l : list A) : NoDup l -> NoDup (removelast l).
Proof.
  induction 1 as [| a l Ha Hl IH]; [constructor |].
  destruct l as [| b l]; [constructor |].
  change (removelast (a :: b :: l)) with (a :: removelast (b :: l)).
  constructor; [| assumption].
  intros Hin. apply Ha. clear - Hin.
  revert b Hin. induction l as [| c l IH]; intros b Hin; [destruct Hin |].
  change (removelast (b :: c :: l)) with (b :: removelast (c :: l)) in Hin.
  destruct Hin as [<- | Hin]; [now left | right; now apply IH].
Qed.

Lemma Forall2_In_r {A B : Type} (R : A -> B -> Prop) (l : list A) (l' : list B) :
  Forall2 R l l' -> forall y, In y l' -> exists x, In x l /\ R x y.
Proof.
  induction 1 as [| a b l l' Hab _ IH]; intros y Hy; [destruct Hy |].
  destruct Hy as [<- | Hy].
  - exists a. split; [now left | assumption].
  - destruct (IH y Hy) as [x [Hx Hxy]]. exists x. split; [now right | assumption].
Qed.

(** A depth is at most the number of topics. *)
Lemma getTopicDepth_bound (fuel : nat) (g : Graph) (k : string) (d : nat) :
  getTopicDepth fuel g k = Ok d -> (d <= map_size (topics g))%nat.
Proof.
  intros H. destruct (getTopicDepth_lineage _ _ _ _ H) as [l [Hl ->]].
  rewrite <- length_removelast. unfold map_size.
  rewrite <- (length_map fst (topics g)).
  apply NoDup_incl_length.
  - apply NoDup_removelast. eapply lineage_NoDup. exact Hl.
  - intros x Hx. destruct (lineage_parents _ _ _ Hl x Hx) as [p Hp].
    apply (map_has_In x (topics g)). unfold parent_of in Hp. unfold map_has.
    now destruct (map_get x (topics g)).
Qed.

(** X20. When [getGraphStats] returns on a graph with at least one topic, its
    maximum depth is the depth of some topic, no topic is deeper, and the
    maximum depth is at most the number of topics. *)
Theorem getGraphStats_maxDepth (fuel : nat) (g : Graph) (stats : GraphStats) :
  getGraphStats fuel g = Ok stats ->
  topics g <> [] ->
  exists d,
    maxDepth stats = num_of_nat d /\
    (d <= nodeCount stats)%nat /\
    (exists k, map_has k (topics g) = true /\ getTopicDepth fuel g k = Ok d) /\
    (forall k, map_has k (topics g) = true ->
               exists d', getTopicDepth fuel g k = Ok d' /\ (d' <= d)%nat).
Proof.
  intros H Hne. destruct (getGraphStats_depths fuel g stats H) as [depths [Hdepths ->]].
  simpl.
  assert (Hback : forall d, In d depths ->
                            exists k, In k (map_keys (topics g)) /\
                                      getTopicDepth fuel g k = Ok d).
  { intros d Hd. exact (Forall2_In_r _ _ _ Hdepths d Hd). }
  destruct depths as [| x depths].
  { inversion Hdepths as [Hkeys |]. destruct (topics g); [congruence | discriminate]. }
  destruct (Math_max_nats x depths) as [m [Hm [Hin Hall]]].
  exists m. split; [exact Hm |].
  destruct (Hback m Hin) as [k [Hk Hd]].
  split; [eapply getTopicDepth_bound; exact Hd |]. split.
  - exists k. split; [now apply map_has_In | exact Hd].
  - intros k' Hk'. apply map_has_In in Hk'.
    destruct (Forall2_In_l _ _ _ Hdepths k' Hk') as [d' [Hd' Hkd']].
    exists d'. split; [exact Hkd' |]. rewrite Forall_forall in Hall. now apply Hall.
Qed.

Lemma getGraphStats_maxDepth_witness :
  exists d,
    maxDepth (mkStats 5 (8 # 2) (Finite 2) ["root"]) = num_of_nat d /\
    (d <= nodeCount (mkStats 5 (8 # 2) (Finite 2) ["root"]))%nat /\
    (exists k, map_has k (topics (buildGraph sampleTopics)) = true /\
               getTopicDepth 10 (buildGraph sampleTopics) k = Ok d) /\
    (forall k, map_has k (topics (buildGraph sampleTopics)) = true ->
               exists d', getTopicDepth 10 (buildGraph sampleTopics) k = Ok d' /\
                          (d' <= d)%nat).
Proof.
  apply (getGraphStats_maxDepth 10 (buildGraph sampleTopics)).
  - vm_compute. reflexivity.
  - vm_compute. discriminate.
Defined.

(** ** Topics within a distance: what a returned list holds *)

Lemma findTopicsWithinDistance_returned (g : Graph) (k : string) (maxDistance : Q)
  (fuel : nat) (result : list PathNode) :
  well_formed g ->
  map_has k (topics g) = true ->
  findTopicsWithinDistance fuel g k maxDistance = Ok result ->
  exists st,
    binv g k maxDistance idle st /\ queue st = [] /\
    NoDup (map topicId result) /\
    forall e, In e result <->
              exists v d, e = mkPathNode v d None /\
                          map_get v (bfs_distances st) = Some d /\ d <= maxDistance.
Proof.
  intros Hwf Hk H.
  set (st0 := mkBfs (map_set k 0 []) [mkPathNode k 0 None] []).
  destruct (bfs_loop_spec g k maxDistance Hwf (S (bfs_work g st0)) st0
              (binv_init g k maxDistance) (Nat.lt_succ_diag_r _))
    as [st [Hloop [Hinv Hq]]].
  unfold findTopicsWithinDistance in H. rewrite Hk in H. simpl negb in H. cbv iota in H.
  fold st0 in H.
  destruct (bfs_loop fuel g maxDistance st0) as [st' | |] eqn:E; simpl in H;
    try discriminate.
  assert (Hsame : st' = st).
  { pose proof (bfs_loop_more_fuel g maxDistance _ st0 st' E
                  (Nat.max fuel (S (bfs_work g st0))) (Nat.le_max_l _ _)) as H1.
    pose proof (bfs_loop_more_fuel g maxDistance _ st0 st Hloop
                  (Nat.max fuel (S (bfs_work g st0))) (Nat.le_max_r _ _)) as H2.
    congruence. }
  subst st'. injection H as <-. exists st.
  split; [exact Hinv |]. split; [exact Hq |]. split.
  - apply (Permutation_NoDup (l := map topicId
             (filter (fun node => Qle_bool (node_distance node) maxDistance)
                (map (fun e => mkPathNode (fst e) (snd e) None) (bfs_distances st))))).
    + apply Permutation_map. symmetry. apply stable_sort_Permutation.
    + apply NoDup_map_filter. rewrite map_map. simpl. apply (b_nodup _ _ _ _ _ Hinv).
  - intros e. rewrite stable_sort_In, filter_In, in_map_iff, Qle_bool_iff. split.
    + intros [[[v d] [<- Hin]] Hle]. simpl in *. exists v, d.
      repeat split; auto.
      apply map_get_NoDup_In; [apply (b_nodup _ _ _ _ _ Hinv) | exact Hin].
    + intros [v [d [-> [Hget Hle]]]]. simpl. split; [| assumption].
      exists (v, d). split; [reflexivity | now apply map_get_In].
Qed.

(** X21. Every entry of the list that [findTopicsWithinDistance] returns
    names a topic to which [findShortestPath] finds a path from the same
    start, and the distance of the entry is at least the distance of that
    shortest path; the two are equal when no cycle of the graph can be reached
    from the start. *)
Theorem findTopicsWithinDistance_above_shortest (ts : list ITopicData) (k : string)
  (maxDistance : Q) (fuel : nat) (result : list PathNode) (e : PathNode) :
  Forall (fun t => id t <> "") ts ->
  findTopicsWithinDistance fuel (buildGraph ts) k maxDistance = Ok result ->
  In e result ->
  exists sp d,
    (exists n, forall fuel', (n <= fuel')%nat ->
       findShortestPath fuel' (buildGraph ts) k (topicId e) = Ok (Some sp)) /\
    distance sp = Finite d /\
    d <= node_distance e /\
    (unique_simple_paths (buildGraph ts) k -> d == node_distance e).
Proof.
  intros Hids H He. pose proof (buildGraph_well_formed ts) as Hwf.
  set (g := buildGraph ts) in *.
  assert (Hk : map_has k (topics g) = true).
  { unfold findTopicsWithinDistance in H.
    destruct (map_has k (topics g)); [reflexivity |]. simpl in H.
    injection H as <-. destruct He. }
  destruct (findTopicsWithinDistance_returned g k maxDistance fuel result Hwf Hk H)
    as [st [Hinv [_ [_ Hentries]]]].
  apply Hentries in He. destruct He as [v [d [-> [Hget _]]]]. simpl.
  destruct (b_dist _ _ _ _ _ Hinv v d Hget) as [p [Hp [Hnd [Hw _]]]].
  assert (Hv : map_has v (topics g) = true).
  { apply (path_nodes_known g k v p Hwf Hk Hp). destruct Hp as [Hhd [Hlast _]].
    rewrite <- Hlast. apply last_In. intros ->. discriminate. }
  destruct (findShortestPath_outcome g k v Hwf (buildGraph_no_empty_id ts Hids) Hk Hv)
    as [r [Hfuel [Hnone Hsome]]].
  destruct r as [sp |].
  2:{ exfalso. apply (proj1 Hnone eq_refl). now exists p. }
  destruct (Hsome sp eq_refl) as [Hpath [_ [Hdist [Hmin _]]]].
  exists sp, (path_weight g (path sp)).
  split; [exact Hfuel |]. split; [exact Hdist |]. split.
  - rewrite <- Hw. now apply Hmin.
  - intros Huniq.
    assert (Hsimple : NoDup (path sp)).
    { destruct (ListDec.NoDup_dec string_dec (path sp)) as [Hs | Hs]; [assumption |].
      destruct (path_shorten g Hwf _ _ _ Hpath Hs) as [p' [Hp' Hlt]].
      specialize (Hmin p' Hp'). lra. }
    rewrite (Huniq v (path sp) p Hpath Hsimple Hp Hnd). rewrite Hw. apply Qeq_refl.
Qed.

Lemma findTopicsWithinDistance_above_shortest_witness :
  exists sp d,
    (exists n, forall fuel', (n <= fuel')%nat ->
       findShortestPath fuel' (buildGraph sampleTopics) "child1"
         (topicId (mkPathNode "root" (11 # 8) None)) = Ok (Some sp)) /\
    distance sp = Finite d /\
    d <= node_distance (mkPathNode "root" (11 # 8) None) /\
    (unique_simple_paths (buildGraph sampleTopics) "child1" ->
     d == node_distance (mkPathNode "root" (11 # 8) None)).
Proof.
  apply (findTopicsWithinDistance_above_shortest sampleTopics "child1" (3 # 2) 20
           [mkPathNode "child1" 0 None; mkPathNode "grandchild1" (8 # 6) None;
            mkPathNode "root" (11 # 8) None]).
  - repeat constructor; discriminate.
  - vm_compute. reflexivity.
  - right. right. now left.
Defined.

(** X22. With a bound below 1 no edge can be crossed, as every edge weighs
    at least 1: the list holds the start alone, at distance 0, and is empty
    when the bound is negative. *)
Theorem findTopicsWithinDistance_below_one (ts : list ITopicData) (k : string)
  (maxDistance : Q) (fuel : nat) (result : list PathNode) :
  map_has k (topics (buildGraph ts)) = true ->
  maxDistance < 1 ->
  findTopicsWithinDistance fuel (buildGraph ts) k maxDistance = Ok result ->
  result = if Qle_bool 0 maxDistance then [mkPathNode k 0 None] else [].
Proof.
  intros Hk Hsmall H. pose proof (buildGraph_well_formed ts) as Hwf.
  set (g := buildGraph ts) in *.
  destruct (findTopicsWithinDistance_returned g k maxDistance fuel result Hwf Hk H)
    as [st [Hinv [_ [Hnd Hentries]]]].
  assert (Honly : forall e, In e result -> e = mkPathNode k 0 None /\ 0 <= maxDistance).
  { intros e He. apply Hentries in He. destruct He as [v [d [-> [Hget Hle]]]].
    destruct (b_dist _ _ _ _ _ Hinv v d Hget) as [p [Hp [_ [Hw _]]]].
    pose proof (path_weight_hops g k v p Hwf Hp) as [Hlow _]. rewrite Hw in Hlow.
    assert (Hzero : hops p = 0%nat).
    { assert (Hlt : inject_Z (Z.of_nat (hops p)) < inject_Z 1).
      { change (inject_Z 1) with 1. lra. }
      rewrite <- Zlt_Qlt in Hlt. lia. }
    destruct Hp as [Hhd [Hlast _]]. destruct p as [| a p]; [discriminate |].
    injection Hhd as ->. unfold hops in Hzero. simpl in Hzero.
    destruct p as [| b p]; [| simpl in Hzero; lia].
    simpl in Hlast. subst v. split; [| now rewrite <- Hw in Hle].
    now rewrite <- Hw. }
  assert (Hstart : 0 <= maxDistance -> In (mkPathNode k 0 None) result).
  { intros Hle. apply Hentries. exists k, 0. split; [reflexivity |]. split; [| assumption].
    pose proof (b_start _ _ _ _ _ Hinv) as Hs. unfold map_has in Hs.
    destruct (map_get k (bfs_distances st)) as [d |] eqn:E; [| discriminate].
    destruct (b_dist _ _ _ _ _ Hinv k d E) as [p [Hp [Hndp [Hw _]]]].
    rewrite (simple_path_to_self g k p Hp Hndp) in Hw. now rewrite <- Hw. }
  destruct (Qle_bool 0 maxDistance) eqn:E.
  - apply Qle_bool_iff in E. specialize (Hstart E).
    destruct result as [| e1 result]; [destruct Hstart |].
    destruct (Honly e1 (or_introl eq_refl)) as [-> _].
    destruct result as [| e2 result]; [reflexivity |]. exfalso.
    destruct (Honly e2 (or_intror (or_introl eq_refl))) as [-> _].
    simpl in Hnd. inversion Hnd as [| ? ? Hnot _]; subst. apply Hnot. now left.
  - destruct result as [| e1 result]; [reflexivity |]. exfalso.
    destruct (Honly e1 (or_introl eq_refl)) as [_ Hle].
    apply Qle_bool_iff in Hle. congruence.
Qed.

Lemma findTopicsWithinDistance_below_one_witness :
  [mkPathNode "child1" 0 None]
  = if Qle_bool 0 (1 # 2) then [mkPathNode "child1" 0 None] else [].
Proof.
  apply (findTopicsWithinDistance_below_one sampleTopics "child1" (1 # 2) 20).
  - reflexivity.
  - reflexivity.
  - vm_compute. reflexivity.
Defined.

(** ** Topics within a distance: the levels of the search *)

Lemma reach_of_S (l : nat) : reach_of (S l) == reach_of l + (3 # 2).
Proof.
  unfold reach_of. rewrite Nat2Z.inj_succ. unfold Z.succ. rewrite inject_Z_plus.
  change (inject_Z 1) with 1. ring.
Qed.

Lemma reach_of_mono (l l' : nat) : (l <= l')%nat -> reach_of l <= reach_of l'.
Proof.
  intros H. unfold reach_of.
  assert (Hle : inject_Z (Z.of_nat l) <= inject_Z (Z.of_nat l')).
  { rewrite <- Zle_Qle. lia. }
  lra.
Qed.

Lemma StronglySorted_snoc (l : list nat) (x : nat) :
  StronglySorted le l -> Forall (fun y => (y <= x)%nat) l -> StronglySorted le (l ++ [x]).
Proof.
  induction 1 as [| a l Hl IH Ha]; intros Hall; simpl.
  - repeat constructor.
  - inversion Hall; subst. constructor; [now apply IH |].
    apply Forall_app. split; [assumption | now repeat constructor].
Qed.

Section Levels.
Variable g : Graph.
Variable k : string.
Variable maxDistance : Q.
Hypothesis Hwf : well_formed g.

(** The entries of the queue carry the number of hops at which they were
    written; [c] is the number of hops of the entry dequeued last, and
    [vl u] the number of hops at which the visited node [u] was dequeued.
    The pairs of [pend] are the neighbours that the running expansion has
    still to look at. *)
Record linv (pend : string -> string -> Prop) (st : BfsState)
  (gq : list (PathNode * nat)) (c : nat) (vl : string -> nat) : Prop := {
  l_queue : map fst gq = queue st;
  l_sorted : StronglySorted le (map snd gq);
  l_range : forall e l, In (e, l) gq -> (c <= l <= S c)%nat;
  l_bound : forall e l, In (e, l) gq -> node_distance e <= reach_of l;
  l_qdist : forall e l, In (e, l) gq ->
                        exists d, map_get (topicId e) (bfs_distances st) = Some d /\
                                  d <= node_distance e;
  l_vis : forall u, In u (bfs_visited st) ->
                    (vl u <= c)%nat /\
                    exists d, map_get u (bfs_distances st) = Some d /\ d <= reach_of (vl u);
  l_reach : forall v, map_has v (bfs_distances st) = true ->
                      In v (bfs_visited st) \/
                      exists e l, In (e, l) gq /\ topicId e = v;
  l_start : (In k (bfs_visited st) /\ vl k = 0%nat) \/
            exists e, In (e, 0%nat) gq /\ topicId e = k;
  l_done : forall u x,
      In u (bfs_visited st) -> In x (neighbors g u) -> ~ pend u x ->
      reach_of (S (vl u)) <= maxDistance ->
      (In x (bfs_visited st) /\ (vl x <= S (vl u))%nat) \/
      exists e l, In (e, l) gq /\ topicId e = x /\ (l <= S (vl u))%nat
}.

Definition no_pend (u x : string) : Prop := False.

Definition pend_from (u : string) (ns : list string) (u' x : string) : Prop :=
  u' = u /\ In x ns.

Lemma linv_weaken (pend pend' : string -> string -> Prop) (st : BfsState)
  (gq : list (PathNode * nat)) (c : nat) (vl : string -> nat) :
  (forall u x, In x (neighbors g u) -> pend u x -> pend' u x) ->
  linv pend st gq c vl -> linv pend' st gq c vl.
Proof.
  intros Hsub Hinv. split; try apply Hinv.
  intros u x Hu Hx Hnot. apply (l_done _ _ _ _ _ Hinv); auto.
Qed.

Lemma linv_init :
  linv no_pend (mkBfs (map_set k 0 []) [mkPathNode k 0 None] [])
       [(mkPathNode k 0 None, 0%nat)] 0 (fun _ => 0%nat).
Proof.
  split; simpl.
  - reflexivity.
  - repeat constructor.
  - intros e l [[= <- <-] | []]. lia.
  - intros e l [[= <- <-] | []]. simpl. unfold reach_of.
    change (inject_Z (Z.of_nat 0)) with 0. lra.
  - intros e l [[= <- <-] | []]. simpl. rewrite String.eqb_refl.
    exists 0. split; [reflexivity | lra].
  - intros u [].
  - intros v Hv. right. exists (mkPathNode k 0 None), 0%nat. split; [now left |].
    simpl. unfold map_has in Hv. simpl in Hv.
    destruct (String.eqb v k) eqn:E; [| discriminate]. apply String.eqb_eq in E. now subst.
  - right. exists (mkPathNode k 0 None). split; [now left | reflexivity].
  - intros u x [].
Qed.

(** An entry whose node is already visited is dropped. *)
Lemma linv_drop (st : BfsState) (e : PathNode) (l : nat) (gq : list (PathNode * nat))
  (c : nat) (vl : string -> nat) :
  linv no_pend st ((e, l) :: gq) c vl ->
  In (topicId e) (bfs_visited st) ->
  linv no_pend (mkBfs (bfs_distances st) (map fst gq) (bfs_visited st)) gq c vl.
Proof.
  intros Hinv He.
  pose proof (l_range _ _ _ _ _ Hinv e l (or_introl eq_refl)) as Hl.
  destruct (l_vis _ _ _ _ _ Hinv _ He) as [Hve _].
  split; simpl.
  - reflexivity.
  - pose proof (l_sorted _ _ _ _ _ Hinv) as Hs. simpl in Hs. now inversion Hs.
  - intros e' l' Hin. apply (l_range _ _ _ _ _ Hinv e'). now right.
  - intros e' l' Hin. apply (l_bound _ _ _ _ _ Hinv e'). now right.
  - intros e' l' Hin. apply (l_qdist _ _ _ _ _ Hinv e' l'). now right.
  - apply (l_vis _ _ _ _ _ Hinv).
  - intros v Hv. destruct (l_reach _ _ _ _ _ Hinv v Hv) as [H | [e' [l' [Hin Hv']]]];
      [now left |].
    destruct Hin as [[= <- <-] | Hin]; [left; now subst | right; eauto].
  - destruct (l_start _ _ _ _ _ Hinv) as [H | [e' [Hin Hk']]]; [now left |].
    destruct Hin as [Heq | Hin]; [| right; eauto].
    injection Heq as He' Hl'. subst e' l.
    left. rewrite <- Hk'. split; [assumption | lia].
  - intros u x Hu Hx _ Hreach.
    destruct (l_done _ _ _ _ _ Hinv u x Hu Hx) as [H | [e' [l' [Hin [Hx' Hl']]]]];
      [intros [] | assumption | now left |].
    destruct Hin as [[= <- <-] | Hin]; [| right; eauto].
    left. subst x. split; [assumption | lia].
Qed.

(** The node of the dequeued entry becomes visited, at the level of the
    entry. *)
Lemma linv_visit (st : BfsState) (e : PathNode) (l : nat) (gq : list (PathNode * nat))
  (c : nat) (vl : string -> nat) :
  linv no_pend st ((e, l) :: gq) c vl ->
  ~ In (topicId e) (bfs_visited st) ->
  linv (pend_from (topicId e) (neighbors g (topicId e)))
       (mkBfs (bfs_distances st) (map fst gq) (set_add (topicId e) (bfs_visited st)))
       gq l (fun x => if String.eqb x (topicId e) then l else vl x).
Proof.
  intros Hinv He. set (u := topicId e) in *.
  pose proof (l_range _ _ _ _ _ Hinv e l (or_introl eq_refl)) as Hl.
  assert (Hother : forall x, In x (bfs_visited st) -> String.eqb x u = false).
  { intros x Hx. apply String.eqb_neq. intros ->. contradiction. }
  pose proof (l_sorted _ _ _ _ _ Hinv) as Hs. simpl in Hs.
  inversion Hs as [| ? ? Hs' Hhead]; subst.
  split; simpl.
  - reflexivity.
  - assumption.
  - intros e' l' Hin. split.
    + rewrite Forall_forall in Hhead. apply Hhead.
      apply in_map_iff. exists (e', l'). split; [reflexivity | assumption].
    + destruct (l_range _ _ _ _ _ Hinv e' l' (or_intror Hin)). lia.
  - intros e' l' Hin. apply (l_bound _ _ _ _ _ Hinv e'). now right.
  - intros e' l' Hin. apply (l_qdist _ _ _ _ _ Hinv e' l'). now right.
  - intros x Hx. apply set_add_In in Hx. destruct Hx as [-> | Hx].
    + rewrite String.eqb_refl. split; [lia |].
      destruct (l_qdist _ _ _ _ _ Hinv e l (or_introl eq_refl)) as [d [Hd Hle]].
      exists d. split; [assumption |].
      pose proof (l_bound _ _ _ _ _ Hinv e l (or_introl eq_refl)). lra.
    + rewrite (Hother x Hx). destruct (l_vis _ _ _ _ _ Hinv x Hx) as [Hvx Hd].
      split; [lia | assumption].
  - intros v Hv. rewrite set_add_In.
    destruct (l_reach _ _ _ _ _ Hinv v Hv) as [H | [e' [l' [Hin Hv']]]]; [tauto |].
    destruct Hin as [[= <- <-] | Hin]; [left; left; now subst | right; eauto].
  - destruct (l_start _ _ _ _ _ Hinv) as [[Hk H0] | [e' [Hin Hk']]].
    + left. rewrite set_add_In, (Hother k Hk). tauto.
    + destruct Hin as [Heq | Hin]; [| right; eauto].
      injection Heq as He' Hl'. subst e' l.
      left. rewrite set_add_In. fold u in Hk'. rewrite <- Hk', String.eqb_refl. tauto.
  - intros u' x Hu' Hx Hnot. apply set_add_In in Hu'. destruct Hu' as [-> | Hu'].
    { exfalso. apply Hnot. split; [reflexivity | assumption]. }
    rewrite (Hother u' Hu'). intros Hreach.
    destruct (l_done _ _ _ _ _ Hinv u' x Hu' Hx) as [[Hxv Hxl] | [e' [l' [Hin [Hx' Hl']]]]];
      [intros [] | assumption | |].
    + left. rewrite set_add_In, (Hother x Hxv). tauto.
    + destruct Hin as [[= <- <-] | Hin]; [| right; eauto].
      left. fold u in Hx'. subst x. rewrite set_add_In, String.eqb_refl.
      split; [now left | lia].
Qed.

(** One more neighbour of the expanded node has been looked at. *)
Lemma linv_settle (u n : string) (ns : list string) (st : BfsState)
  (gq : list (PathNode * nat)) (c : nat) (vl : string -> nat) :
  linv (pend_from u (n :: ns)) st gq c vl ->
  (reach_of (S (vl u)) <= maxDistance ->
   (In n (bfs_visited st) /\ (vl n <= S (vl u))%nat) \/
   exists e l, In (e, l) gq /\ topicId e = n /\ (l <= S (vl u))%nat) ->
  linv (pend_from u ns) st gq c vl.
Proof.
  intros Hinv Hn. split; try apply Hinv.
  intros u' x Hu' Hx Hnot Hreach.
  destruct (string_dec u' u) as [-> | Hne].
  - destruct (string_dec x n) as [-> | Hxn]; [now apply Hn |].
    apply (l_done _ _ _ _ _ Hinv u x Hu' Hx); [| assumption].
    intros [_ [Heq | Hin]]; [congruence |]. apply Hnot. now split.
  - apply (l_done _ _ _ _ _ Hinv u' x Hu' Hx); [| assumption].
    intros [Heq _]. contradiction.
Qed.

(** The entry of the neighbour [n] is written, one level above the expanded
    node. *)
Lemma linv_push (u n : string) (ns : list string) (st : BfsState)
  (gq : list (PathNode * nat)) (l : nat) (vl : string -> nat) (q : Q)
  (tag : option string) :
  linv (pend_from u (n :: ns)) st gq l vl ->
  In u (bfs_visited st) ->
  vl u = l ->
  q <= reach_of l ->
  In n (neighbors g u) ->
  ~ In n (bfs_visited st) ->
  match map_get n (bfs_distances st) with
  | Some old => q + weight g u n < old
  | None => True
  end ->
  linv (pend_from u ns)
       (mkBfs (map_set n (q + weight g u n) (bfs_distances st))
              (queue st ++ [mkPathNode n (q + weight g u n) tag])
              (bfs_visited st))
       (gq ++ [(mkPathNode n (q + weight g u n) tag, S l)]) l vl.
Proof.
  intros Hinv Hu Hvl Hq Hn Hnv Hold.
  destruct (wf_neighbors g Hwf _ _ Hn) as [Huk Hnk].
  pose proof (weight_range g u n Huk Hnk) as [_ Hw].
  pose proof (reach_of_S l) as HS.
  set (nd := q + weight g u n) in *.
  assert (Hkeep : forall v d B, map_get v (bfs_distances st) = Some d -> d <= B ->
                                exists d', map_get v (map_set n nd (bfs_distances st))
                                           = Some d' /\ d' <= B).
  { intros v d B Hd HB. rewrite map_get_set. destruct (String.eqb v n) eqn:E.
    - apply String.eqb_eq in E. subst v. rewrite Hd in Hold.
      exists nd. split; [reflexivity | lra].
    - exists d. split; assumption. }
  apply linv_settle with (n := n).
  2:{ intros _. right. exists (mkPathNode n nd tag), (S l). split.
      - apply in_or_app. right. now left.
      - simpl. split; [reflexivity | lia]. }
  split; simpl.
  - rewrite map_app. simpl. now rewrite (l_queue _ _ _ _ _ Hinv).
  - rewrite map_app. simpl. apply StronglySorted_snoc; [apply (l_sorted _ _ _ _ _ Hinv) |].
    apply Forall_forall. intros y Hy. apply in_map_iff in Hy.
    destruct Hy as [[e' l'] [<- Hin]]. simpl.
    destruct (l_range _ _ _ _ _ Hinv e' l' Hin). lia.
  - intros e' l' Hin. apply in_app_or in Hin. destruct Hin as [Hin | [[= <- <-] | []]].
    + now apply (l_range _ _ _ _ _ Hinv e').
    + lia.
  - intros e' l' Hin. apply in_app_or in Hin. destruct Hin as [Hin | [[= <- <-] | []]].
    + now apply (l_bound _ _ _ _ _ Hinv e').
    + simpl. unfold nd. lra.
  - intros e' l' Hin. apply in_app_or in Hin. destruct Hin as [Hin | [[= <- <-] | []]].
    + destruct (l_qdist _ _ _ _ _ Hinv e' l' Hin) as [d [Hd Hle]].
      now apply (Hkeep _ d).
    + simpl. rewrite map_get_set, String.eqb_refl. exists nd. split; [reflexivity | lra].
  - intros x Hx. destruct (l_vis _ _ _ _ _ Hinv x Hx) as [Hvx [d [Hd Hle]]].
    split; [assumption |]. now apply (Hkeep _ d).
  - intros v. rewrite map_has_set. destruct (String.eqb v n) eqn:E; simpl.
    + apply String.eqb_eq in E. subst v. intros _. right.
      exists (mkPathNode n nd tag), (S l). split; [| reflexivity].
      apply in_or_app. right. now left.
    + intros Hv. destruct (l_reach _ _ _ _ _ Hinv v Hv) as [H | [e' [l' [Hin Hv']]]];
        [now left |].
      right. exists e', l'. split; [| assumption]. apply in_or_app. now left.
  - destruct (l_start _ _ _ _ _ Hinv) as [H | [e' [Hin Hk']]]; [now left |].
    right. exists e'. split; [| assumption]. apply in_or_app. now left.
  - intros u' x Hu' Hx Hnot Hreach.
    destruct (l_done _ _ _ _ _ Hinv u' x Hu' Hx Hnot Hreach)
      as [H | [e' [l' [Hin [Hx' Hl']]]]]; [now left |].
    right. exists e', l'. split; [| tauto]. apply in_or_app. now left.
Qed.

Lemma expand_linv (current : PathNode) (l : nat) (vl : string -> nat) :
  forall ns st gq st',
    linv (pend_from (topicId current) ns) st gq l vl ->
    In (topicId current) (bfs_visited st) ->
    vl (topicId current) = l ->
    node_distance current <= reach_of l ->
    (forall n, In n ns -> In n (neighbors g (topicId current))) ->
    expand g current maxDistance ns st = Ok st' ->
    exists gq', linv no_pend st' gq' l vl.
Proof.
  induction ns as [| n ns IH]; intros st gq st' Hinv Hu Hvl Hq Hns H; cbn [expand] in H.
  - injection H as <-. exists gq. revert Hinv. apply linv_weaken.
    intros u x _ [_ []].
  - assert (Hn : In n (neighbors g (topicId current))) by (apply Hns; now left).
    assert (Hns' : forall x, In x ns -> In x (neighbors g (topicId current))).
    { intros x Hx. apply Hns. now right. }
    destruct (set_has n (bfs_visited st)) eqn:Evis; cbn [negb] in H.
    + apply set_has_In in Evis. apply (IH st gq st'); auto.
      apply linv_settle with (n := n); [assumption |]. intros _. left.
      split; [assumption |]. destruct (l_vis _ _ _ _ _ Hinv n Evis) as [Hvn _]. lia.
    + apply set_has_false in Evis.
      destruct (wf_neighbors g Hwf _ _ Hn) as [Hck Hnk].
      rewrite (getEdgeWeight_ok g _ _ Hck Hnk) in H. cbn [bind] in H.
      pose proof (weight_range g _ _ Hck Hnk) as [_ Hw].
      pose proof (reach_of_S l) as HS.
      set (nd := node_distance current + weight g (topicId current) n) in *.
      destruct (Qle_bool nd maxDistance &&
                match map_get n (bfs_distances st) with
                | Some old => Qltb nd old
                | None => true
                end) eqn:Econd.
      * apply andb_true_iff in Econd. destruct Econd as [_ Hless].
        eapply (IH _ (gq ++ [(mkPathNode n nd (Some (topicId current)), S l)]) st');
          [| | assumption | assumption | assumption | exact H]; [| exact Hu].
        apply linv_push; auto.
        destruct (map_get n (bfs_distances st)); [| exact I].
        now apply Qltb_true in Hless.
      * apply (IH st gq st'); auto.
        apply linv_settle with (n := n); [assumption |]. rewrite Hvl. intros Hreach.
        assert (Hle : Qle_bool nd maxDistance = true).
        { apply Qle_bool_iff. unfold nd. lra. }
        rewrite Hle in Econd. simpl in Econd.
        assert (Hhas : map_has n (bfs_distances st) = true).
        { unfold map_has. destruct (map_get n (bfs_distances st)); [reflexivity |].
          discriminate. }
        destruct (l_reach _ _ _ _ _ Hinv n Hhas) as [Hv | [e' [l' [Hin Hn']]]];
          [contradiction |].
        right. exists e', l'. split; [assumption |]. split; [assumption |].
        destruct (l_range _ _ _ _ _ Hinv e' l' Hin). lia.
Qed.

(** The search keeps the levels, and ends with an empty queue. *)
Lemma bfs_loop_levels (fuel : nat) :
  forall st st' gq c vl,
    linv no_pend st gq c vl ->
    bfs_loop fuel g maxDistance st = Ok st' ->
    exists gq' c' vl', linv no_pend st' gq' c' vl' /\ queue st' = [].
Proof.
  induction fuel as [| fuel IH]; intros st st' gq c vl Hinv H; [discriminate |].
  cbn [bfs_loop] in H.
  destruct (queue st) as [| current rest] eqn:Hqueue.
  { injection H as <-. exists gq, c, vl. split; assumption. }
  pose proof (l_queue _ _ _ _ _ Hinv) as Hgq. rewrite Hqueue in Hgq.
  destruct gq as [| [e l] gq]; [discriminate |]. simpl in Hgq.
  injection Hgq as -> <-.
  destruct (set_has (topicId current) (bfs_visited st)) eqn:Evis.
  - apply set_has_In in Evis. eapply IH; [| exact H].
    now apply (linv_drop st current l gq c vl).
  - apply set_has_false in Evis.
    pose proof (linv_visit st current l gq c vl Hinv Evis) as Hinv1.
    pose proof (l_bound _ _ _ _ _ Hinv current l (or_introl eq_refl)) as Hq.
    set (vl' := fun x => if String.eqb x (topicId current) then l else vl x) in *.
    assert (Hvl : vl' (topicId current) = l).
    { unfold vl'. now rewrite String.eqb_refl. }
    destruct (Qle_bool maxDistance (node_distance current)) eqn:Efar.
    + apply Qle_bool_iff in Efar. eapply IH; [| exact H].
      split; try apply Hinv1.
      intros u x Hu Hx _ Hreach.
      apply (l_done _ _ _ _ _ Hinv1 u x Hu Hx); [| assumption].
      intros [-> _]. rewrite Hvl in Hreach. pose proof (reach_of_S l). lra.
    + destruct (expand g current maxDistance (neighbors g (topicId current)) _)
        as [st2 | |] eqn:Eexp; cbn [bind] in H; try discriminate.
      destruct (expand_linv current l vl' (neighbors g (topicId current)) _ gq st2 Hinv1)
        as [gq2 Hinv2]; auto.
      * simpl. apply set_add_In. now left.
      * eapply IH; [exact Hinv2 | exact H].
Qed.

(** At the end of the search every topic that a path of [h] hops reaches is
    visited, when the greatest weight of [h] hops fits the bound. *)
Lemma levels_reach (st : BfsState) (c : nat) (vl : string -> nat) :
  linv no_pend st [] c vl ->
  forall v p,
    path_from_to g k v p ->
    reach_of (hops p) <= maxDistance ->
    In v (bfs_visited st) /\ (vl v <= hops p)%nat.
Proof.
  intros Hinv.
  apply (path_from_to_ind' g k
           (fun v p => reach_of (hops p) <= maxDistance ->
                       In v (bfs_visited st) /\ (vl v <= hops p)%nat)).
  - intros _. destruct (l_start _ _ _ _ _ Hinv) as [[Hk H0] | [e [[] _]]].
    split; [assumption |]. rewrite H0. apply Nat.le_0_l.
  - intros p u x Hp IH Hx Hreach.
    assert (Hne : p <> []) by (destruct Hp as [Hhd _]; intros ->; discriminate).
    rewrite (hops_snoc p x Hne) in *.
    destruct IH as [Hu Hvu].
    { pose proof (reach_of_mono (hops p) (S (hops p)) (Nat.le_succ_diag_r _)). lra. }
    destruct (l_done _ _ _ _ _ Hinv u x Hu Hx) as [[Hxv Hxl] | [e [l [[] _]]]].
    + intros [].
    + pose proof (reach_of_mono (S (vl u)) (S (hops p)) (proj1 (Nat.succ_le_mono _ _) Hvu)).
      lra.
    + split; [assumption | lia].
Qed.

End Levels.

(** X23. Whatever cycles the graph has, the neighbourhood search misses no
    topic that is near in hops: a topic that a path of [h] hops joins to the
    start is listed, at a distance of at most 1.5 times [h], whenever 1.5
    times [h] is within the bound. *)
Theorem findTopicsWithinDistance_hop_radius (ts : list ITopicData) (k : string)
  (maxDistance : Q) (fuel : nat) (result : list PathNode) (v : string) (p : list string) :
  map_has k (topics (buildGraph ts)) = true ->
  findTopicsWithinDistance fuel (buildGraph ts) k maxDistance = Ok result ->
  path_from_to (buildGraph ts) k v p ->
  reach_of (hops p) <= maxDistance ->
  exists d, In (mkPathNode v d None) result /\ d <= reach_of (hops p).
Proof.
  intros Hk H Hp Hreach. pose proof (buildGraph_well_formed ts) as Hwf.
  set (g := buildGraph ts) in *.
  unfold findTopicsWithinDistance in H. rewrite Hk in H. simpl negb in H. cbv iota in H.
  destruct (bfs_loop fuel g maxDistance _) as [st | |] eqn:Eloop; simpl in H;
    try discriminate.
  injection H as <-.
  destruct (bfs_loop_levels g k maxDistance Hwf fuel _ st _ _ _
              (linv_init g k maxDistance) Eloop) as [gq [c [vl [Hinv Hq]]]].
  assert (Hgq : gq = []).
  { pose proof (l_queue _ _ _ _ _ _ _ _ Hinv) as Hm. rewrite Hq in Hm.
    now destruct gq. }
  subst gq.
  destruct (levels_reach g k maxDistance st c vl Hinv v p Hp Hreach) as [Hv Hvl].
  destruct (l_vis _ _ _ _ _ _ _ _ Hinv v Hv) as [_ [d [Hd Hle]]].
  pose proof (reach_of_mono _ _ Hvl) as Hmono.
  exists d. split; [| lra].
  apply stable_sort_In. apply filter_In. split.
  - apply in_map_iff. exists (v, d). split; [reflexivity | now apply map_get_In].
  - simpl. apply Qle_bool_iff. lra.
Qed.

Lemma findTopicsWithinDistance_hop_radius_witness :
  exists d,
    In (mkPathNode "child2" d None)
       [mkPathNode "child1" 0 None; mkPathNode "grandchild1" (8 # 6) None;
        mkPathNode "root" (11 # 8) None; mkPathNode "child2" (176 # 64) None] /\
    d <= reach_of (hops ["child1"; "root"; "child2"]).
Proof.
  apply (findTopicsWithinDistance_hop_radius sampleTopics "child1" 3 20).
  - reflexivity.
  - vm_compute. reflexivity.
  - vm_compute. tauto.
  - vm_compute. discriminate.
Defined.

(** ** The weight is a function of the two sets of significant words *)

Lemma common_count_same (ta ta' tb tb' : ITopicData) :
  (forall w, In w (significant_words ta) <-> In w (significant_words ta')) ->
  (forall w, In w (significant_words tb) <-> In w (significant_words tb')) ->
  common_count ta tb = common_count ta' tb'.
Proof.
  intros Ha Hb. unfold common_count, set_size.
  apply NoDup_same_length; try apply set_of_list_NoDup.
  intros x. rewrite !set_of_list_In, !filter_In, !set_has_In, Ha, Hb. reflexivity.
Qed.

Lemma union_count_same (ta ta' tb tb' : ITopicData) :
  (forall w, In w (significant_words ta) <-> In w (significant_words ta')) ->
  (forall w, In w (significant_words tb) <-> In w (significant_words tb')) ->
  union_count ta tb = union_count ta' tb'.
Proof.
  intros Ha Hb. unfold union_count, set_size.
  apply NoDup_same_length; try apply set_of_list_NoDup.
  intros x. rewrite !set_of_list_In, !in_app_iff, Ha, Hb. reflexivity.
Qed.

Lemma word_count_same (t t' : ITopicData) :
  (forall w, In w (significant_words t) <-> In w (significant_words t')) ->
  set_size (significant_words t) = set_size (significant_words t').
Proof.
  intros H. unfold set_size. apply NoDup_same_length; try apply extractWords_NoDup.
  exact H.
Qed.

(** X24. The similarity and the weight depend on the two sets of
    significant words alone: two pairs of records with the same significant
    words, in whatever order and however often they occur in name and
    content, have the same similarity and the same weight, whatever their ids
    and parent ids. *)
Theorem weight_from_words_only (a b a' b' : string) (ta tb ta' tb' : ITopicData) :
  (forall w, In w (significant_words ta) <-> In w (significant_words ta')) ->
  (forall w, In w (significant_words tb) <-> In w (significant_words tb')) ->
  calculateContentSimilarity ta tb = calculateContentSimilarity ta' tb' /\
  edge_weight a b ta tb = edge_weight a' b' ta' tb'.
Proof.
  intros Ha Hb.
  assert (Hsim : calculateContentSimilarity ta tb = calculateContentSimilarity ta' tb').
  { rewrite !similarity_unfold.
    rewrite (word_count_same ta ta' Ha), (word_count_same tb tb' Hb).
    now rewrite (common_count_same ta ta' tb tb' Ha Hb),
      (union_count_same ta ta' tb tb' Ha Hb). }
  split; [exact Hsim |].
  rewrite !edge_weight_unfold. now rewrite Hsim.
Qed.

Lemma weight_from_words_only_witness :
  calculateContentSimilarity (mkTopic "x" "Graph Theory" "graph graph theory" None)
    graphTopic
  = calculateContentSimilarity (mkTopic "y" "theory" "THEORY of the Graph" (Some "x"))
      graphTopic /\
  edge_weight "x" "g" (mkTopic "x" "Graph Theory" "graph graph theory" None) graphTopic
  = edge_weight "y" "h" (mkTopic "y" "theory" "THEORY of the Graph" (Some "x")) graphTopic.
Proof.
  apply (weight_from_words_only "x" "g" "y" "h").
  - intros w. vm_compute. tauto.
  - intros w. reflexivity.
Defined.

(** ** All paths: each path once *)

Lemma buildGraph_neighbors_NoDup (ts : list ITopicData) (u : string) :
  NoDup (neighbors (buildGraph ts) u).
Proof.
  revert u. unfold buildGraph. apply fold_left_invariant.
  - intros u. rewrite (init_empty _ (buildGraph_init_ok ts)). constructor.
  - intros g t _ H. now apply buildGraph_link_NoDup.
Qed.

Lemma for_each_unvisited_distinct (visit : string -> DfsState -> result DfsState)
  (R : string -> list string -> Prop) (cp : list string) (vis : StrSet) (ns0 : list string) :
  (forall n n' p, R n p -> R n' p -> n = n') ->
  (forall n s, In n ns0 -> currentPath s = cp -> dfs_visited s = vis -> ~ In n vis ->
               exists s', visit n s = Ok s' /\
                          currentPath s' = cp /\ dfs_visited s' = vis /\
                          exists new, allPaths s' = allPaths s ++ new /\
                                      Forall (R n) new /\ NoDup new) ->
  forall ns s,
    incl ns ns0 -> NoDup ns -> currentPath s = cp -> dfs_visited s = vis ->
    exists s', for_each_unvisited visit ns s = Ok s' /\
               exists new, allPaths s' = allPaths s ++ new /\
                           Forall (fun p => exists n, In n ns /\ R n p) new /\ NoDup new.
Proof.
  intros Hsep Hvisit. induction ns as [| n ns IH]; intros s Hincl Hnd Hcp Hvis; simpl.
  - exists s. split; [reflexivity |]. exists []. rewrite app_nil_r.
    repeat split; constructor.
  - assert (Hn : In n ns0) by (apply Hincl; now left).
    assert (Hns : incl ns ns0) by (intros x Hx; apply Hincl; now right).
    destruct (proj1 (NoDup_cons_iff n ns) Hnd) as [Hfresh Hnd'].
    destruct (set_has n (dfs_visited s)) eqn:E; simpl.
    + destruct (IH s Hns Hnd' Hcp Hvis) as [s' [Hr [new [Hall [Hnew Hdistinct]]]]].
      exists s'. split; [assumption |]. exists new. split; [assumption |].
      split; [| assumption].
      eapply Forall_impl; [| exact Hnew]. intros p [m [Hm Hp]]. exists m.
      split; [now right | assumption].
    + apply set_has_false in E. rewrite Hvis in E.
      destruct (Hvisit n s Hn Hcp Hvis E)
        as [s1 [-> [Hcp1 [Hvis1 [new1 [Hall1 [Hnew1 Hd1]]]]]]]. simpl.
      destruct (IH s1 Hns Hnd' Hcp1 Hvis1) as [s2 [Hr [new2 [Hall2 [Hnew2 Hd2]]]]].
      exists s2. split; [assumption |]. exists (new1 ++ new2).
      split; [now rewrite Hall2, Hall1, app_assoc |]. split.
      * apply Forall_app. split.
        -- eapply Forall_impl; [| exact Hnew1]. intros p Hp. exists n.
           split; [now left | assumption].
        -- eapply Forall_impl; [| exact Hnew2]. intros p [m [Hm Hp]]. exists m.
           split; [now right | assumption].
      * apply NoDup_app; [assumption | assumption |].
        intros p Hp1 Hp2. rewrite Forall_forall in Hnew1, Hnew2.
        destruct (Hnew2 p Hp2) as [m [Hm Hpm]].
        rewrite (Hsep n m p (Hnew1 p Hp1) Hpm) in Hfresh. contradiction.
Qed.

Lemma dfsAllPaths_distinct (g : Graph) (endId : string) (depthBound : Z) (fuel : nat) :
  (forall u, NoDup (neighbors g u)) ->
  forall (c : string) (st : DfsState),
    (forall x, In x (dfs_visited st) <-> In x (currentPath st)) ->
    NoDup (currentPath st) ->
    ~ In c (currentPath st) ->
    (Z.to_nat (depthBound + 1 - Z.of_nat (length (currentPath st))) < fuel)%nat ->
    exists st',
      dfsAllPaths fuel g c endId depthBound st = Ok st' /\
      currentPath st' = currentPath st /\
      dfs_visited st' = dfs_visited st /\
      exists new, allPaths st' = allPaths st ++ new /\
                  Forall (found_below g endId depthBound (currentPath st) c) new /\
                  NoDup new.
Proof.
  intros Hsets. induction fuel as [| fuel IH]; intros c st Hvis Hnd Hc Hfuel; [lia |].
  destruct (dfsAllPaths_spec g endId depthBound (S fuel) c st Hvis Hnd Hc Hfuel)
    as [st' [Hst' [Hcp' [Hvis' [new [Hall Hnew]]]]]].
  exists st'. split; [assumption |]. split; [assumption |]. split; [assumption |].
  exists new. split; [assumption |]. split; [assumption |].
  simpl in Hst'.
  destruct (depthBound <? Z.of_nat (length (currentPath st)))%Z eqn:Edepth.
  { injection Hst' as <-. rewrite <- (app_nil_r (allPaths st)) in Hall at 1.
    apply app_inv_head in Hall. subst new. constructor. }
  apply Z.ltb_ge in Edepth.
  set (pushed := currentPath st ++ [c]) in *.
  assert (Hlen : length pushed = S (length (currentPath st))).
  { unfold pushed. rewrite length_app. simpl. lia. }
  destruct (String.eqb c endId) eqn:Eend.
  - simpl in Hst'. injection Hst' as <-. simpl in Hall.
    apply app_inv_head in Hall. subst new. repeat constructor. intros [].
  - destruct (for_each_unvisited_distinct
                (fun n s => dfsAllPaths fuel g n endId depthBound s)
                (fun n p => found_below g endId depthBound pushed n p)
                pushed (set_add c (dfs_visited st)) (neighbors g c))
      with (ns := neighbors g c)
           (s := mkDfs pushed (set_add c (dfs_visited st)) (allPaths st))
      as [s2 [Hs2 [new2 [Hall2 [_ Hd2]]]]]; try reflexivity; try apply incl_refl;
      try apply Hsets.
    { intros n n' p [t1 [Hp1 _]] [t2 [Hp2 _]]. rewrite Hp1 in Hp2.
      apply app_inv_head in Hp2. now injection Hp2. }
    { intros n s Hn Hcp Hv Hnot. rewrite <- Hcp. rewrite <- Hv. apply IH.
      - intros x. rewrite Hv, Hcp, set_add_In. unfold pushed. rewrite in_app_iff.
        simpl. rewrite Hvis. intuition.
      - rewrite Hcp. unfold pushed.
        apply NoDup_app; [assumption | repeat constructor; intros [] |].
        intros y Hy [<- | []]. contradiction.
      - rewrite Hcp. intros Hin. apply Hnot. rewrite set_add_In. unfold pushed in Hin.
        apply in_app_iff in Hin. simpl in Hin. rewrite Hvis. intuition.
      - rewrite Hcp, Hlen. lia. }
    rewrite Hs2 in Hst'. simpl in Hst'. injection Hst' as <-. simpl in Hall, Hall2.
    rewrite Hall2 in Hall. apply app_inv_head in Hall. now subst new.
Qed.

Lemma map_result_paths (g : Graph) (paths : list (list string)) (rs : list ShortestPath) :
  map_result (fun p => d <- calculatePathDistance g p ;;
                       Ok (mkShortestPath p (Finite d) (hydrate g p))) paths = Ok rs ->
  map path rs = paths /\ Forall (fun r => path_topics r = hydrate g (path r)) rs.
Proof.
  revert rs. induction paths as [| p paths IH]; intros rs H; simpl in H.
  - injection H as <-. split; [reflexivity | constructor].
  - destruct (calculatePathDistance g p) as [d | |]; simpl in H; try discriminate.
    destruct (map_result _ paths) as [rs' | |]; simpl in H; try discriminate.
    injection H as <-. destruct (IH rs' eq_refl) as [Hp Ht]. simpl.
    split; [now rewrite Hp | constructor; [reflexivity | assumption]].
Qed.

(** X25. [findAllPaths] lists no path twice, and each result carries, in
    the order of its path, the records stored under the ids of the path,
    none of them undefined. *)
Theorem findAllPaths_each_once (ts : list ITopicData) (startId endId : string)
  (depthBound : Z) (fuel : nat) (results : list ShortestPath) :
  (Z.to_nat (depthBound + 1) < fuel)%nat ->
  findAllPaths fuel (buildGraph ts) startId endId depthBound = Ok results ->
  NoDup (map path results) /\
  Forall (fun r => exists records,
                     path_topics r = map Some records /\ map id records = path r)
         results.
Proof.
  intros Hfuel H. pose proof (buildGraph_well_formed ts) as Hwf.
  set (g := buildGraph ts) in *. unfold findAllPaths in H.
  destruct (map_has startId (topics g)) eqn:Hs;
    [| simpl in H; injection H as <-; split; constructor].
  destruct (map_has endId (topics g)) eqn:He;
    [| simpl in H; injection H as <-; split; constructor].
  simpl in H.
  assert (Hfuel0 : (Z.to_nat (depthBound + 1
                               - Z.of_nat (length (currentPath (mkDfs [] [] [])))) < fuel)%nat).
  { simpl. rewrite Z.sub_0_r. exact Hfuel. }
  destruct (dfsAllPaths_distinct g endId depthBound fuel
              (buildGraph_neighbors_NoDup ts) startId (mkDfs [] [] [])
              (fun x => iff_refl _) (NoDup_nil _) (fun F => F) Hfuel0)
    as [st [Hst [_ [_ [new [Hall [Hnew Hdistinct]]]]]]].
  rewrite Hst in H. simpl in H, Hall, Hnew. subst new.
  destruct (map_result _ (allPaths st)) as [rs | |] eqn:Ers; simpl in H; try discriminate.
  injection H as <-.
  destruct (map_result_paths g _ _ Ers) as [Hpaths Htopics].
  split.
  - apply (Permutation_NoDup (l := map path rs)).
    + apply Permutation_map. symmetry. apply stable_sort_Permutation.
    + now rewrite Hpaths.
  - apply stable_sort_Forall. rewrite Forall_forall in *. intros r Hr.
    rewrite (Htopics r Hr). apply hydrate_known; [assumption |].
    assert (Hin : In (path r) (allPaths st)).
    { rewrite <- Hpaths. now apply in_map. }
    destruct (Hnew _ Hin) as [tail [Hp [Hpath [Hlast _]]]]. simpl in Hp.
    apply (path_nodes_known g startId endId (path r) Hwf Hs).
    rewrite Hp. split; [reflexivity |]. split; [| assumption].
    rewrite <- Hlast. apply last_default.
Qed.

Lemma findAllPaths_each_once_witness :
  exists results,
    findAllPaths 12 (buildGraph sampleTopics) "grandchild1" "grandchild2" 10 = Ok results /\
    NoDup (map path results) /\
    Forall (fun r => exists records,
                       path_topics r = map Some records /\ map id records = path r)
           results.
Proof.
  eexists. split; [vm_compute; reflexivity |].
  apply (findAllPaths_each_once sampleTopics "grandchild1" "grandchild2" 10 12).
  - vm_compute. lia.
  - vm_compute. reflexivity.
Defined.

(** ** The statistics return exactly when no topic is its own ancestor *)

(** Without parent cycle the walk up the parents ends: it cannot pass more
    topics than there are. *)
Lemma parent_walk_ends (g : Graph) :
  no_parent_cycle g ->
  forall n c seen,
    NoDup seen ->
    (forall v, In v seen -> map_has v (topics g) = true) ->
    (forall v, In v seen -> exists p, parent_of g v = Some p /\ above (parent_of g) p c) ->
    (map_size (topics g) - length seen <= n)%nat ->
    exists l, lineage (parent_of g) (Some c) l.
Proof.
  intros Hfree.
  assert (Hstep : forall c seen,
             NoDup seen ->
             (forall v, In v seen -> map_has v (topics g) = true) ->
             (forall v, In v seen ->
                        exists p, parent_of g v = Some p /\ above (parent_of g) p c) ->
             (exists l, lineage (parent_of g) (Some c) l) \/
             exists p, parent_of g c = Some p /\ p <> "" /\ c <> "" /\
                       NoDup (c :: seen) /\
                       (length (c :: seen) <= map_size (topics g))%nat /\
                       (forall v, In v (c :: seen) -> map_has v (topics g) = true) /\
                       (forall v, In v (c :: seen) ->
                                  exists q, parent_of g v = Some q /\
                                            above (parent_of g) q p)).
  { intros c seen Hnd Hknown Hseen.
    destruct (truthy (Some c)) eqn:Ec; [| left; exists []; now constructor].
    destruct (parent_of g c) as [p |] eqn:Ep;
      [| left; exists [c]; constructor; [assumption |]; rewrite Ep; now constructor].
    destruct (truthy (Some p)) eqn:Etp;
      [| left; exists [c]; constructor; [assumption |]; rewrite Ep; now constructor].
    right. exists p. apply truthy_Some in Etp.
    assert (Hfresh : ~ In c seen).
    { intros Hin. destruct (Hseen c Hin) as [p' [Hp' Hup]]. now apply (Hfree c p'). }
    assert (Hc : map_has c (topics g) = true).
    { unfold parent_of in Ep. unfold map_has. now destruct (map_get c (topics g)). }
    assert (Hall : forall v, In v (c :: seen) -> map_has v (topics g) = true).
    { intros v [Hv | Hv]; [now subst v | now apply Hknown]. }
    split; [reflexivity |]. split; [assumption |].
    split; [now apply truthy_Some |]. split; [now constructor |].
    split; [| split; [exact Hall |]].
    - unfold map_size. rewrite <- (length_map fst (topics g)).
      apply NoDup_incl_length; [now constructor |].
      intros v Hv. apply (map_has_In v (topics g)). now apply Hall.
    - intros v [Hv | Hv].
      + subst v. exists p. split; [assumption | now constructor].
      + destruct (Hseen v Hv) as [p' [Hp' Hup]]. exists p'. split; [assumption |].
        now apply (above_snoc (parent_of g) p' c p). }
  induction n as [| n IH]; intros c seen Hnd Hknown Hseen Hn;
    destruct (Hstep c seen Hnd Hknown Hseen)
      as [Hl | [p [Hp [Hpne [Hcne [Hnd' [Hlen [Hknown' Hseen']]]]]]]]; try assumption.
  - simpl in Hlen. lia.
  - destruct (IH p (c :: seen) Hnd' Hknown' Hseen') as [l Hl]; [simpl in *; lia |].
    exists (c :: l). constructor.
    + now apply truthy_Some.
    + now rewrite Hp.
Qed.

Lemma lineage_length (g : Graph) (cur : option string) (l : list string) :
  lineage (parent_of g) cur l -> (length l <= map_size (topics g) + 1)%nat.
Proof.
  intros Hl.
  assert (H : (length (removelast l) <= map_size (topics g))%nat).
  { unfold map_size. rewrite <- (length_map fst (topics g)).
    apply NoDup_incl_length.
    - apply NoDup_removelast. eapply lineage_NoDup. exact Hl.
    - intros x Hx. destruct (lineage_parents _ _ _ Hl x Hx) as [p Hp].
      apply (map_has_In x (topics g)). unfold parent_of in Hp. unfold map_has.
      now destruct (map_get x (topics g)). }
  rewrite length_removelast in H. lia.
Qed.

(** The depths of the topics of a list, once every walk ends. *)
Lemma depths_return (g : Graph) (ks : list string) :
  Forall (fun k => exists l, lineage (parent_of g) (Some k) l) ks ->
  exists depths,
    forall fuel, (map_size (topics g) + 2 <= fuel)%nat ->
                 map_result (getTopicDepth fuel g) ks = Ok depths.
Proof.
  induction 1 as [| k ks [l Hl] _ [depths IH]].
  - exists []. reflexivity.
  - exists (pred (length l) :: depths). intros fuel Hfuel. simpl.
    unfold getTopicDepth at 1.
    rewrite (lineage_depth_loop g _ l Hl fuel 0%nat)
      by (pose proof (lineage_length g _ l Hl); lia).
    simpl. now rewrite (IH fuel Hfuel).
Qed.

Lemma depth_loop_no_error (g : Graph) (fuel : nat) :
  forall cur depth, depth_loop fuel g cur depth <> TypeError.
Proof.
  induction fuel as [| fuel IH]; intros cur depth; [discriminate |].
  cbn [depth_loop]. destruct cur as [c |]; [| discriminate].
  destruct (truthy (Some c)); [| discriminate].
  destruct (negb (truthy (parent_of g c))); [discriminate | apply IH].
Qed.

Lemma map_result_out_of_fuel {A B : Type} (f : A -> result B) (l : list A) (k : A) :
  (forall x, f x <> TypeError) -> In k l -> f k = OutOfFuel ->
  map_result f l = OutOfFuel.
Proof.
  intros Hno. induction l as [| x l IH]; intros Hk Hout; [destruct Hk |]. simpl.
  destruct Hk as [-> | Hk]; [now rewrite Hout |].
  destruct (f x) as [y | |] eqn:Ex; simpl; [| now elim (Hno x) | reflexivity].
  now rewrite (IH Hk Hout).
Qed.

(** On a parent cycle the depth walk goes round without end. *)
Lemma parent_cycle_depth (g : Graph) (k p : string) (fuel : nat) :
  parent_of g k = Some p -> above (parent_of g) p k ->
  getTopicDepth fuel g k = OutOfFuel.
Proof.
  intros Hp Hup. unfold getTopicDepth.
  rewrite (depth_loops_agree g (topics g) eq_refl).
  apply (table_depth_cycle (topics g) (climbs (found_parent (topics g)) k)).
  - intros x Hx. split; [eapply climbs_nonempty; exact Hx |].
    inversion Hx as [Hk | a q Ha Hak Hq Hcq]; subst.
    + exists p. split; [exact Hp |]. now apply above_climbs.
    + exists q. split; assumption.
  - constructor. apply above_climbs in Hup. eapply climbs_target_nonempty. exact Hup.
Qed.

(** C3, as the code has it.  When no topic of the graph is its own ancestor,
    [getGraphStats] returns, and its root list holds, once each, exactly the
    ids whose record has no parent id (absent or empty); whether a given
    parent id refers to a topic of the list plays no part.  When a topic is
    its own ancestor, [getGraphStats] does not return. *)
Theorem getGraphStats_roots (ts : list ITopicData) :
  (no_parent_cycle (buildGraph ts) ->
   exists stats,
     (forall fuel, (map_size (topics (buildGraph ts)) + 2 <= fuel)%nat ->
                   getGraphStats fuel (buildGraph ts) = Ok stats) /\
     NoDup (rootNodes stats) /\
     forall k,
       In k (rootNodes stats) <->
       exists t, map_get k (topics (buildGraph ts)) = Some t /\
                 truthy (parentTopicId t) = false) /\
  (forall k p,
      parent_of (buildGraph ts) k = Some p ->
      above (parent_of (buildGraph ts)) p k ->
      forall fuel, getGraphStats fuel (buildGraph ts) = OutOfFuel).
Proof.
  set (g := buildGraph ts). split.
  - intros Hfree.
    assert (Hwalks : Forall (fun k => exists l, lineage (parent_of g) (Some k) l)
                            (map_keys (topics g))).
    { apply Forall_forall. intros k _.
      apply (parent_walk_ends g Hfree (map_size (topics g)) k []).
      - constructor.
      - intros v [].
      - intros v [].
      - lia. }
    destruct (depths_return g _ Hwalks) as [depths Hdepths].
    eexists. split.
    + intros fuel Hfuel. unfold getGraphStats. rewrite (Hdepths fuel Hfuel). reflexivity.
    + simpl. pose proof (buildGraph_well_formed ts) as [Hnd _ Hid _]. fold g in Hnd, Hid.
      split; [now apply root_filter_NoDup |].
      intros k. now apply root_filter_In.
  - intros k p Hp Hup fuel. unfold getGraphStats.
    rewrite (map_result_out_of_fuel (getTopicDepth fuel g) _ k); [reflexivity | | |].
    + intros x. apply depth_loop_no_error.
    + apply map_has_In. unfold parent_of in Hp. unfold map_has.
      now destruct (map_get k (topics g)).
    + now apply (parent_cycle_depth g k p).
Qed.

(** A graph all of whose depth walks return has no parent cycle. *)
Lemma depth_walks_no_parent_cycle (g : Graph) (fuel : nat) :
  Forall (fun k => exists d, getTopicDepth fuel g k = Ok d) (map_keys (topics g)) ->
  no_parent_cycle g.
Proof.
  intros Hall k p Hp Hup.
  assert (Hk : In k (map_keys (topics g))).
  { apply map_has_In. unfold parent_of in Hp. unfold map_has.
    now destruct (map_get k (topics g)). }
  rewrite Forall_forall in Hall. destruct (Hall k Hk) as [d Hd].
  rewrite (parent_cycle_depth g k p fuel Hp Hup) in Hd. discriminate.
Qed.

Lemma getGraphStats_roots_witness :
  exists stats,
    (forall fuel, (map_size (topics (buildGraph sampleTopics)) + 2 <= fuel)%nat ->
                  getGraphStats fuel (buildGraph sampleTopics) = Ok stats) /\
    NoDup (rootNodes stats) /\
    forall k,
      In k (rootNodes stats) <->
      exists t, map_get k (topics (buildGraph sampleTopics)) = Some t /\
                truthy (parentTopicId t) = false.
Proof.
  apply (proj1 (getGraphStats_roots sampleTopics)).
  apply (depth_walks_no_parent_cycle _ 10).
  change (map_keys (topics (buildGraph sampleTopics)))
    with ["root"; "child1"; "child2"; "grandchild1"; "grandchild2"].
  repeat constructor; eexists; vm_compute; reflexivity.
Defined.

(** ** Topics within a distance: the query *)


